(** * mloptimizer: the genetic optimizer of [genoptimizer/base.py]

    A shallow embedding of [BaseOptimizer] (search-space assembly, the
    resume and fresh-run branches of [optimize_clf], the generational loop
    [custom_ea_simple]) together with the DEAP operators the loop calls
    ([varAnd], [cxTwoPoint], [mutUniformInt], [selTournament],
    [HallOfFame]), and the properties of the specification that can be
    settled on it.

    Conventions.
    - Python [int]s are [Z]; list lengths and indices are [nat].
    - Scores are floats in the program; only their order and equality
      matter here and they are modelled as rationals [Q].
    - The interpreter state that the program reads and writes (the random
      stream, the directories, pickled files, and the chronological trace
      of file writes, log lines and evaluations) is the record [World];
      the mutable attributes of the optimizer object are the record
      [Optimizer] held inside it.  A computation is a function
      [World -> res A * World]: an exception keeps the effects performed
      before it was raised.
    - Of the host, the directories decide whether a file can be created:
      creating one in a folder that does not exist raises.  Other
      failures of the host (permissions, a full disk) are left out.
    - [utils.init_logger], which lives outside [base.py], is taken to
      return a logger for the file it is asked for. *)

From Stdlib Require Import ZArith QArith Lia Lqa Ascii String.
From stdpp Require Import base option list sorting gmap strings pretty.

Local Open Scope Z_scope.
Local Open Scope string_scope.
Local Open Scope list_scope.

(** ** Exceptions and the result type *)

Inductive exn : Type :=
  | NotADirectoryError
  | TypeError
  | AttributeError
  | ValueError
  | IndexError
  | KeyError
  | FileNotFoundError
  | FileExistsError
  | ZeroDivisionError
  | ImportError
  | OSError.

Inductive res (A : Type) : Type :=
  | Ok (a : A)
  | Raise (e : exn).
Arguments Ok {A} a.
Arguments Raise {A} e.

(** ** The random stream

    Python's [random] module is a deterministic generator with a hidden
    state: [random.random()] returns a float of [[0,1)],
    [Random._randbelow(n)] an integer of [[0,n)], both advance the state;
    [random.getstate()]/[random.setstate()] read and write it.  The
    generator is a parameter of the development. *)

Class RNG : Type := {
  rstate : Type;
  next_random : rstate -> Q * rstate;
  next_below : Z -> rstate -> Z * rstate;
  seed_state : Z -> rstate;
  next_below_range : forall n s, 0 < n -> 0 <= fst (next_below n s) < n
}.

(** A generator that replays a tape: [random()] reads the next cell as a
    number of thousandths, [_randbelow n] reduces it modulo [n]; an
    exhausted tape yields zeros. *)
Definition tape_random (s : list Z) : Q * list Z :=
  match s with
  | [] => (0%Q, [])
  | x :: s' => (Qmake (x mod 1000) 1000, s')
  end.

Definition tape_below (n : Z) (s : list Z) : Z * list Z :=
  match s with
  | [] => (0, [])
  | x :: s' => (x mod n, s')
  end.

Definition TapeRNG : RNG.
Proof.
  refine {| rstate := list Z;
            next_random := tape_random;
            next_below := tape_below;
            seed_state := fun seed => [seed] |}.
  intros n s Hn. destruct s as [|x s]; simpl; [lia|].
  apply Z.mod_pos_bound; lia.
Defined.

(** ** Paths ([os.path])

    [os.path.join a b] for a single second component, and
    [os.path.dirname], as in [posixpath].  A [None] first argument makes
    [os.path.join] raise [TypeError]. *)

Definition sep : ascii := "/"%char.

Fixpoint ends_with_sep (a : string) : bool :=
  match a with
  | EmptyString => false
  | String c EmptyString => bool_decide (c = sep)
  | String _ a' => ends_with_sep a'
  end.

Definition starts_with_sep (b : string) : bool :=
  match b with
  | String c _ => bool_decide (c = sep)
  | EmptyString => false
  end.

Definition join (a b : string) : string :=
  if starts_with_sep b then b
  else if bool_decide (a = "") || ends_with_sep a then a +:+ b
  else a +:+ String sep b.

Definition path_join (a : option string) (b : string) : res string :=
  match a with
  | None => Raise TypeError
  | Some a => Ok (join a b)
  end.

(** [p[:p.rfind(sep) + 1]]: the prefix up to and including the last
    separator. *)
Fixpoint head_upto_sep (p : string) : option string :=
  match p with
  | EmptyString => None
  | String c p' =>
      match head_upto_sep p' with
      | Some h => Some (String c h)
      | None => if bool_decide (c = sep) then Some (String c EmptyString) else None
      end
  end.

Fixpoint all_sep (h : string) : bool :=
  match h with
  | EmptyString => true
  | String c h' => bool_decide (c = sep) && all_sep h'
  end.

(** [h.rstrip(sep)] *)
Fixpoint rstrip_sep (h : string) : string :=
  match h with
  | EmptyString => EmptyString
  | String c h' =>
      match rstrip_sep h' with
      | EmptyString => if bool_decide (c = sep) then EmptyString else String c EmptyString
      | r => String c r
      end
  end.

Definition dirname (p : string) : string :=
  let head := default "" (head_upto_sep p) in
  if negb (bool_decide (head = "")) && negb (all_sep head) then rstrip_sep head
  else head.


(** ** Individuals and fitness (DEAP [creator.Individual], [base.Fitness])

    An individual is a list of integers carrying a fitness.  The fitness
    holds the 1-tuple returned by [evaluate_clf], or the empty tuple when
    it was never set or was deleted; [fitness.valid] is the test that the
    tuple is not empty.  The weights are [(1.0,)], so the weighted values
    are the values, and comparisons are those of the tuples. *)

Record Individual : Type := mkInd {
  genome : list Z;
  fitness : option Q
}.

Definition valid (ind : Individual) : bool := bool_decide (is_Some (fitness ind)).

(** [del ind.fitness.values] *)
Definition del_fitness (ind : Individual) : Individual :=
  {| genome := genome ind; fitness := None |}.

(** [ind.fitness.values = fit] *)
Definition set_fitness (ind : Individual) (fit : Q) : Individual :=
  {| genome := genome ind; fitness := Some fit |}.

(** [Fitness.__le__]: [self.wvalues <= other.wvalues] on tuples of length
    at most one. *)
Definition fit_le (a b : option Q) : bool :=
  match a, b with
  | None, _ => true
  | Some _, None => false
  | Some x, Some y => Qle_bool x y
  end.

(** [Fitness.__lt__]: [self.wvalues < other.wvalues]. *)
Definition fit_lt (a b : option Q) : bool :=
  match a, b with
  | _, None => false
  | None, Some _ => true
  | Some x, Some y => negb (Qle_bool y x)
  end.

(** [Fitness.__gt__]: [not self.__le__(other)]. *)
Definition fit_gt (a b : option Q) : bool := negb (fit_le a b).

(** [operator.eq] on individuals is list equality of the genomes. *)
Definition similar (a b : Individual) : bool := bool_decide (genome a = genome b).

(** ** The hall of fame (DEAP [tools.HallOfFame])

    [keys] holds the fitnesses in ascending order and [items] the
    individuals, best first; [update] keeps them in step. *)

Record HallOfFame : Type := mkHof {
  maxsize : nat;
  keys : list (option Q);
  items : list Individual
}.

(** [tools.HallOfFame(maxsize)] *)
Definition hof_new (n : nat) : HallOfFame :=
  {| maxsize := n; keys := []; items := [] |}.

(** [len(hof)] is [len(self.items)]. *)
Definition hof_len (h : HallOfFame) : nat := length (items h).

(** [bisect.bisect_right(a, x)]:
    [while lo < hi: mid = (lo + hi) // 2;
       if x < a[mid]: hi = mid else: lo = mid + 1].
    The interval shrinks at every turn, so [len(a)] turns are enough. *)
Fixpoint bisect_loop (fuel : nat) (a : list (option Q)) (x : option Q)
    (lo hi : nat) : nat :=
  match fuel with
  | O => lo
  | S fuel' =>
      if decide (lo < hi)%nat then
        let mid := ((lo + hi) / 2)%nat in
        match a !! mid with
        | Some k =>
            if fit_lt x k then bisect_loop fuel' a x lo mid
            else bisect_loop fuel' a x (S mid) hi
        | None => lo
        end
      else lo
  end.

Definition bisect_right (a : list (option Q)) (x : option Q) : nat :=
  bisect_loop (length a) a x 0 (length a).

(** [l.insert(i, x)] for [0 <= i]: an index past the end appends. *)
Definition list_insert_at {A} (i : nat) (x : A) (l : list A) : list A :=
  take i l ++ x :: drop i l.

(** [HallOfFame.insert]: the item is deep-copied, so later changes to the
    population do not reach the hall of fame. *)
Definition hof_insert (h : HallOfFame) (item : Individual) : HallOfFame :=
  let i := bisect_right (keys h) (fitness item) in
  {| maxsize := maxsize h;
     keys := list_insert_at i (fitness item) (keys h);
     items := list_insert_at (hof_len h - i) item (items h) |}.

(** A Python index into a sequence of length [n]: negative indices count
    from the end. *)
Definition py_index (n : nat) (i : Z) : option nat :=
  if decide (0 <= i < Z.of_nat n) then Some (Z.to_nat i)
  else if decide (- Z.of_nat n <= i < 0) then Some (Z.to_nat (Z.of_nat n + i))
  else None.

(** [HallOfFame.remove(index)]:
    [del self.keys[len(self) - (index % len(self) + 1)]; del self.items[index]]. *)
Definition hof_remove (h : HallOfFame) (index : Z) : res HallOfFame :=
  let n := hof_len h in
  if decide (n = 0)%nat then Raise ZeroDivisionError
  else
    let ki := Z.of_nat n - (index mod Z.of_nat n + 1) in
    match py_index (length (keys h)) ki, py_index n index with
    | Some k, Some i =>
        Ok {| maxsize := maxsize h;
              keys := delete k (keys h);
              items := delete i (items h) |}
    | _, _ => Raise IndexError
    end.

(** The body of the [for ind in population] loop of [HallOfFame.update]. *)
Definition hof_update_one (population : list Individual) (h : HallOfFame)
    (ind : Individual) : res HallOfFame :=
  if bool_decide (hof_len h = 0)%nat && negb (bool_decide (maxsize h = 0)%nat) then
    match population with
    | p0 :: _ => Ok (hof_insert h p0)
    | [] => Raise IndexError
    end
  else
    match last (items h) with
    | None => Raise IndexError   (* [self[-1]] on an empty hall of fame *)
    | Some worst =>
        if fit_gt (fitness ind) (fitness worst)
           || bool_decide (hof_len h < maxsize h)%nat then
          if existsb (similar ind) (items h) then Ok h
          else if bool_decide (maxsize h <= hof_len h)%nat then
            match hof_remove h (-1) with
            | Ok h' => Ok (hof_insert h' ind)
            | Raise e => Raise e
            end
          else Ok (hof_insert h ind)
        else Ok h
    end.

Fixpoint hof_update_loop (population : list Individual) (h : HallOfFame)
    (todo : list Individual) : res HallOfFame :=
  match todo with
  | [] => Ok h
  | ind :: todo' =>
      match hof_update_one population h ind with
      | Ok h' => hof_update_loop population h' todo'
      | Raise e => Raise e
      end
  end.

(** [HallOfFame.update(population)] *)
Definition hof_update (h : HallOfFame) (population : list Individual) : res HallOfFame :=
  hof_update_loop population h population.


(** ** Statistics and the logbook (DEAP [tools.Statistics], [tools.Logbook]) *)

Record Stats : Type := mkStats { stat_avg : Q; stat_min : Q; stat_max : Q }.

Record LogRecord : Type := mkLogRecord {
  gen : Z;
  nevals : nat;
  stats_of : option Stats
}.

Record Logbook : Type := mkLogbook {
  header : option (list string);
  chapters : list LogRecord
}.

(** [tools.Logbook()] *)
Definition logbook_new : Logbook := {| header := None; chapters := [] |}.

(** [logbook.record(gen=..., nevals=..., **record)] appends one entry. *)
Definition logbook_record (lb : Logbook) (r : LogRecord) : Logbook :=
  {| header := header lb; chapters := chapters lb ++ [r] |}.

Definition Qmin (a b : Q) : Q := if Qle_bool a b then a else b.
Definition Qmax (a b : Q) : Q := if Qle_bool a b then b else a.

(** [stats.compile(population)] with [avg], [min], [max] registered on
    [ind.fitness.values]: [np.min] of an empty population raises
    [ValueError], and so does an individual without fitness values (the
    rows are then ragged). *)
Fixpoint fitness_values (population : list Individual) : option (list Q) :=
  match population with
  | [] => Some []
  | ind :: rest =>
      match fitness ind, fitness_values rest with
      | Some v, Some vs => Some (v :: vs)
      | _, _ => None
      end
  end.

Definition stats_compile (population : list Individual) : res Stats :=
  match fitness_values population with
  | Some (v :: vs) =>
      Ok {| stat_avg := (foldr Qplus 0 (v :: vs) / inject_Z (Z.of_nat (length (v :: vs))))%Q;
            stat_min := foldr Qmin v vs;
            stat_max := foldr Qmax v vs |}
  | _ => Raise ValueError
  end.

(** ** Hyperparameters

    [Hyperparam] objects carry the integer bounds of one dimension; their
    decoding [correct] belongs to the target-algorithm side and is a
    parameter below. *)

Record Hyperparam : Type := mkHyperparam {
  min_value : Z;
  max_value : Z
}.

(** ** The world *)

Inductive LogMsg : Type :=
  | MsgNotADirectory (checkpoint_path : option string)
  | MsgMultiprocessing
  | MsgFromCheckpoint (checkpoint : string)
  | MsgGeneration (g : Z)
  | MsgFitting (g : Z) (c total : nat)
  | MsgStream (lb : Logbook)
  | MsgTop (i : nat)
  | MsgAccuracy (fit : option Q)
  | MsgBestClassifier (g : list Z)
  | MsgHyperparams (g : list Z).

Inductive LogLevel : Type := INFO | WARNING | ERROR.

Inductive Table : Type :=
  | PopulationsTable (ps : list (list Individual))
  | LogbookTable (lb : option Logbook).

Section World.

Context {R : RNG}.

(** The record pickled by [joblib.dump] at the end of a generation. *)
Record Checkpoint : Type := mkCheckpoint {
  cp_population : list Individual;
  cp_generation : Z;
  cp_halloffame : HallOfFame;
  cp_logbook : Logbook;
  cp_rndstate : rstate
}.

(** What the run does to the outside, in order. *)
Inductive Event : Type :=
  | ELog (logger : string) (level : LogLevel) (msg : LogMsg)
  | EMkdir (path : string)
  | ERmtree (path : string)
  | EWrite (path : string) (text : string)          (* [open(path, "w")], [write] *)
  | EAppend (path : string) (c total : nat) (decoded : gmap string Q) (fit : Q)
                                                     (* [open(path, "a")], [write] *)
  | EEvaluate (g : list Z)                           (* one call of [toolbox.evaluate] *)
  | EDump (path : string) (cp : Checkpoint)          (* [joblib.dump] *)
  | ECsv (path : string) (t : Table).                (* [DataFrame.to_csv] *)

(** The attributes of a [BaseOptimizer] that the engine reads or writes. *)
Record Optimizer : Type := mkOptimizer {
  hyperparams : list (string * Hyperparam);   (* the dict, in key order *)
  fixed_hyperparams : gmap string Q;
  folder : string;
  optimization_logger : option string;
  exe_path : option string;
  checkpoint_path : option string;
  progress_path : option string;
  results_path : option string;
  graphics_path : option string;
  populations : list (list Individual);
  logbook : option Logbook;
  mlopt_seed : option Z;
  use_parallel : bool
}.

Record World : Type := mkWorld {
  self : Optimizer;
  rng : rstate;                         (* the state of [random] *)
  dirs : gset string;                   (* the directories that exist *)
  pickles : gmap string Checkpoint;     (* the files written by [joblib.dump] *)
  trace : list Event
}.

Definition M (A : Type) : Type := World -> res A * World.

Definition ret {A} (a : A) : M A := fun w => (Ok a, w).

Definition bind {A B} (m : M A) (f : A -> M B) : M B :=
  fun w =>
    match m w with
    | (Ok a, w') => f a w'
    | (Raise e, w') => (Raise e, w')
    end.

Definition raise {A} (e : exn) : M A := fun w => (Raise e, w).

Definition lift {A} (r : res A) : M A := fun w => (r, w).

End World.

Declare Scope py_scope.
Delimit Scope py_scope with py.
Notation "x <- m ;; k" := (bind m (fun x => k))
  (at level 100, m at next level, right associativity) : py_scope.
Notation "m ;;; k" := (bind m (fun _ => k))
  (at level 100, right associativity) : py_scope.
Local Open Scope py_scope.

Section Effects.

Context {R : RNG}.

(** *** Primitive effects *)

Definition emit (e : Event) : M unit :=
  fun w => (Ok tt, {| self := self w; rng := rng w; dirs := dirs w;
                      pickles := pickles w; trace := trace w ++ [e] |}).

Definition get_self : M Optimizer := fun w => (Ok (self w), w).

Definition put_self (o : Optimizer) : M unit :=
  fun w => (Ok tt, {| self := o; rng := rng w; dirs := dirs w;
                      pickles := pickles w; trace := trace w |}).

(** [random.getstate()] and [random.setstate(s)] *)
Definition getstate : M rstate := fun w => (Ok (rng w), w).

Definition setstate (s : rstate) : M unit :=
  fun w => (Ok tt, {| self := self w; rng := s; dirs := dirs w;
                      pickles := pickles w; trace := trace w |}).

(** [random.random()] *)
Definition random_random : M Q :=
  fun w => let (x, s) := next_random (rng w) in
           (Ok x, {| self := self w; rng := s; dirs := dirs w;
                     pickles := pickles w; trace := trace w |}).

(** [Random._randbelow(n)] *)
Definition randbelow (n : Z) : M Z :=
  fun w => let (x, s) := next_below n (rng w) in
           (Ok x, {| self := self w; rng := s; dirs := dirs w;
                     pickles := pickles w; trace := trace w |}).

(** [random.randint(a, b)] is [randrange(a, b + 1)]: with
    [width = b + 1 - a], it returns [a + _randbelow(width)] when
    [width > 0] and raises [ValueError] on an empty range. *)
Definition randint (a b : Z) : M Z :=
  if decide (0 < b + 1 - a) then
    x <- randbelow (b + 1 - a) ;; ret (a + x)
  else raise ValueError.

(** [random.choice(seq)] *)
Definition random_choice {A} (seq : list A) : M A :=
  match seq with
  | [] => raise IndexError
  | _ =>
      i <- randbelow (Z.of_nat (length seq)) ;;
      match seq !! Z.to_nat i with
      | Some x => ret x
      | None => raise IndexError
      end
  end.

(** [os.path.isdir] *)
Definition isdir (path : string) : M bool :=
  fun w => (Ok (bool_decide (path ∈ dirs w)), w).

(** A file or a directory is created in the folder [d]: the call
    raises [e] unless [d] is an existing directory, or the empty path,
    which stands for the current directory. *)
Definition in_folder (d : string) (e : exn) : M unit :=
  fun w => if bool_decide (d = "" \/ d ∈ dirs w) then (Ok tt, w) else (Raise e, w).

(** The same for a folder held in an attribute, once [os.path.join] has
    accepted it. *)
Definition creates_in (folder : option string) (e : exn) : M unit :=
  match folder with
  | Some d => in_folder d e
  | None => ret tt
  end.

(** [os.mkdir(os.path.join(parent, name))], for a [name] of one
    component. *)
Definition mkdir (parent name : string) : M unit :=
  in_folder parent FileNotFoundError ;;;
  fun w =>
    if bool_decide (join parent name ∈ dirs w) then (Raise FileExistsError, w)
    else (Ok tt, {| self := self w; rng := rng w;
                    dirs := dirs w ∪ {[join parent name]};
                    pickles := pickles w;
                    trace := trace w ++ [EMkdir (join parent name)] |}).

Definition under (root path : string) : Prop :=
  path = root \/ String.prefix (root +:+ String sep "") path = true.

#[local] Instance under_dec root path : Decision (under root path).
Proof. unfold under. apply _. Defined.

(** [shutil.rmtree(root)] *)
Definition rmtree (root : string) : M unit :=
  fun w => (Ok tt, {| self := self w; rng := rng w;
                      dirs := filter (fun p => ¬ under root p) (dirs w);
                      pickles := filter (fun kv => ¬ under root kv.1) (pickles w);
                      trace := trace w ++ [ERmtree root] |}).

(** [joblib.dump(cp, path)] and [joblib.load(path)] *)
Definition dump (cp : Checkpoint) (path : string) : M unit :=
  fun w => (Ok tt, {| self := self w; rng := rng w; dirs := dirs w;
                      pickles := <[path := cp]> (pickles w);
                      trace := trace w ++ [EDump path cp] |}).

Definition load (path : string) : M Checkpoint :=
  fun w => match pickles w !! path with
           | Some cp => (Ok cp, w)
           | None => (Raise FileNotFoundError, w)
           end.

(** A call on [self.optimization_logger]: the attribute is [None] until
    [optimize_clf] creates the logger, and a method call on [None] raises
    [AttributeError]. *)
Definition log (level : LogLevel) (msg : LogMsg) : M unit :=
  o <- get_self ;;
  match optimization_logger o with
  | None => raise AttributeError
  | Some lg => emit (ELog lg level msg)
  end.

(** [for x in l: s = f(s, x)] *)
Fixpoint for_each {A S} (f : S -> A -> M S) (l : list A) (s : S) : M S :=
  match l with
  | [] => ret s
  | x :: l' => s' <- f s x ;; for_each f l' s'
  end.

End Effects.

(** ** The DEAP operators registered in the toolbox *)

Section Deap.

Context {R : RNG}.

(** [random.random() < p] *)
Definition Qltb (x p : Q) : bool := negb (Qle_bool p x).

(** [l[a:b]] and [l[a:b] = new] for [0 <= a <= b]. *)
Definition slice {A} (l : list A) (a b : nat) : list A := take (b - a) (drop a l).

Definition slice_assign {A} (l : list A) (a b : nat) (new : list A) : list A :=
  take a l ++ new ++ drop (Nat.max a b) l.

(** [tools.cxTwoPoint(ind1, ind2)]: both individuals are modified in
    place and returned. *)
Definition cxTwoPoint (ind1 ind2 : list Z) : M (list Z * list Z) :=
  let size := Z.of_nat (Nat.min (length ind1) (length ind2)) in
  cxpoint1 <- randint 1 size ;;
  cxpoint2 <- randint 1 (size - 1) ;;
  let points :=
    if decide (cxpoint1 <= cxpoint2) then (cxpoint1, cxpoint2 + 1)
    else (cxpoint2, cxpoint1) in
  let a := Z.to_nat points.1 in
  let b := Z.to_nat points.2 in
  ret (slice_assign ind1 a b (slice ind2 a b),
       slice_assign ind2 a b (slice ind1 a b)).

(** The loop of [tools.mutUniformInt]:
    [for i, xl, xu in zip(range(size), low, up):
       if random.random() < indpb: individual[i] = random.randint(xl, xu)]. *)
Fixpoint mutUniformInt_loop (individual low up : list Z) (indpb : Q) : M (list Z) :=
  match individual, low, up with
  | x :: individual', xl :: low', xu :: up' =>
      u <- random_random ;;
      x' <- (if Qltb u indpb then randint xl xu else ret x) ;;
      rest <- mutUniformInt_loop individual' low' up' indpb ;;
      ret (x' :: rest)
  | _, _, _ => ret individual
  end.

(** [tools.mutUniformInt(individual, low, up, indpb)] with sequences for
    [low] and [up]. *)
Definition mutUniformInt (individual low up : list Z) (indpb : Q) : M (list Z) :=
  if decide (length low < length individual)%nat then raise IndexError
  else if decide (length up < length individual)%nat then raise IndexError
  else mutUniformInt_loop individual low up indpb.

(** What [optimize_clf] registers in the toolbox: [map] (the builtin or
    [pool.map]), the bounds and [indpb] of [mutate], the size of the
    tournaments of [select].  [mate] is [cxTwoPoint] and [evaluate] is
    [evaluate_clf]. *)
Record Toolbox : Type := mkToolbox {
  pool_map : bool;
  low : list Z;
  up : list Z;
  indpb : Q;
  tournsize : nat
}.

(** The first loop of [deap.algorithms.varAnd], over the pairs
    [(offspring[i - 1], offspring[i])] for [i] in [range(1, len, 2)]:
    a mated pair loses its fitness values. *)
Fixpoint varAnd_mate (cxpb : Q) (offspring : list Individual) : M (list Individual) :=
  match offspring with
  | a :: b :: rest =>
      u <- random_random ;;
      ab <- (if Qltb u cxpb then
               g <- cxTwoPoint (genome a) (genome b) ;;
               ret (mkInd g.1 None, mkInd g.2 None)
             else ret (a, b)) ;;
      rest' <- varAnd_mate cxpb rest ;;
      ret (ab.1 :: ab.2 :: rest')
  | _ => ret offspring
  end.

(** The second loop of [varAnd]: a mutated individual loses its fitness
    values. *)
Fixpoint varAnd_mutate (tb : Toolbox) (mutpb : Q) (offspring : list Individual)
    : M (list Individual) :=
  match offspring with
  | [] => ret []
  | a :: rest =>
      u <- random_random ;;
      a' <- (if Qltb u mutpb then
               g <- mutUniformInt (genome a) (low tb) (up tb) (indpb tb) ;;
               ret (mkInd g None)
             else ret a) ;;
      rest' <- varAnd_mutate tb mutpb rest ;;
      ret (a' :: rest')
  end.

(** [varAnd(population, toolbox, cxpb, mutpb)].  The offspring are clones
    of the population (records are values here), so the input
    individuals are never modified. *)
Definition varAnd (population : list Individual) (tb : Toolbox) (cxpb mutpb : Q)
    : M (list Individual) :=
  offspring <- varAnd_mate cxpb population ;;
  varAnd_mutate tb mutpb offspring.

(** [tools.selRandom(individuals, k)] *)
Fixpoint selRandom (individuals : list Individual) (k : nat) : M (list Individual) :=
  match k with
  | O => ret []
  | S k' =>
      x <- random_choice individuals ;;
      rest <- selRandom individuals k' ;;
      ret (x :: rest)
  end.

(** [max(aspirants, key=attrgetter("fitness"))]: the first of the best. *)
Definition max_fitness_first (aspirants : list Individual) : res Individual :=
  match aspirants with
  | [] => Raise ValueError
  | x :: rest =>
      Ok (fold_left (fun best y => if fit_gt (fitness y) (fitness best) then y else best)
                    rest x)
  end.

(** [tools.selTournament(individuals, k, tournsize)] *)
Fixpoint selTournament (individuals : list Individual) (k tournsize : nat)
    : M (list Individual) :=
  match k with
  | O => ret []
  | S k' =>
      aspirants <- selRandom individuals tournsize ;;
      winner <- lift (max_fitness_first aspirants) ;;
      chosen <- selTournament individuals k' tournsize ;;
      ret (winner :: chosen)
  end.

End Deap.

(** ** [BaseOptimizer] *)

Section BaseOptimizer.

Context {R : RNG}.

(** The collaborators: [evaluate_clf] builds the classifier of a genome
    and scores it ([eval_function], [score_function], [get_clf]); it is
    a deterministic total function of the genome here.  [correct] is
    [Hyperparam.correct]. *)
Variable evaluate_clf : list Z -> Q.
Variable correct : Hyperparam -> Z -> Q.

(** [BaseOptimizer.__init__]: the attributes after construction.
    [hps] is the result of [get_hyperparams()], [fixed] that of
    [get_fixed_hyperparams()], [dir] that of
    [utils.create_optimization_folder(folder)]. *)
Definition init (hps : list (string * Hyperparam)) (fixed : gmap string Q)
    (dir : string) (seed : Z) (parallel : bool) : Optimizer :=
  {| hyperparams := hps;
     fixed_hyperparams := fixed;
     folder := dir;
     optimization_logger := None;
     exe_path := None;
     checkpoint_path := None;
     progress_path := None;
     results_path := None;
     graphics_path := None;
     populations := [];
     logbook := None;
     mlopt_seed := Some seed;
     use_parallel := parallel |}.

(** The world after [BaseOptimizer(...)] in a host whose directories are
    [ds] and pickled files [ps]: [set_mlopt_seed] has seeded [random]. *)
Definition construct (hps : list (string * Hyperparam)) (fixed : gmap string Q)
    (dir : string) (seed : Z) (parallel : bool)
    (ds : gset string) (ps : gmap string Checkpoint) : World :=
  {| self := init hps fixed dir seed parallel;
     rng := seed_state seed;
     dirs := ds;
     pickles := ps;
     trace := [] |}.

(** [init_individual(pcls)]: one [randint] per hyperparameter, in key
    order. *)
Fixpoint init_individual_loop (hps : list (string * Hyperparam)) : M (list Z) :=
  match hps with
  | [] => ret []
  | (_, hp) :: hps' =>
      x <- randint (min_value hp) (max_value hp) ;;
      ps <- init_individual_loop hps' ;;
      ret (x :: ps)
  end.

Definition init_individual : M Individual :=
  o <- get_self ;;
  ps <- init_individual_loop (hyperparams o) ;;
  ret (mkInd ps None).

(** [tools.initRepeat(list, toolbox.individual, n)] *)
Fixpoint initRepeat (n : nat) : M (list Individual) :=
  match n with
  | O => ret []
  | S n' =>
      ind <- init_individual ;;
      rest <- initRepeat n' ;;
      ret (ind :: rest)
  end.

(** [individual2dict(individual)] *)
Fixpoint individual2dict_loop (keys : list (string * Hyperparam)) (individual : list Z)
    (individual_dict : gmap string Q) : res (gmap string Q) :=
  match keys with
  | [] => Ok individual_dict
  | (k, hp) :: keys' =>
      match individual with
      | [] => Raise IndexError
      | x :: individual' =>
          individual2dict_loop keys' individual' (<[k := correct hp x]> individual_dict)
      end
  end.

Definition individual2dict (o : Optimizer) (individual : list Z) : res (gmap string Q) :=
  match individual2dict_loop (hyperparams o) individual ∅ with
  | Ok individual_dict => Ok (fixed_hyperparams o ∪ individual_dict)
  | Raise e => Raise e
  end.

(** [population_2_df()] reads [i[1].values[0]] of every stored
    individual; the rows themselves are the stored populations. *)
Definition population_2_df (o : Optimizer) : res (list (list Individual)) :=
  if forallb (forallb valid) (populations o) then Ok (populations o)
  else Raise IndexError.

(** [_write_population_file()]: sorting a frame without rows by its
    [fitness] column raises [KeyError], and [to_csv] raises [OSError]
    when the folder of the file does not exist. *)
Definition write_population_file : M unit :=
  o <- get_self ;;
  filename <- lift (path_join (results_path o) "populations.csv") ;;
  df <- lift (population_2_df o) ;;
  if forallb (fun p => bool_decide (p = [])) df then raise KeyError
  else
    creates_in (results_path o) OSError ;;;
    emit (ECsv filename (PopulationsTable df)).

(** [_write_logbook_file()] *)
Definition write_logbook_file : M unit :=
  o <- get_self ;;
  filename <- lift (path_join (results_path o) "logbook.csv") ;;
  creates_in (results_path o) OSError ;;;
  emit (ECsv filename (LogbookTable (logbook o))).

Definition set_populations (o : Optimizer) (ps : list (list Individual)) : Optimizer :=
  {| hyperparams := hyperparams o; fixed_hyperparams := fixed_hyperparams o;
     folder := folder o; optimization_logger := optimization_logger o;
     exe_path := exe_path o; checkpoint_path := checkpoint_path o;
     progress_path := progress_path o; results_path := results_path o;
     graphics_path := graphics_path o; populations := ps; logbook := logbook o;
     mlopt_seed := mlopt_seed o; use_parallel := use_parallel o |}.

Definition set_logbook (o : Optimizer) (lb : option Logbook) : Optimizer :=
  {| hyperparams := hyperparams o; fixed_hyperparams := fixed_hyperparams o;
     folder := folder o; optimization_logger := optimization_logger o;
     exe_path := exe_path o; checkpoint_path := checkpoint_path o;
     progress_path := progress_path o; results_path := results_path o;
     graphics_path := graphics_path o; populations := populations o; logbook := lb;
     mlopt_seed := mlopt_seed o; use_parallel := use_parallel o |}.

Definition set_logger (o : Optimizer) (lg : string) : Optimizer :=
  {| hyperparams := hyperparams o; fixed_hyperparams := fixed_hyperparams o;
     folder := folder o; optimization_logger := Some lg;
     exe_path := exe_path o; checkpoint_path := checkpoint_path o;
     progress_path := progress_path o; results_path := results_path o;
     graphics_path := graphics_path o; populations := populations o;
     logbook := logbook o;
     mlopt_seed := mlopt_seed o; use_parallel := use_parallel o |}.

(** *** The generational loop *)

Definition progress_header : string := "i;total;Individual;fitness
".

(** The evaluation of a generation.  [invalid_ind] holds the objects of
    [population] whose fitness is not valid, so that assigning their
    fitness updates the population: the loop below walks the population
    and does the body of [for ind, fit in zip(invalid_ind, fitnesses)]
    at each of them, [c] counting from 1.  With the builtin [map] the
    fitness of an individual is computed when [zip] reaches it;
    [pool.map] has computed them all before the loop starts. *)
Fixpoint evaluate_loop (tb : Toolbox) (g : Z) (progress_gen_path : string)
    (evaluations_pending c : nat) (population : list Individual)
    : M (list Individual) :=
  match population with
  | [] => ret []
  | ind :: rest =>
      if valid ind then
        rest' <- evaluate_loop tb g progress_gen_path evaluations_pending c rest ;;
        ret (ind :: rest')
      else
        (if pool_map tb then ret tt else emit (EEvaluate (genome ind))) ;;;
        let fit := evaluate_clf (genome ind) in
        log INFO (MsgFitting g c evaluations_pending) ;;;
        o <- get_self ;;
        ind_formatted <- lift (individual2dict o (genome ind)) ;;
        emit (EAppend progress_gen_path c evaluations_pending ind_formatted fit) ;;;
        rest' <- evaluate_loop tb g progress_gen_path evaluations_pending (S c) rest ;;
        ret (set_fitness ind fit :: rest')
  end.

(** [toolbox.map(toolbox.evaluate, invalid_ind)] when [map] is
    [pool.map]. *)
Definition pool_evaluate (tb : Toolbox) (invalid_ind : list Individual) : M unit :=
  if pool_map tb then
    for_each (fun _ ind => emit (EEvaluate (genome ind))) invalid_ind tt
  else ret tt.

(** The four lines logged for each of [halloffame[:2]]. *)
Definition log_top (i : nat) (ind : Individual) : M unit :=
  log INFO (MsgTop (i + 1)) ;;;
  log INFO (MsgAccuracy (fitness ind)) ;;;
  log INFO (MsgBestClassifier (genome ind)) ;;;
  log INFO (MsgHyperparams (genome ind)).

Fixpoint log_tops (i : nat) (l : list Individual) : M unit :=
  match l with
  | [] => ret tt
  | ind :: l' => log_top i ind ;;; log_tops (S i) l'
  end.

(** The local variables of the loop. *)
Definition Locals : Type := list Individual * Logbook * option HallOfFame.

(** The body of [for gen in range(start_gen, ngen + 1)].  The [logbook]
    argument of [custom_ea_simple] is the object [self.logbook] (the call
    in [optimize_clf] passes it), so that a record added to it shows in
    [self.logbook], which [_write_logbook_file] exports. *)
Definition generation (tb : Toolbox) (cxpb mutpb : Q)
    (checkpoint_path : option string) (stats verbose checkpoint_flag : bool)
    (locals : Locals) (g : Z) : M Locals :=
  let '(population, logbook, halloffame) := locals in
  o <- get_self ;;
  progress_gen_path <-
    lift (path_join (progress_path o) ("Generation_" +:+ pretty g +:+ ".csv")) ;;
  creates_in (progress_path o) FileNotFoundError ;;;
  emit (EWrite progress_gen_path progress_header) ;;;
  log INFO (MsgGeneration g) ;;;
  population <- varAnd population tb cxpb mutpb ;;
  let invalid_ind := filter (fun ind => valid ind = false) population in
  pool_evaluate tb invalid_ind ;;;
  population <- evaluate_loop tb g progress_gen_path (length invalid_ind) 1 population ;;
  halloffame <- match halloffame with
                | None => raise AttributeError
                | Some h => lift (hof_update h population)
                end ;;
  record <- (if stats then s <- lift (stats_compile population) ;; ret (Some s)
             else ret None) ;;
  let logbook := logbook_record logbook
                   {| gen := g; nevals := length invalid_ind; stats_of := record |} in
  o <- get_self ;;
  put_self (set_logbook o (Some logbook)) ;;;
  (if verbose then log INFO (MsgStream logbook) else ret tt) ;;;
  population <- selTournament population (length population) (tournsize tb) ;;
  log_tops 0 (take 2 (items halloffame)) ;;;
  o <- get_self ;;
  put_self (set_populations o (populations o ++ [population])) ;;;
  (if checkpoint_flag then
     rndstate <- getstate ;;
     let cp := {| cp_population := population; cp_generation := g;
                  cp_halloffame := halloffame; cp_logbook := logbook;
                  cp_rndstate := rndstate |} in
     cp_file <- lift (path_join checkpoint_path ("cp_gen_" +:+ pretty g +:+ ".pkl")) ;;
     creates_in checkpoint_path FileNotFoundError ;;;
     dump cp cp_file
   else ret tt) ;;;
  write_population_file ;;;
  write_logbook_file ;;;
  ret (population, logbook, Some halloffame).

(** [os.path.isdir(checkpoint_path)] after the test for [None]. *)
Definition not_a_folder (checkpoint_path : option string) : M bool :=
  match checkpoint_path with
  | None => ret true
  | Some p => d <- isdir p ;; ret (negb d)
  end.

(** [custom_ea_simple(population, toolbox, logbook, cxpb, mutpb, start_gen,
    ngen, checkpoint_path, stats, halloffame, verbose, checkpoint_flag)] *)
Definition custom_ea_simple (population : list Individual) (tb : Toolbox)
    (logbook : Logbook) (cxpb mutpb : Q) (start_gen ngen : Z)
    (checkpoint_path : option string) (stats : bool)
    (halloffame : option HallOfFame) (verbose checkpoint_flag : bool) : M Locals :=
  bad <- (if checkpoint_flag then not_a_folder checkpoint_path else ret false) ;;
  if bad then
    log ERROR (MsgNotADirectory checkpoint_path) ;;;
    raise NotADirectoryError
  else
    for_each (generation tb cxpb mutpb checkpoint_path stats verbose checkpoint_flag)
             (seqZ start_gen (ngen + 1 - start_gen))
             (population, logbook, halloffame).

End BaseOptimizer.

(** ** [optimize_clf] *)

Section OptimizeClf.

Context {R : RNG}.
Variable evaluate_clf : list Z -> Q.
Variable correct : Hyperparam -> Z -> Q.

Definition set_paths (o : Optimizer) (exe cp progress results graphics : option string)
    : Optimizer :=
  {| hyperparams := hyperparams o; fixed_hyperparams := fixed_hyperparams o;
     folder := folder o; optimization_logger := optimization_logger o;
     exe_path := exe; checkpoint_path := cp; progress_path := progress;
     results_path := results; graphics_path := graphics;
     populations := populations o; logbook := logbook o;
     mlopt_seed := mlopt_seed o; use_parallel := use_parallel o |}.

(** [if self.use_parallel: try: import multiprocessing;
    pool = multiprocessing.Pool(); toolbox.register("map", pool.map)
    except ImportError as e: self.optimization_logger.warning(...)].
    [host_pool] is what the host answers to the two statements of the
    [try] block.  The result tells whether [map] is [pool.map]. *)
Definition register_map (host_pool : res unit) : M bool :=
  o <- get_self ;;
  if use_parallel o then
    match host_pool with
    | Ok _ => ret true
    | Raise ImportError => log WARNING MsgMultiprocessing ;;; ret false
    | Raise e => raise e
    end
  else ret false.

(** The branch [if checkpoint:] of [optimize_clf].  The logger returned
    by [utils.init_logger] is named by the file it was asked for. *)
Definition resume (checkpoint : string) : M (list Individual * Z * HallOfFame) :=
  o <- get_self ;;
  put_self (set_logger o (join checkpoint "opt.log")) ;;;
  cp <- load checkpoint ;;
  log INFO (MsgFromCheckpoint checkpoint) ;;;
  let pop := cp_population cp in
  let start_gen := cp_generation cp + 1 in
  let hof := cp_halloffame cp in
  o <- get_self ;;
  put_self (set_logbook o (Some (cp_logbook cp))) ;;;
  setstate (cp_rndstate cp) ;;;
  o <- get_self ;;
  let checkpoint_path := dirname checkpoint in
  put_self (set_paths o (exe_path o) (Some checkpoint_path) (progress_path o)
                        (Some (join checkpoint_path "results"))
                        (Some (join checkpoint_path "graphics"))) ;;;
  ret (pop, start_gen, hof).

(** [if checkpoint:] and [if exe_folder:] are true of a non-empty
    string. *)
Definition truthy (s : option string) : option string :=
  match s with
  | Some x => if bool_decide (x = "") then None else Some x
  | None => None
  end.

(** The [else:] branch: a fresh run.  [default_exe_name] is the name made
    of the date and of the class; [os.path.exists] looks at the
    directories. *)
Definition fresh_run (exe_folder : option string) (default_exe_name : string) : M unit :=
  o <- get_self ;;
  let lb := {| header := Some ["gen"; "nevals"; "avg"; "min"; "max"];
               chapters := chapters (default logbook_new (logbook o)) |} in
  put_self (set_logbook o (Some lb)) ;;;
  let exe_name := default default_exe_name (truthy exe_folder) in
  let exe := join (folder o) exe_name in
  o <- get_self ;;
  put_self (set_paths o (Some exe) (Some (join exe "checkpoints"))
                        (Some (join exe "progress")) (Some (join exe "results"))
                        (Some (join exe "graphics"))) ;;;
  exists_ <- isdir exe ;;
  (if exists_ then rmtree exe else ret tt) ;;;
  mkdir (folder o) exe_name ;;;
  mkdir exe "checkpoints" ;;;
  mkdir exe "results" ;;;
  mkdir exe "graphics" ;;;
  mkdir exe "progress" ;;;
  o <- get_self ;;
  put_self (set_logger o (join exe "opt.log")).

(** [optimize_clf(population, generations, checkpoint, exe_folder)] up to
    the assignment [fpop, self.logbook, hof = self.custom_ea_simple(...)];
    the statements that follow it report and export the result.  The
    messages sent to [mloptimizer_logger], which [__init__] creates, are
    left out.  [verbose] is [__debug__]. *)
Definition optimize_clf (population generations : Z)
    (checkpoint exe_folder : option string)
    (host_pool : res unit) (default_exe_name : string) : M Locals :=
  let start_gen := 0 in
  pool <- register_map host_pool ;;
  pop <- initRepeat (Z.to_nat population) ;;
  let hof := hof_new 10 in
  o <- get_self ;;
  put_self (set_logbook o (Some logbook_new)) ;;;
  state <- match truthy checkpoint with
           | Some checkpoint => resume checkpoint
           | None => fresh_run exe_folder default_exe_name ;;; ret (pop, start_gen, hof)
           end ;;
  let '(pop, start_gen, hof) := state in
  o <- get_self ;;
  let tb := {| pool_map := pool;
               low := map (fun kv => min_value kv.2) (hyperparams o);
               up := map (fun kv => max_value kv.2) (hyperparams o);
               indpb := 1 # 2;
               tournsize := 4 |} in
  r <- custom_ea_simple evaluate_clf correct pop tb (default logbook_new (logbook o))
         (1 # 2) (1 # 2) start_gen generations (checkpoint_path o) true (Some hof)
         true true ;;
  o <- get_self ;;
  put_self (set_logbook o (Some r.1.2)) ;;;
  ret r.

End OptimizeClf.

(** ** Search-space assembly: [get_hyperparams]

    Dictionaries are finite maps; the values of the default and custom
    dictionaries are [Hyperparam] objects of any kind [V], those of the
    fixed dictionary are of any kind [W].  Indexing a dictionary with a
    missing key raises [KeyError]. *)

Section SearchSpace.

Context {V W : Type}.

(** [d[k]] *)
Definition getitem (d : gmap string V) (k : string) : res V :=
  match d !! k with
  | Some v => Ok v
  | None => Raise KeyError
  end.

(** [for k in self.custom_fixed_hyperparams.keys():
       default_hyperparams.pop(k, None)] *)
Fixpoint pop_fixed (fixed_keys : list string) (default_hyperparams : gmap string V)
    : gmap string V :=
  match fixed_keys with
  | [] => default_hyperparams
  | k :: fixed_keys' => pop_fixed fixed_keys' (delete k default_hyperparams)
  end.

(** [for k in default_hyperparams.keys():
       if k in self.custom_hyperparams: hyperparams[k] = self.custom_hyperparams[k]
       else: hyperparams[k] = default_hyperparams[k]] *)
Fixpoint override_loop (ks : list string)
    (default_hyperparams custom_hyperparams hyperparams : gmap string V)
    : res (gmap string V) :=
  match ks with
  | [] => Ok hyperparams
  | k :: ks' =>
      match (if bool_decide (is_Some (custom_hyperparams !! k))
             then getitem custom_hyperparams k
             else getitem default_hyperparams k) with
      | Ok v => override_loop ks' default_hyperparams custom_hyperparams
                              (<[k := v]> hyperparams)
      | Raise e => Raise e
      end
  end.

(** [for k in additional_custom_hyperparams_keys:
       hyperparams[k] = self.custom_hyperparams[k]] *)
Fixpoint additional_loop (ks : list string)
    (custom_hyperparams hyperparams : gmap string V) : res (gmap string V) :=
  match ks with
  | [] => Ok hyperparams
  | k :: ks' =>
      match getitem custom_hyperparams k with
      | Ok v => additional_loop ks' custom_hyperparams (<[k := v]> hyperparams)
      | Raise e => Raise e
      end
  end.

(** [get_hyperparams()], given the result of [get_default_hyperparams()]
    (a new dictionary at every call) and the two custom dictionaries. *)
Definition get_hyperparams (get_default_hyperparams custom_hyperparams : gmap string V)
    (custom_fixed_hyperparams : gmap string W) : res (gmap string V) :=
  let default_hyperparams_keys : gset string := dom get_default_hyperparams in
  let custom_hyperparams_keys : gset string := dom custom_hyperparams in
  let custom_fixed_hyperparams_keys : gset string := dom custom_fixed_hyperparams in
  let additional_custom_hyperparams_keys :=
    custom_hyperparams_keys ∖ (default_hyperparams_keys ∪ custom_fixed_hyperparams_keys) in
  let default_hyperparams :=
    pop_fixed (map fst (map_to_list custom_fixed_hyperparams)) get_default_hyperparams in
  match override_loop (map fst (map_to_list default_hyperparams))
                      default_hyperparams custom_hyperparams ∅ with
  | Ok hyperparams =>
      additional_loop (elements additional_custom_hyperparams_keys)
                      custom_hyperparams hyperparams
  | Raise e => Raise e
  end.

End SearchSpace.

(** ** Vocabulary of the properties *)

Section Vocabulary.

Context {R : RNG}.

(** The genomes handed to [toolbox.evaluate], the records pickled, and
    the generations started, in the order of a trace. *)
Definition evaluations (tr : list Event) : list (list Z) :=
  omap (fun e => match e with EEvaluate g => Some g | _ => None end) tr.

Definition dumps (tr : list Event) : list (string * Checkpoint) :=
  omap (fun e => match e with EDump p cp => Some (p, cp) | _ => None end) tr.

Definition generations_started (tr : list Event) : list Z :=
  omap (fun e => match e with
                 | ELog _ INFO (MsgGeneration g) => Some g
                 | _ => None
                 end) tr.

(** The events that touch the files of a run: everything but log lines. *)
Definition is_file_event (e : Event) : bool :=
  match e with
  | ELog _ _ _ | EEvaluate _ => false
  | _ => true
  end.

Definition file_events (tr : list Event) : list Event :=
  filter (fun e => is_file_event e = true) tr.

(** A world differs from another one by the state of the random stream
    only. *)
Definition only_rng (w w' : World) : Prop :=
  self w' = self w /\ dirs w' = dirs w /\ pickles w' = pickles w /\ trace w' = trace w.

(** [m] returns normally from [w], with a result and a final world that
    satisfy [Q]. *)
Definition returns {A} (m : M A) (w : World) (Q : A -> World -> Prop) : Prop :=
  exists a w', m w = (Ok a, w') /\ Q a w'.

(** The mutation that the specification describes: every gene of every
    individual has its own test against [mutpb], and is drawn again
    within its bounds when the test succeeds. *)
Fixpoint spec_mutation (tb : Toolbox) (mutpb : Q) (offspring : list Individual)
    : M (list (list Z)) :=
  match offspring with
  | [] => ret []
  | a :: rest =>
      g <- mutUniformInt_loop (genome a) (low tb) (up tb) mutpb ;;
      rest' <- spec_mutation tb mutpb rest ;;
      ret (g :: rest')
  end.

End Vocabulary.

(** The greatest fitness of a list of individuals; the empty tuple is
    below every fitness. *)
Definition fit_max (a b : option Q) : option Q := if fit_le a b then b else a.

Definition max_fitness (l : list Individual) : option Q :=
  foldr (fun ind acc => fit_max acc (fitness ind)) None l.

(** Worst first, as [HallOfFame.keys] is kept. *)
Definition ascending (ks : list (option Q)) : Prop :=
  StronglySorted (fun a b => fit_le a b = true) ks.

(** Best first. *)
Definition ranked (l : list Individual) : Prop :=
  StronglySorted (fun a b => fit_le (fitness b) (fitness a) = true) l.

(** The invariant of a hall of fame. *)
Record hof_inv (h : HallOfFame) : Prop := mkHofInv {
  hof_keys : keys h = reverse (fitness <$> items h);
  hof_bounded : (length (items h) <= maxsize h)%nat;
  hof_nodup : NoDup (genome <$> items h);
  hof_ranked : ranked (items h)
}.

(** [l'] dominates [l]: every fitness of [l] is matched or beaten in [l']. *)
Definition dominates (l l' : list Individual) : Prop :=
  forall a, a ∈ l -> exists b, b ∈ l' /\ fit_le (fitness a) (fitness b) = true.

(** ** Vocabulary of the loop properties *)

Section LoopVocabulary.

Context {R : RNG}.
Variable evaluate_clf : list Z -> Q.

Definition with_rng (w : World) (s : rstate) : World :=
  {| self := self w; rng := s; dirs := dirs w; pickles := pickles w; trace := trace w |}.

Definition with_trace (w : World) (evs : list Event) : World :=
  {| self := self w; rng := rng w; dirs := dirs w; pickles := pickles w;
     trace := trace w ++ evs |}.

Definition with_self (w : World) (o : Optimizer) : World :=
  {| self := o; rng := rng w; dirs := dirs w; pickles := pickles w; trace := trace w |}.

(** Events that are neither a pickled record nor the start of a
    generation nor an evaluation. *)
Definition quiet (evs : list Event) : Prop :=
  evaluations evs = [] /\ dumps evs = [] /\ generations_started evs = [].

(** The population once its individuals without valid fitness have been
    evaluated. *)
Definition evaluated (population : list Individual) : list Individual :=
  (fun ind => if valid ind then ind else set_fitness ind (evaluate_clf (genome ind)))
    <$> population.

(** The individuals that [toolbox.evaluate] is mapped on. *)
Definition invalid_ind (population : list Individual) : list Individual :=
  filter (fun ind => valid ind = false) population.

(** Every genome has [n] genes. *)
Definition genomes (n : nat) (population : list Individual) : Prop :=
  Forall (fun ind => length (genome ind) = n) population.

(** What variation may do to an individual: leave it as it is, or leave
    it without fitness values. *)
Definition varied (population offspring : list Individual) : Prop :=
  Forall2 (fun a a' => a' = a \/ fitness a' = None) population offspring.

(** The toolbox fits genomes of [n] genes: there is room for two
    crossover points, every gene has bounds, and tournaments have at
    least one aspirant. *)
Record fit_toolbox (n : nat) (tb : Toolbox) : Prop := mkFitToolbox {
  fit_genes : (2 <= n)%nat;
  fit_low : (n <= length (low tb))%nat;
  fit_bounds : Forall2 Z.le (low tb) (up tb);
  fit_tournsize : (0 < tournsize tb)%nat
}.

(** The optimizer is set up for the loop, as [optimize_clf] leaves it in
    a fresh run: the logger and the progress and results folders are set,
    there are no more hyperparameters than genes, and the populations
    recorded so far have been evaluated. *)
Record ready (n : nat) (o : Optimizer) : Prop := mkReady {
  ready_logger : is_Some (optimization_logger o);
  ready_progress : is_Some (progress_path o);
  ready_results : is_Some (results_path o);
  ready_keys : (length (hyperparams o) <= n)%nat;
  ready_populations : Forall (Forall (fun ind => valid ind = true)) (populations o)
}.

End LoopVocabulary.

(** [m] returns normally from [w] with a result that satisfies [P], and
    it only draws from the random stream. *)
Definition draws {R : RNG} {A} (m : M A) (w : World) (P : A -> Prop) : Prop :=
  returns m w (fun a w' => (exists s, w' = with_rng w s) /\ P a).

(** [g1'] and [g2'] are [g1] and [g2] with the genes of the positions
    [a], ..., [b - 1] exchanged, for two points [1 <= a < b] within both
    genomes. *)
Definition two_point (g1 g2 g1' g2' : list Z) : Prop :=
  exists a b : nat,
    (1 <= a < b)%nat /\ (b <= Nat.min (length g1) (length g2))%nat /\
    g1' = (take a g1 ++ take (b - a) (drop a g2) ++ drop b g1)%list /\
    g2' = (take a g2 ++ take (b - a) (drop a g1) ++ drop b g2)%list.

(** [g'] is [g] with some genes drawn again, each within the bounds of
    its own position. *)
Definition redrawn (low up g g' : list Z) : Prop :=
  length g' = length g /\
  forall i x', g' !! i = Some x' ->
    g !! i = Some x' \/
    exists lo hi, low !! i = Some lo /\ up !! i = Some hi /\ lo <= x' <= hi.

(** The outcome of the crossover loop: consecutive pairs, each either
    kept or replaced by its two-point crossover, without fitness. *)
Inductive crossed : list Individual -> list Individual -> Prop :=
  | crossed_nil : crossed [] []
  | crossed_one a : crossed [a] [a]
  | crossed_keep a b l l' :
      crossed l l' -> crossed (a :: b :: l) (a :: b :: l')
  | crossed_mate a b g1 g2 l l' :
      two_point (genome a) (genome b) g1 g2 -> crossed l l' ->
      crossed (a :: b :: l) (mkInd g1 None :: mkInd g2 None :: l').

(** The outcome of the mutation loop: each individual either kept or
    replaced by a mutant without fitness. *)
Definition mutated (tb : Toolbox) (l l' : list Individual) : Prop :=
  Forall2 (fun a a' =>
             a' = a \/ (fitness a' = None /\ redrawn (low tb) (up tb) (genome a) (genome a')))
          l l'.

Section Outcome.

Context {R : RNG}.
Variable evaluate_clf : list Z -> Q.

(** The file of the checkpoint of generation [g]. *)
Definition cp_file (checkpoint_path : string) (g : Z) : string :=
  join checkpoint_path ("cp_gen_" +:+ pretty g +:+ ".pkl").

(** The world after [joblib.dump(cp, path)]. *)
Definition dumped (w : World) (path : string) (cp : Checkpoint) : World :=
  {| self := self w; rng := rng w; dirs := dirs w;
     pickles := <[path := cp]> (pickles w);
     trace := trace w ++ [EDump path cp] |}.

(** Two states of the optimizer with the same configuration: only the
    recorded populations and the logbook may differ. *)
Definition same_setup (o o' : Optimizer) : Prop :=
  hyperparams o' = hyperparams o /\ fixed_hyperparams o' = fixed_hyperparams o /\
  folder o' = folder o /\ optimization_logger o' = optimization_logger o /\
  exe_path o' = exe_path o /\ checkpoint_path o' = checkpoint_path o /\
  progress_path o' = progress_path o /\ results_path o' = results_path o /\
  graphics_path o' = graphics_path o /\ use_parallel o' = use_parallel o.

(** What the records pickled in a generation are. *)
Definition generation_dumps (checkpoint_path : option string) (checkpoint_flag : bool)
    (cp : Checkpoint) : list (string * Checkpoint) :=
  if checkpoint_flag then
    match checkpoint_path with
    | Some p => [(cp_file p (cp_generation cp), cp)]
    | None => []
    end
  else [].

(** What one turn of the loop does, from the locals
    [(population, lb, Some h)] and the world [w], for generation [g],
    when variation has produced [offspring]. *)
Definition generation_outcome_of (tb : Toolbox) (checkpoint_path : option string)
    (checkpoint_flag : bool) (population : list Individual) (lb : Logbook)
    (h : HallOfFame) (g : Z) (w : World) (offspring : list Individual)
    (r : Locals) (w' : World) : Prop :=
  exists sel rec h' evs,
    (exists l, crossed population l /\ mutated tb l offspring) /\
    varied population offspring /\
    r = (sel, logbook_record lb rec, Some h') /\
    gen rec = g /\
    nevals rec = length (invalid_ind offspring) /\
    hof_update h (evaluated evaluate_clf offspring) = Ok h' /\
    length sel = length population /\
    Forall (fun ind => ind ∈ evaluated evaluate_clf offspring) sel /\
    trace w' = trace w ++ evs /\
    evaluations evs = genome <$> invalid_ind offspring /\
    generations_started evs = [g] /\
    dumps evs = generation_dumps checkpoint_path checkpoint_flag
                  {| cp_population := sel; cp_generation := g; cp_halloffame := h';
                     cp_logbook := logbook_record lb rec; cp_rndstate := rng w' |} /\
    populations (self w') = populations (self w) ++ [sel] /\
    logbook (self w') = Some (logbook_record lb rec) /\
    same_setup (self w) (self w') /\
    dirs w' = dirs w.

Definition generation_outcome (tb : Toolbox) (checkpoint_path : option string)
    (checkpoint_flag : bool) (population : list Individual) (lb : Logbook)
    (h : HallOfFame) (g : Z) (w : World) (r : Locals) (w' : World) : Prop :=
  exists offspring,
    generation_outcome_of tb checkpoint_path checkpoint_flag population lb h g w
      offspring r w'.

End Outcome.

Section RunOutcome.

Context {R : RNG}.
Variable evaluate_clf : list Z -> Q.

(** What the loop does over the generations [gens], one turn after the
    other. *)
Fixpoint run_outcome (tb : Toolbox) (checkpoint_path : option string)
    (checkpoint_flag : bool) (gens : list Z) (population : list Individual)
    (lb : Logbook) (h : HallOfFame) (w : World) (r : Locals) (w' : World) : Prop :=
  match gens with
  | [] => r = (population, lb, Some h) /\ w' = w
  | g :: gens' =>
      exists population1 lb1 h1 w1,
        generation_outcome evaluate_clf tb checkpoint_path checkpoint_flag
          population lb h g w (population1, lb1, Some h1) w1 /\
        run_outcome tb checkpoint_path checkpoint_flag gens' population1 lb1 h1 w1 r w'
  end.

End RunOutcome.

(** The folders of the progress files and of the exported tables exist. *)
Definition folders_exist {R : RNG} (w : World) : Prop :=
  forall d, progress_path (self w) = Some d \/ results_path (self w) = Some d ->
            d ∈ dirs w.

(** What the loop needs to run: a toolbox that fits the genomes, an
    optimizer set up for the run, a population that is not empty, a hall
    of fame that satisfies its invariant and has room, existing folders
    for the progress files and the exported tables and, when checkpoints
    are asked for, a folder to write them to. *)
Record loop_ready {R : RNG} (n : nat) (tb : Toolbox) (population : list Individual)
    (h : HallOfFame) (checkpoint_path : option string) (checkpoint_flag : bool)
    (w : World) : Prop := mkLoopReady {
  lr_toolbox : fit_toolbox n tb;
  lr_optimizer : ready n (self w);
  lr_genomes : genomes n population;
  lr_population : population <> [];
  lr_hof : hof_inv h;
  lr_maxsize : (0 < maxsize h)%nat;
  lr_folders : folders_exist w;
  lr_checkpoint : checkpoint_flag = true ->
                  exists p, checkpoint_path = Some p /\ p ∈ dirs w
}.

(** *** A small run: two dimensions bounded by [1, 10] and [1, 5], and
    the sum of the genes as score. *)

Definition example_hyperparams : list (string * Hyperparam) :=
  [("max_depth", mkHyperparam 1 10); ("min_samples_split", mkHyperparam 1 5)].

Definition example_evaluate (g : list Z) : Q := inject_Z (foldr Z.add 0 g).

Definition example_correct (hp : Hyperparam) (x : Z) : Q := inject_Z x.

Definition example_toolbox : Toolbox :=
  {| pool_map := false; low := [1; 1]; up := [10; 5]; indpb := 1 # 2; tournsize := 4 |}.

(** The optimizer as the fresh-run branch of [optimize_clf] leaves it. *)
Definition example_optimizer : Optimizer :=
  {| hyperparams := example_hyperparams;
     fixed_hyperparams := ∅;
     folder := "out";
     optimization_logger := Some "out/run/opt.log";
     exe_path := Some "out/run";
     checkpoint_path := Some "out/run/checkpoints";
     progress_path := Some "out/run/progress";
     results_path := Some "out/run/results";
     graphics_path := Some "out/run/graphics";
     populations := [];
     logbook := Some {| header := Some ["gen"; "nevals"; "avg"; "min"; "max"];
                        chapters := [] |};
     mlopt_seed := Some 0;
     use_parallel := false |}.

Definition example_world (tape : list Z) : @World TapeRNG :=
  {| self := example_optimizer;
     rng := (tape : @rstate TapeRNG);
     dirs := {[ "out"; "out/run"; "out/run/checkpoints"; "out/run/progress";
                "out/run/results"; "out/run/graphics" ]};
     pickles := ∅;
     trace := [] |}.

Definition example_population : list Individual :=
  [mkInd [4; 3] None; mkInd [3; 3] None].

Definition example_tape : list Z :=
  [600; 100; 1; 2; 700; 600; 0; 1; 0; 1; 0; 0; 0; 0; 0; 0; 0; 1; 600; 600; 600;
   1; 1; 1; 1; 0; 0; 0; 0].

(** A population whose first individual has been evaluated, and a
    stream on which every test of [varAnd] fails. *)
Definition example_mixed_population : list Individual :=
  [mkInd [4; 3] (Some (7 # 1)); mkInd [3; 3] None].

Definition example_quiet_tape : list Z := [600; 600; 600; 0; 1; 0; 1; 0; 1; 0; 1].

(** *** A checkpoint of the small run, and a new optimizer in a host
    that holds it. *)

Definition example_checkpoint_file : string := "out/run/checkpoints/cp_gen_0.pkl".

Definition example_checkpoint : @Checkpoint TapeRNG :=
  {| cp_population := [mkInd [3; 3] (Some (6 # 1)); mkInd [3; 3] (Some (6 # 1))];
     cp_generation := 0;
     cp_halloffame := {| maxsize := 10; keys := [Some (6 # 1)];
                         items := [mkInd [3; 3] (Some (6 # 1))] |};
     cp_logbook := {| header := Some ["gen"; "nevals"; "avg"; "min"; "max"];
                      chapters := [{| gen := 0; nevals := 2;
                                      stats_of := Some {| stat_avg := 12 # 2;
                                                          stat_min := 6 # 1;
                                                          stat_max := 6 # 1 |} |}] |};
     cp_rndstate := ([0; 0; 0; 1; 600; 600; 600; 1; 1; 1; 1] : @rstate TapeRNG) |}.

Definition example_dirs : gset string :=
  {[ "out"; "out/run"; "out/run/checkpoints"; "out/run/progress";
     "out/run/results"; "out/run/graphics" ]}.

Definition example_pickles : gmap string (@Checkpoint TapeRNG) :=
  {[ example_checkpoint_file := example_checkpoint ]}.

(** *** Fair coins

    With [mutpb = indpb = 1/2] a test [random.random() < 1/2] is a fair
    coin.  The tapes below give the first two draws of [random()] every
    combination of a value below [1/2] and a value not below it, and
    [0] to a following [randint]; each stands for a quarter of the
    cases. *)
Definition coin_tapes : list (list Z) :=
  [[0; 0; 0]; [0; 500; 0]; [500; 0; 0]; [500; 500; 0]].

Definition one_gene_toolbox : Toolbox :=
  {| pool_map := false; low := [1]; up := [10]; indpb := 1 # 2; tournsize := 4 |}.

(** Whether the gene of the individual [[5]] comes out changed. *)
Definition gene_changed (r : res (list (list Z))) : bool :=
  match r with
  | Ok [g] => negb (bool_decide (g = [5]))
  | _ => false
  end.

Definition code_changes_gene (tape : list Z) : bool :=
  gene_changed
    match (varAnd_mutate (R := TapeRNG) one_gene_toolbox (1 # 2) [mkInd [5] None]
             (example_world tape)).1 with
    | Ok l => Ok (genome <$> l)
    | Raise e => Raise e
    end.

Definition spec_changes_gene (tape : list Z) : bool :=
  gene_changed
    (spec_mutation (R := TapeRNG) one_gene_toolbox (1 # 2) [mkInd [5] None]
       (example_world tape)).1.

(** A new optimizer in a host that only holds the folder [out], with
    draws for the initial population ahead of those of the small run. *)
Definition example_new_world : @World TapeRNG :=
  with_rng (construct (R := TapeRNG) example_hyperparams ∅ "out" 0 false {[ "out" ]} ∅)
           (3 :: 7 :: 2 :: 2 :: example_tape : @rstate TapeRNG).

(** ** Computations that only draw, as trees of draws

    A computation that does nothing but draw from the random stream is
    a tree: it is done, or it asks for the next [random.random()] or for
    the next [_randbelow(n)] and goes on with the answer.  [sample] runs
    a tree on a stream.  The operators of variation are given below as
    trees, and shown further down to be the computations above for every
    generator. *)

Inductive Sampler (A : Type) : Type :=
  | Done (r : res A)
  | Random (k : Q -> Sampler A)
  | Below (n : Z) (k : Z -> Sampler A).
Arguments Done {A} r.
Arguments Random {A} k.
Arguments Below {A} n k.

Fixpoint sample {R : RNG} {A} (t : Sampler A) (s : rstate) : res A * rstate :=
  match t with
  | Done r => (r, s)
  | Random k => let (u, s') := next_random s in sample (k u) s'
  | Below n k => let (x, s') := next_below n s in sample (k x) s'
  end.

Fixpoint s_bind {A B} (t : Sampler A) (f : A -> Sampler B) : Sampler B :=
  match t with
  | Done (Ok a) => f a
  | Done (Raise e) => Done (Raise e)
  | Random k => Random (fun u => s_bind (k u) f)
  | Below n k => Below n (fun x => s_bind (k x) f)
  end.

Definition s_ret {A} (a : A) : Sampler A := Done (Ok a).

Definition s_random : Sampler Q := Random (fun u => Done (Ok u)).

Definition s_randint (a b : Z) : Sampler Z :=
  if decide (0 < b + 1 - a) then Below (b + 1 - a) (fun x => Done (Ok (a + x)))
  else Done (Raise ValueError).

Declare Scope sampler_scope.
Delimit Scope sampler_scope with sampler.
Notation "x <~ t ;; k" := (s_bind t (fun x => k))
  (at level 100, t at next level, right associativity) : sampler_scope.

(** The computation [m] is the tree [t]: from every world it returns
    what [t] gives on the random stream of that world and changes
    nothing but the stream. *)
Definition follows {R : RNG} {A} (m : M A) (t : Sampler A) : Prop :=
  forall w, m w = ((sample t (rng w)).1, with_rng w (sample t (rng w)).2).

Definition cxTwoPoint_sampler (ind1 ind2 : list Z) : Sampler (list Z * list Z) :=
  (let size := Z.of_nat (Nat.min (length ind1) (length ind2)) in
   cxpoint1 <~ s_randint 1 size ;;
   cxpoint2 <~ s_randint 1 (size - 1) ;;
   let points :=
     if decide (cxpoint1 <= cxpoint2) then (cxpoint1, cxpoint2 + 1)
     else (cxpoint2, cxpoint1) in
   let a := Z.to_nat points.1 in
   let b := Z.to_nat points.2 in
   s_ret (slice_assign ind1 a b (slice ind2 a b),
          slice_assign ind2 a b (slice ind1 a b)))%sampler.

Fixpoint mutUniformInt_loop_sampler (individual low up : list Z) (indpb : Q)
    : Sampler (list Z) :=
  match individual, low, up with
  | x :: individual', xl :: low', xu :: up' =>
      (u <~ s_random ;;
       x' <~ (if Qltb u indpb then s_randint xl xu else s_ret x) ;;
       rest <~ mutUniformInt_loop_sampler individual' low' up' indpb ;;
       s_ret (x' :: rest))%sampler
  | _, _, _ => s_ret individual
  end.

Definition mutUniformInt_sampler (individual low up : list Z) (indpb : Q)
    : Sampler (list Z) :=
  if decide (length low < length individual)%nat then Done (Raise IndexError)
  else if decide (length up < length individual)%nat then Done (Raise IndexError)
  else mutUniformInt_loop_sampler individual low up indpb.

Fixpoint varAnd_mate_sampler (cxpb : Q) (offspring : list Individual)
    : Sampler (list Individual) :=
  match offspring with
  | a :: b :: rest =>
      (u <~ s_random ;;
       ab <~ (if Qltb u cxpb then
                g <~ cxTwoPoint_sampler (genome a) (genome b) ;;
                s_ret (mkInd g.1 None, mkInd g.2 None)
              else s_ret (a, b)) ;;
       rest' <~ varAnd_mate_sampler cxpb rest ;;
       s_ret (ab.1 :: ab.2 :: rest'))%sampler
  | _ => s_ret offspring
  end.

Fixpoint varAnd_mutate_sampler (tb : Toolbox) (mutpb : Q) (offspring : list Individual)
    : Sampler (list Individual) :=
  match offspring with
  | [] => s_ret []
  | a :: rest =>
      (u <~ s_random ;;
       a' <~ (if Qltb u mutpb then
                g <~ mutUniformInt_sampler (genome a) (low tb) (up tb) (indpb tb) ;;
                s_ret (mkInd g None)
              else s_ret a) ;;
       rest' <~ varAnd_mutate_sampler tb mutpb rest ;;
       s_ret (a' :: rest'))%sampler
  end.

Definition varAnd_sampler (population : list Individual) (tb : Toolbox) (cxpb mutpb : Q)
    : Sampler (list Individual) :=
  (offspring <~ varAnd_mate_sampler cxpb population ;;
   varAnd_mutate_sampler tb mutpb offspring)%sampler.

(** ** Probabilities

    [random.random()] is uniform on the [N] multiples of [1/N] in
    [[0, 1)] ([N] is [2^53] for Python's floats), [_randbelow(n)] is
    uniform on [0, ..., n - 1], and the draws are independent: the
    expectation of [f] on the result of a tree averages over the answers
    to every draw. *)

Definition Qsum {A} (F : A -> Q) (l : list A) : Q :=
  foldr (fun x acc => (F x + acc)%Q) 0%Q l.

Fixpoint Ex {A} (N : positive) (t : Sampler A) (f : res A -> Q) : Q :=
  match t with
  | Done r => f r
  | Random k =>
      (Qsum (fun i => Ex N (k (i # N)) f) (seqZ 0 (Z.pos N)) / inject_Z (Z.pos N))%Q
  | Below n k => (Qsum (fun x => Ex N (k x) f) (seqZ 0 n) / inject_Z n)%Q
  end.

(** [1] when [P] holds and [0] otherwise. *)
Definition ind01 (P : Prop) `{Decision P} : Q := if decide P then 1%Q else 0%Q.

#[local] Instance Q_eq_dec : EqDecision Q.
Proof. solve_decision. Defined.

#[local] Instance Individual_eq_dec : EqDecision Individual.
Proof. solve_decision. Defined.

(** The probability that a tree returns [a] is [Ex N t (is_ok a)]. *)
Definition is_ok {A} `{EqDecision A} (a : A) (r : res A) : Q :=
  match r with
  | Ok x => ind01 (a = x)
  | Raise _ => 0%Q
  end.

(** The rate [p] is a probability that the draws can realise: a multiple
    of [1/N] between [0] and [1]. *)
Definition on_grid (N : positive) (p : Q) : Prop :=
  exists a : Z, 0 <= a <= Z.pos N /\ (p == a # N)%Q.

(** The probability that one gene [x] with bounds [lo], [hi] comes out of
    [mutUniformInt] as [x']: it is kept with probability [1 - p], and
    with probability [p] it is drawn uniformly among the
    [hi - lo + 1] values of [[lo, hi]]. *)
Definition gene_weight (p : Q) (lo hi x x' : Z) : Q :=
  ((1 - p) * ind01 (x' = x)
   + p * (ind01 (lo <= x' <= hi)%Z / inject_Z (hi - lo + 1)))%Q.

(** The genes of a genome are treated independently: the probabilities
    multiply.  Genes beyond the bounds given are kept. *)
Fixpoint genome_weight (p : Q) (g low up g' : list Z) : Q :=
  match g, low, up with
  | x :: g0, lo :: low0, hi :: up0 =>
      match g' with
      | x' :: g0' => (gene_weight p lo hi x x' * genome_weight p g0 low0 up0 g0')%Q
      | [] => 0%Q
      end
  | _, _, _ => ind01 (g' = g)
  end.

(** The probability that [toolbox.mutate] turns the genome [g] into
    [g']; it raises when bounds are missing. *)
Definition mutate_weight (tb : Toolbox) (g g' : list Z) : Q :=
  if decide (length (low tb) < length g)%nat then 0%Q
  else if decide (length (up tb) < length g)%nat then 0%Q
  else genome_weight (indpb tb) g (low tb) (up tb) g'.

(** The probability that the mutation loop of [varAnd] turns the
    individual [a] into [a']: with probability [1 - mutpb] it is left as
    it is, and with probability [mutpb] it is mutated and loses its
    fitness. *)
Definition individual_weight (tb : Toolbox) (mutpb : Q) (a a' : Individual) : Q :=
  ((1 - mutpb) * ind01 (a' = a)
   + mutpb * (ind01 (fitness a' = None) * mutate_weight tb (genome a) (genome a')))%Q.

(** The individuals are treated independently. *)
Fixpoint mutation_weight (tb : Toolbox) (mutpb : Q) (l l' : list Individual) : Q :=
  match l, l' with
  | [], [] => 1%Q
  | a :: l0, a' :: l0' => (individual_weight tb mutpb a a' * mutation_weight tb mutpb l0 l0')%Q
  | _, _ => 0%Q
  end.

(** The probability that the crossover loop of [varAnd] turns the pair
    [a], [b] into [a'], [b']: with probability [1 - cxpb] the pair is left
    as it is, and with probability [cxpb] it is replaced by what
    [cxTwoPoint] makes of the two genomes, without fitness. *)
Definition pair_weight (N : positive) (cxpb : Q) (a b a' b' : Individual) : Q :=
  ((1 - cxpb) * ind01 (a' = a /\ b' = b)
   + cxpb * (ind01 (fitness a' = None /\ fitness b' = None)
             * Ex N (cxTwoPoint_sampler (genome a) (genome b))
                    (is_ok (genome a', genome b'))))%Q.

(** The consecutive pairs are treated independently; an individual
    left over at the end is kept. *)
Fixpoint crossover_weight (N : positive) (cxpb : Q) (l l' : list Individual) : Q :=
  match l with
  | a :: b :: l0 =>
      match l' with
      | a' :: b' :: l0' => (pair_weight N cxpb a b a' b' * crossover_weight N cxpb l0 l0')%Q
      | _ => 0%Q
      end
  | _ => ind01 (l' = l)
  end.

(** ** Classes ([get_subclasses])

    A class is given with the list that its [__subclasses__()] returns,
    each of them given in the same way: a class that inherits from two
    classes stands below both. *)

#[local] Set Warnings "-register-all".











(** * Properties *)

#[local] Set Warnings "-clear-no-such-hyp".

(** ** Paths and the hall of fame on examples *)

Example dirname_nested : dirname "run/checkpoints/cp_gen_3.pkl" = "run/checkpoints".
Proof. reflexivity. Qed.
Example dirname_bare : dirname "cp_gen_3.pkl" = "".
Proof. reflexivity. Qed.
Example dirname_root : dirname "//cp" = "//".
Proof. reflexivity. Qed.
Example join_plain : join "run" "results" = "run/results".
Proof. reflexivity. Qed.
Example join_empty : join "" "results" = "results".
Proof. reflexivity. Qed.
Example join_absolute : join "run" "/tmp/results" = "/tmp/results".
Proof. reflexivity. Qed.
Example join_trailing : join "run/" "results" = "run/results".
Proof. reflexivity. Qed.

Example hof_update_example :
  hof_update (hof_new 2)
    [mkInd [1; 1] (Some (2 # 1)); mkInd [3; 1] (Some (4 # 1));
     mkInd [1; 1] (Some (2 # 1)); mkInd [2; 5] (Some (7 # 1))]
  = Ok {| maxsize := 2;
          keys := [Some (4 # 1); Some (7 # 1)];
          items := [mkInd [2; 5] (Some (7 # 1)); mkInd [3; 1] (Some (4 # 1))] |}.
Proof. reflexivity. Qed.

(** ** Search-space assembly *)


Section SearchSpaceFacts.

Context {V W : Type}.
Implicit Types d c hp : gmap string V.

Lemma pop_fixed_lookup ks d k :
  pop_fixed ks d !! k = if decide (k ∈ ks) then None else d !! k.
Proof.
  revert d. induction ks as [|k0 ks IH]; intros d; simpl.
  - done.
  - rewrite IH. destruct (decide (k = k0)) as [->|Hne].
    + rewrite lookup_delete_eq. repeat destruct (decide _); try done; set_solver.
    + rewrite lookup_delete_ne by done.
      repeat destruct (decide _); try done; set_solver.
Qed.

Lemma override_loop_ok ks d c hp :
  Forall (fun k => is_Some (d !! k)) ks ->
  exists m, override_loop ks d c hp = Ok m /\
    forall k, m !! k =
      if decide (k ∈ ks) then
        match c !! k with Some v => Some v | None => d !! k end
      else hp !! k.
Proof.
  revert hp. induction ks as [|k0 ks IH]; intros hp Hks; simpl.
  - exists hp. split; [done|]. intros k. repeat destruct (decide _); try done; set_solver.
  - apply Forall_cons in Hks as [[v0 Hv0] Hks].
    unfold getitem. rewrite Hv0.
    destruct (c !! k0) as [v1|] eqn:Hc.
    + rewrite bool_decide_eq_true_2 by eauto.
      destruct (IH (<[k0 := v1]> hp) Hks) as (m & -> & Hm).
      exists m. split; [done|]. intros k. rewrite Hm.
      destruct (decide (k = k0)) as [->|Hne].
      * rewrite lookup_insert_eq, Hc. repeat destruct (decide _); try done; set_solver.
      * rewrite lookup_insert_ne by done. repeat destruct (decide _); try done; set_solver.
    + rewrite bool_decide_eq_false_2 by (intros [? ?]; done).
      destruct (IH (<[k0 := v0]> hp) Hks) as (m & -> & Hm).
      exists m. split; [done|]. intros k. rewrite Hm.
      destruct (decide (k = k0)) as [->|Hne].
      * rewrite lookup_insert_eq, Hc. repeat destruct (decide _); try done; set_solver.
      * rewrite lookup_insert_ne by done. repeat destruct (decide _); try done; set_solver.
Qed.

Lemma additional_loop_ok ks c hp :
  Forall (fun k => is_Some (c !! k)) ks ->
  exists m, additional_loop ks c hp = Ok m /\
    forall k, m !! k = if decide (k ∈ ks) then c !! k else hp !! k.
Proof.
  revert hp. induction ks as [|k0 ks IH]; intros hp Hks; simpl.
  - exists hp. split; [done|]. intros k. repeat destruct (decide _); try done; set_solver.
  - apply Forall_cons in Hks as [[v0 Hv0] Hks].
    unfold getitem. rewrite Hv0.
    destruct (IH (<[k0 := v0]> hp) Hks) as (m & -> & Hm).
    exists m. split; [done|]. intros k. rewrite Hm.
    destruct (decide (k = k0)) as [->|Hne].
    + rewrite lookup_insert_eq, Hv0. repeat destruct (decide _); try done; set_solver.
    + rewrite lookup_insert_ne by done. repeat destruct (decide _); try done; set_solver.
Qed.

Lemma elem_of_keys_list {X} (m : gmap string X) k :
  k ∈ map fst (map_to_list m) <-> is_Some (m !! k).
Proof.
  rewrite <- elem_of_dom. rewrite dom_alt.
  rewrite elem_of_list_to_set. done.
Qed.

(** C4.  [get_hyperparams] never raises, whatever the keys of the three
    dictionaries, and its result holds exactly: no dimension named in the
    fixed set; every other default dimension, with the custom override
    when there is one; every other custom dimension.  So fixed wins over
    override, and override over default. *)
Theorem get_hyperparams_assembly (defaults custom : gmap string V)
    (fixed : gmap string W) :
  exists hyperparams,
    get_hyperparams defaults custom fixed = Ok hyperparams /\
    forall k,
      hyperparams !! k =
        match fixed !! k with
        | Some _ => None
        | None =>
            match defaults !! k with
            | Some v => Some (default v (custom !! k))
            | None => custom !! k
            end
        end.
Proof.
  unfold get_hyperparams.
  set (d' := pop_fixed (map fst (map_to_list fixed)) defaults).
  assert (Hd' : forall k, d' !! k = match fixed !! k with Some _ => None | None => defaults !! k end).
  { intros k. unfold d'. rewrite pop_fixed_lookup.
    destruct (decide _) as [Hin|Hin].
    - apply elem_of_keys_list in Hin as [? ->]. done.
    - destruct (fixed !! k) eqn:E; [|done].
      exfalso. apply Hin, elem_of_keys_list. eauto. }
  destruct (override_loop_ok (map fst (map_to_list d')) d' custom ∅) as (m1 & -> & Hm1).
  { apply Forall_forall. intros k Hk. by apply elem_of_keys_list. }
  destruct (additional_loop_ok
              (elements (dom custom ∖ (dom defaults ∪ dom fixed))) custom m1)
    as (m2 & -> & Hm2).
  { apply Forall_forall. intros k Hk. apply elem_of_elements in Hk.
    apply elem_of_dom. set_solver. }
  exists m2. split; [done|]. intros k. rewrite Hm2, Hm1.
  destruct (decide (k ∈ elements _)) as [Hk|Hk].
  - apply elem_of_elements in Hk.
    apply elem_of_difference in Hk as [Hc Hk].
    apply not_elem_of_union in Hk as [Hd Hf].
    apply not_elem_of_dom in Hd, Hf. by rewrite Hf, Hd.
  - rewrite elem_of_elements in Hk.
    destruct (decide (k ∈ map fst (map_to_list d'))) as [Hin|Hin].
    + apply elem_of_keys_list in Hin as [v Hv].
      rewrite Hd' in Hv. rewrite Hd'.
      destruct (fixed !! k); [done|]. rewrite Hv.
      destruct (custom !! k); done.
    + rewrite lookup_empty.
      destruct (fixed !! k) eqn:Hf; [done|].
      destruct (defaults !! k) eqn:Hd.
      * exfalso. apply Hin, elem_of_keys_list. rewrite Hd', Hf, Hd. eauto.
      * destruct (custom !! k) eqn:Hc; [|done].
        exfalso. apply Hk. apply elem_of_difference. split.
        -- apply elem_of_dom. eauto.
        -- apply not_elem_of_union. split; by apply not_elem_of_dom.
Qed.

End SearchSpaceFacts.

(** ** The hall of fame *)

Lemma Qle_bool_false x y : Qle_bool x y = false <-> (y < x)%Q.
Proof.
  rewrite <- not_true_iff_false, Qle_bool_iff. split; intros H; lra.
Qed.

Ltac fit_crush :=
  repeat match goal with
  | x : option Q |- _ => destruct x
  end;
  unfold fit_gt, fit_le, fit_lt in *; simpl in *;
  rewrite ?negb_true_iff, ?negb_false_iff in *;
  repeat match goal with
  | H : Qle_bool _ _ = true |- _ => apply Qle_bool_iff in H
  | H : Qle_bool _ _ = false |- _ => apply Qle_bool_false in H
  end;
  try discriminate;
  try reflexivity;
  try (apply Qle_bool_iff; lra);
  try (apply Qle_bool_false; lra).

Lemma fit_le_refl a : fit_le a a = true.
Proof. fit_crush. Qed.

Lemma fit_le_trans a b c : fit_le a b = true -> fit_le b c = true -> fit_le a c = true.
Proof. intros. fit_crush. Qed.

Lemma fit_le_total a b : fit_le a b = false -> fit_le b a = true.
Proof. intros. fit_crush. Qed.

Lemma fit_lt_false a b : fit_lt a b = false <-> fit_le b a = true.
Proof. split; intros; fit_crush. Qed.

Lemma fit_lt_true a b : fit_lt a b = true -> fit_le a b = true.
Proof. intros. fit_crush. Qed.

Lemma fit_gt_true a b : fit_gt a b = true -> fit_le b a = true.
Proof. intros. fit_crush. Qed.


Lemma ascending_lookup ks i j a b :
  ascending ks -> (i <= j)%nat -> ks !! i = Some a -> ks !! j = Some b ->
  fit_le a b = true.
Proof.
  intros Hs. revert i j. induction Hs as [|k ks Hs IH Hk]; intros i j Hij Hi Hj.
  - done.
  - destruct i as [|i], j as [|j]; simpl in *; simplify_eq.
    + apply fit_le_refl.
    + rewrite Forall_forall in Hk. apply Hk. eapply list_elem_of_lookup_2; eauto.
    + lia.
    + eapply IH; [|eauto..]. lia.
Qed.

Lemma bisect_loop_S fuel a x lo hi :
  bisect_loop (S fuel) a x lo hi =
    if decide (lo < hi)%nat then
      match a !! ((lo + hi) / 2)%nat with
      | Some k =>
          if fit_lt x k then bisect_loop fuel a x lo ((lo + hi) / 2)%nat
          else bisect_loop fuel a x (S ((lo + hi) / 2)%nat) hi
      | None => lo
      end
    else lo.
Proof. reflexivity. Qed.

Lemma bisect_loop_spec fuel a x lo hi :
  ascending a ->
  (lo <= hi <= length a)%nat -> (hi - lo <= fuel)%nat ->
  Forall (fun k => fit_lt x k = false) (take lo a) ->
  Forall (fun k => fit_lt x k = true) (drop hi a) ->
  let i := bisect_loop fuel a x lo hi in
  (lo <= i <= hi)%nat /\
  Forall (fun k => fit_lt x k = false) (take i a) /\
  Forall (fun k => fit_lt x k = true) (drop i a).
Proof.
  intros Ha. revert lo hi.
  induction fuel as [|fuel IH]; intros lo hi Hb Hf Hlo Hhi.
  - simpl. assert (lo = hi) as -> by lia. split; [lia|done].
  - rewrite bisect_loop_S. destruct (decide (lo < hi)%nat) as [Hlt|Hge].
    2: { assert (lo = hi) as -> by lia. split; [lia|done]. }
    pose proof (Nat.div_mod_eq (lo + hi) 2) as Hdm.
    pose proof (Nat.mod_upper_bound (lo + hi) 2) as Hmb.
    set (mid := ((lo + hi) / 2)%nat) in *.
    assert (lo <= mid < hi)%nat as Hmid by lia.
    destruct (lookup_lt_is_Some_2 a mid) as [k Hk]; [lia|].
    rewrite Hk.
    destruct (fit_lt x k) eqn:Hxk.
    + destruct (IH lo mid) as (Hi & H1 & H2); [lia|lia|done| |].
      * apply Forall_lookup. intros j y Hj.
        rewrite lookup_drop in Hj.
        assert (fit_le k y = true) by (eapply (ascending_lookup a mid (mid + j)); eauto; lia).
        clear -Hxk H. fit_crush.
      * split; [lia|done].
    + destruct (IH (S mid) hi) as (Hi & H1 & H2); [lia|lia| |done|].
      * apply Forall_lookup. intros j y Hj.
        apply lookup_take_Some in Hj as [Hj Hlt'].
        assert (fit_le y k = true) by (eapply (ascending_lookup a j mid); eauto; lia).
        clear -Hxk H. fit_crush.
      * split; [lia|done].
Qed.

Lemma bisect_right_spec a x :
  ascending a ->
  let i := bisect_right a x in
  (i <= length a)%nat /\
  Forall (fun k => fit_le k x = true) (take i a) /\
  Forall (fun k => fit_le x k = true) (drop i a).
Proof.
  intros Ha. unfold bisect_right.
  destruct (bisect_loop_spec (length a) a x 0 (length a) Ha) as (Hi & H1 & H2).
  - lia.
  - lia.
  - by rewrite take_0.
  - by rewrite drop_all.
  - split; [lia|]. split.
    + eapply Forall_impl; [exact H1|]. intros k. apply fit_lt_false.
    + eapply Forall_impl; [exact H2|]. intros k. apply fit_lt_true.
Qed.

Lemma ranked_ascending l : ranked l <-> ascending (reverse (fitness <$> l)).
Proof.
  unfold ranked, ascending. induction l as [|a l IH]; simpl.
  - split; constructor.
  - rewrite StronglySorted_cons, reverse_cons, StronglySorted_app, IH.
    split.
    + intros [Hall Hs]. split_and!; [|done|repeat constructor].
      intros x1 x2 Hx1 Hx2. apply list_elem_of_singleton in Hx2 as ->.
      apply elem_of_reverse, list_elem_of_fmap in Hx1 as (b & -> & Hb).
      rewrite Forall_forall in Hall. by apply Hall.
    + intros (Hall & Hs & _). split; [|done].
      apply Forall_forall. intros b Hb. apply Hall; [|by apply list_elem_of_singleton].
      apply elem_of_reverse, list_elem_of_fmap. eauto.
Qed.

Lemma ascending_insert ks x :
  ascending ks -> ascending (list_insert_at (bisect_right ks x) x ks).
Proof.
  intros Hks. destruct (bisect_right_spec ks x Hks) as (Hi & H1 & H2).
  unfold list_insert_at, ascending.
  rewrite <- (take_drop (bisect_right ks x) ks) in Hks.
  apply StronglySorted_app in Hks as (Hcross & Hl & Hr).
  apply StronglySorted_app. split_and!; [|done|].
  - intros x1 x2 Hx1 Hx2. apply elem_of_cons in Hx2 as [->|Hx2].
    + rewrite Forall_forall in H1. by apply H1.
    + by apply Hcross.
  - apply StronglySorted_cons. split; [|done]. done.
Qed.

Lemma hof_insert_keys h item :
  keys h = reverse (fitness <$> items h) ->
  keys (hof_insert h item) = reverse (fitness <$> items (hof_insert h item)).
Proof.
  intros Hk. unfold hof_insert, hof_len, list_insert_at; simpl.
  set (i := bisect_right (keys h) (fitness item)).
  assert (Hlen : length (keys h) = length (items h)).
  { rewrite Hk, length_reverse, length_fmap. done. }
  clearbody i.
  rewrite fmap_app, fmap_cons, reverse_app, reverse_cons, fmap_take, fmap_drop.
  rewrite <- app_assoc. simpl.
  rewrite Hk, take_reverse, drop_reverse, length_fmap.
  done.
Qed.

Lemma list_insert_at_perm {A} i (x : A) l : list_insert_at i x l ≡ₚ x :: l.
Proof.
  unfold list_insert_at. rewrite <- Permutation_middle.
  by rewrite take_drop.
Qed.

Lemma hof_insert_inv h item :
  hof_inv h ->
  (length (items h) < maxsize h)%nat ->
  genome item ∉ genome <$> items h ->
  hof_inv (hof_insert h item).
Proof.
  intros [Hk Hb Hn Hr] Hlt Hnew. split.
  - by apply hof_insert_keys.
  - simpl. rewrite list_insert_at_perm. simpl. lia.
  - simpl. rewrite list_insert_at_perm. simpl.
    apply NoDup_cons. done.
  - apply ranked_ascending. rewrite <- hof_insert_keys by done.
    simpl. apply ascending_insert. rewrite Hk. by apply ranked_ascending.
Qed.

Lemma hof_remove_last h :
  hof_inv h -> items h <> [] ->
  exists h', hof_remove h (-1) = Ok h' /\
    maxsize h' = maxsize h /\
    items h' = take (length (items h) - 1) (items h) /\
    keys h' = reverse (fitness <$> items h').
Proof.
  intros [Hk Hb Hn Hr] Hne. unfold hof_remove, hof_len.
  assert (Hlen : length (keys h) = length (items h)).
  { rewrite Hk, length_reverse, length_fmap. done. }
  destruct (decide (length (items h) = 0)%nat) as [H0|H0].
  { destruct (items h); simpl in *; done. }
  set (n := length (items h)) in *.
  assert (Hmod : -1 mod Z.of_nat n = Z.of_nat n - 1).
  { symmetry. apply (Z.mod_unique _ _ (-1)); lia. }
  rewrite Hmod, Hlen. fold n.
  replace (Z.of_nat n - (Z.of_nat n - 1 + 1)) with 0 by lia.
  unfold py_index.
  rewrite (decide_True (P := 0 <= 0 < Z.of_nat n)) by lia.
  rewrite (decide_False (P := 0 <= -1 < Z.of_nat n)) by lia.
  rewrite (decide_True (P := - Z.of_nat n <= -1 < 0)) by lia.
  eexists. split; [reflexivity|]. simpl.
  replace (Z.to_nat (Z.of_nat n + -1)) with (n - 1)%nat by lia.
  assert (Hdel : delete (n - 1)%nat (items h) = take (n - 1) (items h)).
  { destruct (items h) as [|a l] using rev_ind; [done|].
    subst n. rewrite length_app. simpl.
    replace (length l + 1 - 1)%nat with (length l) by lia.
    rewrite delete_middle, take_app_length. by rewrite app_nil_r. }
  split_and!; [done|done|].
  rewrite Hdel, Hk.
  rewrite fmap_take, reverse_take, length_fmap. fold n.
  replace (n - (n - 1))%nat with 1%nat by lia.
  destruct (reverse (fitness <$> items h)); done.
Qed.


Lemma dominates_refl l : dominates l l.
Proof. intros a Ha. exists a. split; [done|apply fit_le_refl]. Qed.

Lemma dominates_trans l1 l2 l3 : dominates l1 l2 -> dominates l2 l3 -> dominates l1 l3.
Proof.
  intros H12 H23 a Ha. destruct (H12 a Ha) as (b & Hb & Hab).
  destruct (H23 b Hb) as (c & Hc & Hbc). exists c. split; [done|].
  by eapply fit_le_trans.
Qed.

Lemma dominates_insert h x : dominates (items h) (items (hof_insert h x)).
Proof.
  intros a Ha. exists a. split; [|apply fit_le_refl].
  simpl. rewrite list_insert_at_perm. by right.
Qed.

Lemma max_fitness_upper l a : a ∈ l -> fit_le (fitness a) (max_fitness l) = true.
Proof.
  induction l as [|b l IH]; intros Ha; [by apply elem_of_nil in Ha|].
  simpl. unfold fit_max.
  apply elem_of_cons in Ha as [->|Ha].
  - destruct (fit_le (max_fitness l) (fitness b)) eqn:E.
    + apply fit_le_refl.
    + by apply fit_le_total.
  - specialize (IH Ha). destruct (fit_le (max_fitness l) (fitness b)) eqn:E.
    + by eapply fit_le_trans.
    + done.
Qed.

Lemma max_fitness_attained l :
  max_fitness l = None \/ exists a, a ∈ l /\ max_fitness l = fitness a.
Proof.
  induction l as [|b l IH]; [by left|].
  simpl. unfold fit_max. destruct (fit_le (max_fitness l) (fitness b)) eqn:E.
  - right. exists b. split; [by left|done].
  - destruct IH as [IH|(a & Ha & IH)].
    + rewrite IH in E. done.
    + right. exists a. split; [by right|done].
Qed.

Lemma dominates_max_fitness l l' :
  dominates l l' -> fit_le (max_fitness l) (max_fitness l') = true.
Proof.
  intros Hd. destruct (max_fitness_attained l) as [->|(a & Ha & ->)]; [done|].
  destruct (Hd a Ha) as (b & Hb & Hab).
  eapply fit_le_trans; [exact Hab|]. by apply max_fitness_upper.
Qed.

Lemma existsb_similar_false ind l :
  existsb (similar ind) l = false -> genome ind ∉ genome <$> l.
Proof.
  intros He Hin. apply list_elem_of_fmap in Hin as (b & Hb & Hin).
  apply not_true_iff_false in He. apply He.
  apply existsb_exists. exists b. split; [by apply list_elem_of_In|].
  unfold similar. by apply bool_decide_eq_true.
Qed.

Lemma hof_update_one_inv population h ind :
  hof_inv h -> (0 < maxsize h)%nat -> population <> [] ->
  exists h', hof_update_one population h ind = Ok h' /\
    hof_inv h' /\ maxsize h' = maxsize h /\ dominates (items h) (items h').
Proof.
  intros Hinv Hmax Hpop. unfold hof_update_one, hof_len.
  destruct (decide (length (items h) = 0)%nat) as [H0|H0].
  - rewrite bool_decide_eq_true_2 by done.
    rewrite bool_decide_eq_false_2 by lia. simpl.
    destruct population as [|p0 ?]; [done|].
    eexists. split; [reflexivity|]. split_and!; [|done|apply dominates_insert].
    apply hof_insert_inv; [done|lia|].
    destruct (items h); [|done]. apply not_elem_of_nil.
  - rewrite bool_decide_eq_false_2 by done. simpl.
    destruct (last (items h)) as [worst|] eqn:Hlast.
    2: { apply last_None in Hlast. rewrite Hlast in H0. done. }
    destruct (fit_gt (fitness ind) (fitness worst)
              || bool_decide (length (items h) < maxsize h)%nat) eqn:Hcond.
    2: { exists h. split_and!; [done..|apply dominates_refl]. }
    destruct (existsb (similar ind) (items h)) eqn:Hsim.
    { exists h. split_and!; [done..|apply dominates_refl]. }
    apply existsb_similar_false in Hsim.
    destruct (decide (maxsize h <= length (items h))%nat) as [Hfull|Hroom].
    + rewrite bool_decide_eq_true_2 by done.
      destruct (hof_remove_last h Hinv) as (h1 & -> & Hm1 & Hi1 & Hk1).
      { intros E. rewrite E in H0. done. }
      assert (Hsplit : items h = (items h1 ++ [worst])%list).
      { rewrite Hi1. destruct (items h) as [|a l] using rev_ind; [done|].
        rewrite last_snoc in Hlast. simplify_eq.
        rewrite length_app. simpl.
        replace (length l + 1 - 1)%nat with (length l) by lia.
        by rewrite take_app_length. }
      assert (Hinv1 : hof_inv h1).
      { destruct Hinv as [Hk Hb Hn Hr]. split; [done| | |].
        - rewrite Hsplit, length_app in Hb. lia.
        - rewrite Hsplit, fmap_app in Hn. by apply NoDup_app in Hn as (? & _ & _).
        - unfold ranked in *. rewrite Hsplit in Hr.
          by apply StronglySorted_app_1_l in Hr. }
      eexists. split; [reflexivity|]. split_and!; [|done|].
      * apply hof_insert_inv; [done| |].
        -- destruct Hinv as [_ Hb _ _]. rewrite Hsplit, length_app in Hb.
           simpl in Hb. lia.
        -- rewrite Hsplit, fmap_app in Hsim. set_solver.
      * intros a Ha. rewrite Hsplit in Ha. apply elem_of_app in Ha as [Ha|Ha].
        -- exists a. split; [|apply fit_le_refl].
           simpl. rewrite list_insert_at_perm. by right.
        -- apply list_elem_of_singleton in Ha as ->.
           exists ind. split.
           ++ simpl. rewrite list_insert_at_perm. by left.
           ++ rewrite bool_decide_eq_false_2 in Hcond by lia.
              rewrite orb_false_r in Hcond. by apply fit_gt_true.
    + rewrite bool_decide_eq_false_2 by done.
      eexists. split; [reflexivity|]. split_and!; [|done|apply dominates_insert].
      apply hof_insert_inv; [done|lia|done].
Qed.

Lemma hof_update_loop_inv population h todo :
  hof_inv h -> (0 < maxsize h)%nat -> (todo <> [] -> population <> []) ->
  exists h', hof_update_loop population h todo = Ok h' /\
    hof_inv h' /\ maxsize h' = maxsize h /\ dominates (items h) (items h').
Proof.
  revert h. induction todo as [|ind todo IH]; intros h Hinv Hmax Hpop; simpl.
  - exists h. split_and!; [done..|apply dominates_refl].
  - destruct (hof_update_one_inv population h ind Hinv Hmax) as (h1 & -> & Hinv1 & Hm1 & Hd1).
    { by apply Hpop. }
    destruct (IH h1 Hinv1) as (h2 & -> & Hinv2 & Hm2 & Hd2).
    + lia.
    + intros _. by apply Hpop.
    + exists h2. split_and!; [done..|lia|by eapply dominates_trans].
Qed.

Lemma hof_new_inv n : hof_inv (hof_new n).
Proof. split; simpl; [done|lia|constructor|constructor]. Qed.

Lemma hof_update_ok h population :
  hof_inv h -> (0 < maxsize h)%nat ->
  exists h', hof_update h population = Ok h' /\
    hof_inv h' /\ maxsize h' = maxsize h /\
    fit_le (max_fitness (items h)) (max_fitness (items h')) = true.
Proof.
  intros Hinv Hmax.
  destruct (hof_update_loop_inv population h population Hinv Hmax)
    as (h' & Hu & Hinv' & Hm & Hd); [done|].
  exists h'. split_and!; [done..|]. by apply dominates_max_fitness.
Qed.

(** C9.  A new hall of fame of capacity 10 satisfies the invariant (at
    most [maxsize] individuals, no two with the same genome, best first),
    and every [update] returns normally, keeps the invariant and the
    capacity, and does not lower the greatest fitness held. *)
Theorem hall_of_fame_invariant :
  hof_inv (hof_new 10) /\
  forall h population,
    hof_inv h -> (0 < maxsize h)%nat ->
    exists h', hof_update h population = Ok h' /\
      hof_inv h' /\ maxsize h' = maxsize h /\
      fit_le (max_fitness (items h)) (max_fitness (items h')) = true.
Proof.
  split; [apply hof_new_inv|]. intros h population. apply hof_update_ok.
Qed.

Lemma hall_of_fame_invariant_witness :
  let h := {| maxsize := 2;
              keys := [Some (4 # 1); Some (7 # 1)];
              items := [mkInd [2; 5] (Some (7 # 1)); mkInd [3; 1] (Some (4 # 1))] |} in
  let population := [mkInd [1; 1] (Some (2 # 1)); mkInd [10; 5] (Some (15 # 1))] in
  hof_inv h /\ (0 < maxsize h)%nat /\
  exists h', hof_update h population = Ok h' /\
    hof_inv h' /\ maxsize h' = maxsize h /\
    fit_le (max_fitness (items h)) (max_fitness (items h')) = true.
Proof.
  intros h population.
  assert (Hinv : hof_inv h).
  { split; simpl.
    - reflexivity.
    - lia.
    - repeat constructor; set_solver.
    - repeat constructor. }
  assert (Hmax : (0 < maxsize h)%nat) by (simpl; lia).
  split; [exact Hinv|]. split; [exact Hmax|].
  exact (proj2 hall_of_fame_invariant h population Hinv Hmax).
Defined.

(** ** Reasoning about computations *)

Section Returns.

Context {R : RNG}.

Lemma returns_ret {A} (a : A) w (Q : A -> World -> Prop) :
  Q a w -> returns (ret a) w Q.
Proof. intros H. exists a, w. done. Qed.

Lemma returns_bind {A B} (m : M A) (f : A -> M B) w (Q : B -> World -> Prop) :
  returns m w (fun a w' => returns (f a) w' Q) -> returns (bind m f) w Q.
Proof.
  intros (a & w' & Hm & b & w'' & Hf & HQ). exists b, w''.
  unfold bind. rewrite Hm. done.
Qed.

Lemma returns_weaken {A} (m : M A) w (P Q : A -> World -> Prop) :
  returns m w P -> (forall a w', P a w' -> Q a w') -> returns m w Q.
Proof. intros (a & w' & Hm & HP) H. exists a, w'. auto. Qed.

Lemma returns_lift {A} (r : res A) (a : A) w (Q : A -> World -> Prop) :
  r = Ok a -> Q a w -> returns (lift r) w Q.
Proof. intros -> H. exists a, w. done. Qed.

Lemma returns_emit e w (Q : unit -> World -> Prop) :
  Q tt (with_trace w [e]) -> returns (emit e) w Q.
Proof. intros H. exists tt, (with_trace w [e]). done. Qed.

Lemma returns_get_self w (Q : Optimizer -> World -> Prop) :
  Q (self w) w -> returns get_self w Q.
Proof. intros H. exists (self w), w. done. Qed.

Lemma returns_put_self o w (Q : unit -> World -> Prop) :
  Q tt (with_self w o) -> returns (put_self o) w Q.
Proof. intros H. exists tt, (with_self w o). done. Qed.

Lemma returns_in_folder d e w (Q : unit -> World -> Prop) :
  d ∈ dirs w -> Q tt w -> returns (in_folder d e) w Q.
Proof.
  intros Hd H. exists tt, w. split; [|done].
  unfold in_folder. rewrite bool_decide_eq_true_2; [done|by right].
Qed.

Lemma returns_log level msg w (Q : unit -> World -> Prop) lg :
  optimization_logger (self w) = Some lg ->
  Q tt (with_trace w [ELog lg level msg]) -> returns (log level msg) w Q.
Proof.
  intros Hlg H. unfold log. apply returns_bind, returns_get_self.
  rewrite Hlg. by apply returns_emit.
Qed.

Lemma returns_random w (Q : Q -> World -> Prop) :
  (forall u s, Q u (with_rng w s)) -> returns random_random w Q.
Proof.
  intros H. unfold returns, random_random.
  destruct (next_random (rng w)) as [u s]. exists u, (with_rng w s). auto.
Qed.

Lemma returns_randint a b w (Q : Z -> World -> Prop) :
  a <= b ->
  (forall x s, a <= x <= b -> Q x (with_rng w s)) -> returns (randint a b) w Q.
Proof.
  intros Hab H. unfold randint. rewrite decide_True by lia.
  apply returns_bind. unfold returns at 1, randbelow.
  pose proof (next_below_range (b + 1 - a) (rng w)) as Hr.
  destruct (next_below (b + 1 - a) (rng w)) as [x s]. simpl in Hr.
  eexists _, _. split; [reflexivity|]. apply returns_ret. apply H. lia.
Qed.

Lemma with_rng_rng w s s' : with_rng (with_rng w s) s' = with_rng w s'.
Proof. reflexivity. Qed.

Lemma with_trace_trace w evs evs' :
  with_trace (with_trace w evs) evs' = with_trace w (evs ++ evs').
Proof. unfold with_trace. simpl. by rewrite app_assoc. Qed.

Lemma with_trace_nil w : with_trace w [] = w.
Proof. destruct w. unfold with_trace. simpl. by rewrite app_nil_r. Qed.

Lemma with_rng_same w : with_rng w (rng w) = w.
Proof. by destruct w. Qed.

End Returns.


Section Draws.

Context {R : RNG}.

Lemma draws_ret {A} (a : A) w (P : A -> Prop) : P a -> draws (ret a) w P.
Proof.
  intros H. apply returns_ret. split; [|done]. exists (rng w). by rewrite with_rng_same.
Qed.

Lemma draws_bind {A B} (m : M A) (f : A -> M B) w (P : A -> Prop) (Q : B -> Prop) :
  draws m w P -> (forall a s, P a -> draws (f a) (with_rng w s) Q) ->
  draws (bind m f) w Q.
Proof.
  intros Hm Hf. apply returns_bind. eapply returns_weaken; [exact Hm|].
  intros a w' [[s ->] Ha]. eapply returns_weaken; [exact (Hf a s Ha)|].
  intros b w'' [[s' ->] Hb]. split; [|done]. by exists s'.
Qed.

Lemma draws_weaken {A} (m : M A) w (P Q : A -> Prop) :
  draws m w P -> (forall a, P a -> Q a) -> draws m w Q.
Proof.
  intros Hm H. eapply returns_weaken; [exact Hm|]. intros a w' [? ?]. auto.
Qed.

Lemma draws_lift {A} (r : res A) (a : A) w (P : A -> Prop) :
  r = Ok a -> P a -> draws (lift r) w P.
Proof. intros -> H. by apply (draws_ret a). Qed.

Lemma draws_random w (P : Q -> Prop) : (forall u, P u) -> draws random_random w P.
Proof. intros H. apply returns_random. intros u s. split; [by exists s|done]. Qed.

Lemma draws_randint a b w (P : Z -> Prop) :
  a <= b -> (forall x, a <= x <= b -> P x) -> draws (randint a b) w P.
Proof.
  intros Hab H. apply returns_randint; [done|]. intros x s Hx.
  split; [by exists s|auto].
Qed.

Lemma draws_returns {A} (m : M A) w (P : A -> Prop) (Q : A -> World -> Prop) :
  draws m w P -> (forall a s, P a -> Q a (with_rng w s)) -> returns m w Q.
Proof.
  intros Hm H. eapply returns_weaken; [exact Hm|]. intros a w' [[s ->] Ha]. auto.
Qed.

End Draws.

(** ** The DEAP operators *)


Section DeapFacts.

Context {R : RNG}.

Lemma two_point_length g1 g2 g1' g2' :
  two_point g1 g2 g1' g2' -> length g1' = length g1 /\ length g2' = length g2.
Proof.
  intros (a & b & Hab & Hb & -> & ->).
  rewrite !length_app, !length_take, !length_drop. lia.
Qed.

Lemma cxTwoPoint_draws g1 g2 w :
  (2 <= Nat.min (length g1) (length g2))%nat ->
  draws (cxTwoPoint g1 g2) w (fun r => two_point g1 g2 r.1 r.2).
Proof.
  intros Hsize. unfold cxTwoPoint.
  eapply draws_bind; [apply draws_randint; [lia|intros x Hx; exact Hx]|].
  intros c1 s1 Hc1. simpl in Hc1.
  eapply draws_bind; [apply draws_randint; [lia|intros x Hx; exact Hx]|].
  intros c2 s2 Hc2. simpl in Hc2. apply draws_ret.
  destruct (decide (c1 <= c2)); simpl.
  - exists (Z.to_nat c1), (Z.to_nat (c2 + 1)).
    unfold slice_assign, slice.
    replace (Nat.max (Z.to_nat c1) (Z.to_nat (c2 + 1))) with (Z.to_nat (c2 + 1)) by lia.
    split_and!; [lia|lia|lia|done|done].
  - exists (Z.to_nat c2), (Z.to_nat c1).
    unfold slice_assign, slice.
    replace (Nat.max (Z.to_nat c2) (Z.to_nat c1)) with (Z.to_nat c1) by lia.
    split_and!; [lia|lia|lia|done|done].
Qed.

Lemma redrawn_refl low up g : redrawn low up g g.
Proof. split; [done|]. intros i x Hx. by left. Qed.

Lemma mutUniformInt_loop_draws g low up indpb w :
  Forall2 Z.le low up ->
  draws (mutUniformInt_loop g low up indpb) w (redrawn low up g).
Proof.
  intros Hb. revert g w. induction Hb as [|xl xu low up Hle Hb IH]; intros g w.
  - destruct g; simpl; apply draws_ret, redrawn_refl.
  - destruct g as [|x g]; simpl; [apply draws_ret, redrawn_refl|].
    eapply draws_bind; [apply draws_random with (P := fun _ => True); done|].
    intros u s _.
    eapply draws_bind with (P := fun x' => x' = x \/ xl <= x' <= xu).
    { destruct (Qltb u indpb).
      - apply draws_randint; [done|]. intros; by right.
      - apply draws_ret. by left. }
    intros x' s' Hx'.
    eapply draws_bind; [apply IH|].
    intros g' s'' [Hlen Hg']. apply draws_ret. split; [simpl; lia|].
    intros [|i] y Hy; simpl in *.
    + simplify_eq. destruct Hx' as [->|Hx']; [by left|right; eauto].
    + by apply Hg'.
Qed.

Lemma mutUniformInt_draws g tb w :
  Forall2 Z.le (low tb) (up tb) -> (length g <= length (low tb))%nat ->
  draws (mutUniformInt g (low tb) (up tb) (indpb tb)) w (redrawn (low tb) (up tb) g).
Proof.
  intros Hb Hlen. unfold mutUniformInt.
  pose proof (Forall2_length _ _ _ Hb) as Hl.
  rewrite decide_False by lia. rewrite decide_False by lia.
  by apply mutUniformInt_loop_draws.
Qed.

Lemma varAnd_mate_draws n cxpb population w :
  (2 <= n)%nat -> genomes n population ->
  draws (varAnd_mate cxpb population) w (crossed population).
Proof.
  intros Hn. revert w.
  induction population as [population IH] using (induction_ltof1 _ length).
  unfold ltof in IH. intros w Hg.
  destruct population as [|a [|b rest]]; simpl.
  - apply draws_ret. constructor.
  - apply draws_ret. constructor.
  - apply Forall_cons in Hg as [Ha Hg]. apply Forall_cons in Hg as [Hb Hg].
    eapply draws_bind; [apply draws_random with (P := fun _ => True); done|].
    intros u s _.
    eapply draws_bind with
      (P := fun ab => (ab.1 = a /\ ab.2 = b) \/
                      exists g1 g2, ab = (mkInd g1 None, mkInd g2 None) /\
                                    two_point (genome a) (genome b) g1 g2).
    { destruct (Qltb u cxpb).
      - eapply draws_bind; [apply cxTwoPoint_draws; lia|].
        intros [g1 g2] s' Htp. apply draws_ret. right. eauto.
      - apply draws_ret. by left. }
    intros [a' b'] s' Hab.
    eapply draws_bind; [apply IH; [simpl; lia|done]|].
    intros rest' s'' Hrest. apply draws_ret. simpl in *.
    destruct Hab as [[? ?]|(g1 & g2 & ? & Htp)]; simplify_eq.
    + by constructor.
    + by constructor.
Qed.

Lemma crossed_genomes n l l' : genomes n l -> crossed l l' -> genomes n l'.
Proof.
  intros Hg Hc. induction Hc; [done|done| |].
  - apply Forall_cons in Hg as [Ha Hg]. apply Forall_cons in Hg as [Hb Hg].
    repeat constructor; auto. by apply IHHc.
  - apply Forall_cons in Hg as [Ha Hg]. apply Forall_cons in Hg as [Hb Hg].
    apply two_point_length in H as [H1 H2].
    repeat constructor; simpl; [lia|lia|by apply IHHc].
Qed.

Lemma crossed_varied l l' : crossed l l' -> varied l l'.
Proof.
  unfold varied. induction 1.
  - constructor.
  - constructor; [by left|constructor].
  - constructor; [by left|]. constructor; [by left|done].
  - constructor; [by right|]. constructor; [by right|done].
Qed.

Lemma varAnd_mutate_draws n tb mutpb population w :
  fit_toolbox n tb -> genomes n population ->
  draws (varAnd_mutate tb mutpb population) w (mutated tb population).
Proof.
  intros [Hn Hlow Hb Ht] Hg. revert w.
  induction Hg as [|a rest Ha Hg IH]; intros w; simpl.
  - apply draws_ret. constructor.
  - eapply draws_bind; [apply draws_random with (P := fun _ => True); done|].
    intros u s _.
    eapply draws_bind with
      (P := fun a' => a' = a \/
              (fitness a' = None /\ redrawn (low tb) (up tb) (genome a) (genome a'))).
    { destruct (Qltb u mutpb).
      - eapply draws_bind; [apply mutUniformInt_draws; [done|lia]|].
        intros g s' Hg'. apply draws_ret. right. done.
      - apply draws_ret. by left. }
    intros a' s' Ha'.
    eapply draws_bind; [apply IH|].
    intros rest' s'' Hrest. apply draws_ret. by constructor.
Qed.

Lemma mutated_genomes n tb l l' : genomes n l -> mutated tb l l' -> genomes n l'.
Proof.
  intros Hg Hm. induction Hm as [|a a' l l' Ha Hm IH]; [done|].
  apply Forall_cons in Hg as [Hlen Hg]. constructor; [|by apply IH].
  destruct Ha as [->|[_ [Hl _]]]; [done|lia].
Qed.

Lemma mutated_varied tb l l' : mutated tb l l' -> varied l l'.
Proof.
  intros Hm. eapply Forall2_impl; [exact Hm|]. intros a a' [->|[? _]]; auto.
Qed.

Lemma varied_trans l1 l2 l3 : varied l1 l2 -> varied l2 l3 -> varied l1 l3.
Proof.
  intros H12. revert l3. induction H12 as [|a b l1 l2 Hab H12 IH]; intros l3 H23.
  - apply Forall2_nil_inv_l in H23 as ->. constructor.
  - apply Forall2_cons_inv_l in H23 as (c & l3' & Hbc & H23 & ->).
    constructor; [|by apply IH].
    destruct Hbc as [->|Hc]; [done|by right].
Qed.

Lemma varAnd_draws n tb cxpb mutpb population w :
  fit_toolbox n tb -> genomes n population ->
  draws (varAnd population tb cxpb mutpb) w
    (fun offspring =>
       (exists l, crossed population l /\ mutated tb l offspring) /\
       genomes n offspring /\ varied population offspring /\
       length offspring = length population).
Proof.
  intros Htb Hg. unfold varAnd.
  eapply draws_bind; [apply (varAnd_mate_draws n); [by destruct Htb|done]|].
  intros l s Hc.
  pose proof (crossed_genomes n _ _ Hg Hc) as Hgl.
  eapply draws_weaken; [by apply (varAnd_mutate_draws n)|].
  intros offspring Hm. split_and!.
  - eauto.
  - by eapply mutated_genomes.
  - eapply varied_trans; [by apply crossed_varied|by eapply mutated_varied].
  - symmetry. eapply Forall2_length.
    eapply varied_trans; [by apply crossed_varied|by eapply mutated_varied].
Qed.

End DeapFacts.

Section SelectionFacts.

Context {R : RNG}.

Lemma draws_randbelow n w (P : Z -> Prop) :
  0 < n -> (forall x, 0 <= x < n -> P x) -> draws (randbelow n) w P.
Proof.
  intros Hn H. unfold draws, returns, randbelow.
  pose proof (next_below_range n (rng w) Hn) as Hr.
  destruct (next_below n (rng w)) as [x s]. simpl in Hr.
  eexists _, _. split; [reflexivity|]. split; [by exists s|auto].
Qed.

Lemma choice_draws {A} (seq : list A) w :
  seq <> [] -> draws (random_choice seq) w (fun x => x ∈ seq).
Proof.
  intros Hne. unfold random_choice. destruct seq as [|a seq]; [done|].
  eapply draws_bind; [apply draws_randbelow; [simpl; lia|intros x Hx; exact Hx]|].
  intros i s Hi. simpl in Hi.
  destruct (lookup_lt_is_Some_2 (a :: seq) (Z.to_nat i)) as [x Hx]; [simpl; lia|].
  rewrite Hx. apply draws_ret. by eapply list_elem_of_lookup_2.
Qed.

Lemma selRandom_draws individuals k w :
  individuals <> [] ->
  draws (selRandom individuals k) w
    (fun l => length l = k /\ Forall (fun x => x ∈ individuals) l).
Proof.
  intros Hne. revert w. induction k as [|k IH]; intros w; simpl.
  - apply draws_ret. split; [done|constructor].
  - eapply draws_bind; [by apply choice_draws|]. intros x s Hx.
    eapply draws_bind; [apply IH|]. intros l s' [Hl Hin].
    apply draws_ret. split; [simpl; lia|by constructor].
Qed.

Lemma fold_left_pick {A} (f : A -> A -> A) (l : list A) (x : A) :
  (forall a b, f a b = a \/ f a b = b) -> fold_left f l x ∈ x :: l.
Proof.
  intros Hf. revert x. induction l as [|y l IH]; intros x; simpl.
  - by left.
  - specialize (IH (f x y)). destruct (Hf x y) as [E|E]; rewrite E in *.
    + apply elem_of_cons in IH as [->|IH]; [by left|]. right. by right.
    + right. done.
Qed.

Lemma max_fitness_first_elem aspirants :
  aspirants <> [] -> exists x, max_fitness_first aspirants = Ok x /\ x ∈ aspirants.
Proof.
  intros Hne. destruct aspirants as [|a l]; [done|]. simpl.
  eexists. split; [reflexivity|]. apply fold_left_pick.
  intros x y. destruct (fit_gt _ _); auto.
Qed.

Lemma selTournament_draws individuals k tournsize w :
  individuals <> [] -> (0 < tournsize)%nat ->
  draws (selTournament individuals k tournsize) w
    (fun l => length l = k /\ Forall (fun x => x ∈ individuals) l).
Proof.
  intros Hne Ht. revert w. induction k as [|k IH]; intros w; simpl.
  - apply draws_ret. split; [done|constructor].
  - eapply draws_bind; [by apply selRandom_draws|]. intros asp s [Hl Hin].
    destruct (max_fitness_first_elem asp) as (x & Hx & Hxin).
    { intros ->. simpl in Hl. lia. }
    eapply draws_bind;
      [apply (draws_lift _ x _ (fun y => y ∈ asp)); [exact Hx|exact Hxin]|].
    intros y s' Hy. eapply draws_bind; [apply IH|]. intros l s'' [Hl' Hin'].
    apply draws_ret. split; [simpl; lia|]. constructor; [|done].
    rewrite Forall_forall in Hin. by apply Hin.
Qed.

End SelectionFacts.

(** ** Variation as a tree of draws *)

Section Follows.

Context {R : RNG}.

Lemma sample_bind {A B} (t : Sampler A) (f : A -> Sampler B) s :
  sample (s_bind t f) s =
    match sample t s with
    | (Ok a, s') => sample (f a) s'
    | (Raise e, s') => (Raise e, s')
    end.
Proof.
  revert s. induction t as [[a|e]|k IH|n k IH]; intros s; simpl.
  - done.
  - done.
  - destruct (next_random s) as [u s']. apply IH.
  - destruct (next_below n s) as [x s']. apply IH.
Qed.

Lemma follows_ret {A} (a : A) : follows (ret a) (s_ret a).
Proof. intros w. simpl. by rewrite with_rng_same. Qed.

Lemma follows_raise {A} e : follows (raise (A := A) e) (Done (Raise e)).
Proof. intros w. simpl. unfold raise. by rewrite with_rng_same. Qed.

Lemma follows_bind {A B} (m : M A) t (f : A -> M B) g :
  follows m t -> (forall a, follows (f a) (g a)) -> follows (bind m f) (s_bind t g).
Proof.
  intros Hm Hf w. unfold bind. rewrite Hm, sample_bind.
  destruct (sample t (rng w)) as [[a|e] s']; simpl; [|done].
  rewrite Hf. simpl. done.
Qed.

Lemma follows_random : follows random_random s_random.
Proof.
  intros w. unfold random_random. simpl. by destruct (next_random (rng w)).
Qed.

Lemma follows_randint a b : follows (randint a b) (s_randint a b).
Proof.
  unfold randint, s_randint. destruct (decide (0 < b + 1 - a)).
  - intros w. unfold bind, randbelow, ret. simpl.
    by destruct (next_below (b + 1 - a) (rng w)).
  - apply follows_raise.
Qed.

Lemma follows_if {A} (c : bool) (m1 m2 : M A) t1 t2 :
  follows m1 t1 -> follows m2 t2 ->
  follows (if c then m1 else m2) (if c then t1 else t2).
Proof. by destruct c. Qed.

Lemma cxTwoPoint_follows g1 g2 : follows (cxTwoPoint g1 g2) (cxTwoPoint_sampler g1 g2).
Proof.
  unfold cxTwoPoint, cxTwoPoint_sampler.
  apply follows_bind; [apply follows_randint|]. intros c1.
  apply follows_bind; [apply follows_randint|]. intros c2.
  apply follows_ret.
Qed.

Lemma mutUniformInt_loop_follows g low up indpb :
  follows (mutUniformInt_loop g low up indpb) (mutUniformInt_loop_sampler g low up indpb).
Proof.
  revert low up. induction g as [|x g IH]; intros low up; [apply follows_ret|].
  destruct low as [|xl low]; [apply follows_ret|].
  destruct up as [|xu up]; [apply follows_ret|].
  cbn [mutUniformInt_loop mutUniformInt_loop_sampler].
  apply follows_bind; [apply follows_random|]. intros u.
  apply follows_bind; [apply follows_if; [apply follows_randint|apply follows_ret]|].
  intros x'.
  apply follows_bind; [apply IH|]. intros rest. apply follows_ret.
Qed.

Lemma mutUniformInt_follows g low up indpb :
  follows (mutUniformInt g low up indpb) (mutUniformInt_sampler g low up indpb).
Proof.
  unfold mutUniformInt, mutUniformInt_sampler.
  destruct (decide _); [apply follows_raise|].
  destruct (decide _); [apply follows_raise|].
  apply mutUniformInt_loop_follows.
Qed.

Lemma varAnd_mate_follows cxpb population :
  follows (varAnd_mate cxpb population) (varAnd_mate_sampler cxpb population).
Proof.
  induction population as [population IH] using (induction_ltof1 _ length).
  unfold ltof in IH.
  destruct population as [|a [|b rest]]; [apply follows_ret..|].
  cbn [varAnd_mate varAnd_mate_sampler].
  apply follows_bind; [apply follows_random|]. intros u.
  apply follows_bind.
  { apply follows_if; [|apply follows_ret].
    apply follows_bind; [apply cxTwoPoint_follows|]. intros g. apply follows_ret. }
  intros ab. apply follows_bind; [apply IH; simpl; lia|].
  intros rest'. apply follows_ret.
Qed.

Lemma varAnd_mutate_follows tb mutpb population :
  follows (varAnd_mutate tb mutpb population) (varAnd_mutate_sampler tb mutpb population).
Proof.
  induction population as [|a rest IH]; [apply follows_ret|].
  cbn [varAnd_mutate varAnd_mutate_sampler].
  apply follows_bind; [apply follows_random|]. intros u.
  apply follows_bind.
  { apply follows_if; [|apply follows_ret].
    apply follows_bind; [apply mutUniformInt_follows|]. intros g. apply follows_ret. }
  intros a'. apply follows_bind; [apply IH|].
  intros rest'. apply follows_ret.
Qed.

Lemma varAnd_follows population tb cxpb mutpb :
  follows (varAnd population tb cxpb mutpb) (varAnd_sampler population tb cxpb mutpb).
Proof.
  unfold varAnd, varAnd_sampler.
  apply follows_bind; [apply varAnd_mate_follows|]. intros l.
  apply varAnd_mutate_follows.
Qed.

(** What a computation that only draws returns depends on the random
    stream alone. *)
Lemma follows_frame {A} (m : M A) t w1 w r s :
  follows m t -> rng w1 = rng w ->
  m w1 = (r, with_rng w1 s) -> m w = (r, with_rng w s).
Proof.
  intros Hm Hrng Hrun. rewrite Hm in Hrun. rewrite Hm. rewrite Hrng in Hrun.
  injection Hrun as Hr Hs. by rewrite Hr, Hs.
Qed.

End Follows.

(** ** Expectations *)

Section Expectation.

Local Open Scope Q_scope.

Lemma Qsum_ext {A} (F G : A -> Q) l :
  (forall x, x ∈ l -> F x == G x) -> Qsum F l == Qsum G l.
Proof.
  induction l as [|a l IH]; simpl; intros H; [reflexivity|].
  rewrite (H a) by left. rewrite IH; [reflexivity|]. intros x Hx. apply H. by right.
Qed.

Lemma Qsum_app {A} (F : A -> Q) l1 l2 : Qsum F (l1 ++ l2) == Qsum F l1 + Qsum F l2.
Proof. induction l1 as [|a l1 IH]; simpl; [ring|]. rewrite IH. ring. Qed.

Lemma Qsum_scale {A} (F : A -> Q) c l : Qsum (fun x => c * F x) l == c * Qsum F l.
Proof. induction l as [|a l IH]; simpl; [ring|]. rewrite IH. ring. Qed.

Lemma Qsum_plus {A} (F G : A -> Q) l :
  Qsum (fun x => F x + G x) l == Qsum F l + Qsum G l.
Proof. induction l as [|a l IH]; simpl; [ring|]. rewrite IH. ring. Qed.

Lemma Qsum_const {A} (c : Q) (l : list A) :
  Qsum (fun _ => c) l == inject_Z (Z.of_nat (length l)) * c.
Proof.
  induction l as [|a l IH]; [simpl; ring|].
  cbn [Qsum foldr length]. fold (Qsum (fun _ : A => c) l). rewrite IH.
  rewrite Nat2Z.inj_succ. unfold Z.succ. rewrite inject_Z_plus. ring.
Qed.

Lemma Qsum_fmap {A B} (h : A -> B) (F : B -> Q) l : Qsum F (h <$> l) = Qsum (fun x => F (h x)) l.
Proof. induction l as [|a l IH]; [done|]. rewrite fmap_cons. simpl. by rewrite <- IH. Qed.

Lemma ind01_true (P : Prop) `{Decision P} : P -> ind01 P = 1.
Proof. intros HP. unfold ind01. by rewrite decide_True. Qed.

Lemma ind01_false (P : Prop) `{Decision P} : ~ P -> ind01 P = 0.
Proof. intros HP. unfold ind01. by rewrite decide_False. Qed.

Lemma ind01_iff (P P' : Prop) `{Decision P} `{Decision P'} : (P <-> P') -> ind01 P = ind01 P'.
Proof.
  intros HP. unfold ind01. destruct (decide P), (decide P'); tauto.
Qed.

Lemma ind01_and (P P' : Prop) `{Decision P} `{Decision P'} :
  ind01 (P /\ P') == ind01 P * ind01 P'.
Proof.
  unfold ind01. destruct (decide P), (decide P'), (decide (P /\ P')); try tauto; ring.
Qed.

Lemma Qsum_ind01 (y : Z) c l :
  NoDup l -> Qsum (fun x => ind01 (y = x) * c) l == ind01 (y ∈ l) * c.
Proof.
  induction 1 as [|x l Hx Hnd IH]; simpl.
  - rewrite ind01_false by apply not_elem_of_nil. ring.
  - rewrite IH. destruct (decide (y = x)) as [->|Hne].
    + rewrite (ind01_true (x = x)) by done.
      rewrite (ind01_false (x ∈ l)) by done.
      rewrite (ind01_true (x ∈ x :: l)) by left. ring.
    + rewrite (ind01_false (y = x)) by done.
      rewrite (ind01_iff (y ∈ x :: l) (y ∈ l)); [ring|].
      rewrite elem_of_cons. tauto.
Qed.

Context {A : Type}.
Implicit Types (t : Sampler A) (f g : res A -> Q).

Lemma Ex_ext N t f g : (forall r, f r == g r) -> Ex N t f == Ex N t g.
Proof.
  intros H. induction t as [r|k IH|n k IH]; simpl.
  - apply H.
  - apply Qdiv_comp; [|reflexivity]. apply Qsum_ext. intros i _. apply IH.
  - apply Qdiv_comp; [|reflexivity]. apply Qsum_ext. intros i _. apply IH.
Qed.

Lemma Ex_scale N t f c : Ex N t (fun r => c * f r) == c * Ex N t f.
Proof.
  induction t as [r|k IH|n k IH]; simpl.
  - reflexivity.
  - rewrite (Qsum_ext _ (fun i => c * Ex N (k (i # N)) f)) by (intros; apply IH).
    rewrite Qsum_scale. unfold Qdiv. ring.
  - rewrite (Qsum_ext _ (fun x => c * Ex N (k x) f)) by (intros; apply IH).
    rewrite Qsum_scale. unfold Qdiv. ring.
Qed.

Lemma Ex_zero N t f : (forall r, f r == 0) -> Ex N t f == 0.
Proof.
  intros H. rewrite (Ex_ext N t f (fun r => 0 * 1)).
  - rewrite Ex_scale. ring.
  - intros r. rewrite H. ring.
Qed.

Lemma Ex_random_test N (K : Q -> Sampler A) f p X Y :
  on_grid N p ->
  (forall u, Ex N (K u) f == if Qltb u p then X else Y) ->
  Ex N (Random K) f == p * X + (1 - p) * Y.
Proof.
  intros (a & Ha & Hp) HK. cbn [Ex].
  rewrite (Qsum_ext _ (fun i => if bool_decide (i < a)%Z then X else Y)).
  2: { intros i Hi. rewrite HK. apply elem_of_seqZ in Hi.
       assert (Hlt : Qltb (i # N) p = bool_decide (i < a)%Z).
       { unfold Qltb. destruct (Qle_bool p (i # N)) eqn:E.
         - apply Qle_bool_iff in E. rewrite Hp in E.
           unfold Qle in E. simpl in E.
           rewrite bool_decide_eq_false_2; [done|]. nia.
         - apply not_true_iff_false in E. rewrite Qle_bool_iff, Hp in E.
           unfold Qle in E. simpl in E.
           rewrite bool_decide_eq_true_2; [done|]. nia. }
       rewrite Hlt. reflexivity. }
  replace (Z.pos N) with (a + (Z.pos N - a))%Z at 1 by lia.
  rewrite seqZ_app by lia. rewrite Qsum_app.
  rewrite (Qsum_ext _ (fun _ => X)).
  2: { intros i Hi. apply elem_of_seqZ in Hi. rewrite bool_decide_eq_true_2 by lia.
       reflexivity. }
  rewrite (Qsum_ext (fun i => if bool_decide (i < a)%Z then X else Y) (fun _ => Y)
             (seqZ (0 + a) (Z.pos N - a))).
  2: { intros i Hi. apply elem_of_seqZ in Hi. rewrite bool_decide_eq_false_2 by lia.
       reflexivity. }
  rewrite !Qsum_const, !length_seqZ, !Z2Nat.id by lia.
  rewrite Hp. rewrite (Qmake_Qdiv a N).
  unfold Z.sub. rewrite inject_Z_plus, inject_Z_opp. field.
  intros E. apply (inject_Z_injective (Z.pos N) 0) in E. lia.
Qed.

End Expectation.

Section Laws.

Local Open Scope Q_scope.

Lemma Ex_bind {A B} N (t : Sampler A) (k : A -> Sampler B) (f : res B -> Q) :
  Ex N (s_bind t k) f ==
  Ex N t (fun r => match r with Ok a => Ex N (k a) f | Raise e => f (Raise e) end).
Proof.
  induction t as [[a|e]|k0 IH|n k0 IH]; simpl.
  - reflexivity.
  - reflexivity.
  - apply Qdiv_comp; [|reflexivity]. apply Qsum_ext. intros i _. apply IH.
  - apply Qdiv_comp; [|reflexivity]. apply Qsum_ext. intros i _. apply IH.
Qed.

Lemma Ex_randint {B} N lo hi (k : Z -> Sampler B) (f : res B -> Q) :
  Ex N (s_bind (s_randint lo hi) k) f ==
  if decide (lo <= hi)%Z then
    Qsum (fun x => Ex N (k x) f) (seqZ lo (hi - lo + 1)) / inject_Z (hi - lo + 1)
  else f (Raise ValueError).
Proof.
  unfold s_randint. destruct (decide (0 < hi + 1 - lo)%Z) as [Hn|Hn].
  - rewrite decide_True by lia. cbn [s_bind Ex].
    replace (hi + 1 - lo)%Z with (hi - lo + 1)%Z by lia.
    replace (seqZ lo (hi - lo + 1)) with (Z.add lo <$> seqZ 0 (hi - lo + 1)).
    2: { rewrite fmap_add_seqZ. f_equal. lia. }
    rewrite Qsum_fmap. reflexivity.
  - rewrite decide_False by lia. reflexivity.
Qed.

(** The probability of a value after a final [return h(r)]. *)
Lemma Ex_ret_map {A B} `{EqDecision B} N (t : Sampler A) (h : A -> B) (y : B) :
  Ex N (s_bind t (fun r => s_ret (h r))) (is_ok y) ==
  Ex N t (fun r => match r with Ok r0 => ind01 (y = h r0) | Raise _ => 0 end).
Proof. rewrite Ex_bind. apply Ex_ext. intros [r0|e]; reflexivity. Qed.

Lemma Ex_cons_ret {A} `{EqDecision A} N (t : Sampler (list A)) (c : A) (l' : list A) :
  Ex N (s_bind t (fun r => s_ret (c :: r))) (is_ok l') ==
  match l' with
  | [] => 0
  | y :: l0' => ind01 (y = c) * Ex N t (is_ok l0')
  end.
Proof.
  rewrite Ex_ret_map. destruct l' as [|y l0'].
  - apply Ex_zero. intros [r0|e]; [|reflexivity]. by rewrite ind01_false.
  - rewrite <- Ex_scale. apply Ex_ext. intros [r0|e]; simpl; [|ring].
    rewrite <- ind01_and. rewrite (ind01_iff (y :: l0' = c :: r0) (y = c /\ l0' = r0)).
    + reflexivity.
    + split; [by intros [= -> ->]|by intros [-> ->]].
Qed.

Lemma mutUniformInt_loop_law N p g low up g' :
  on_grid N p ->
  Ex N (mutUniformInt_loop_sampler g low up p) (is_ok g') == genome_weight p g low up g'.
Proof.
  intros Hp. revert low up g'. induction g as [|x g IH]; intros low up g'.
  { reflexivity. }
  destruct low as [|lo low]; [reflexivity|].
  destruct up as [|hi up]; [reflexivity|].
  cbn [mutUniformInt_loop_sampler genome_weight].
  set (K := fun x' : Z =>
              s_bind (mutUniformInt_loop_sampler g low up p) (fun r => s_ret (x' :: r))).
  change (Ex N (Random (fun u => s_bind (if Qltb u p then s_randint lo hi else s_ret x) K))
             (is_ok g') ==
          match g' with
          | [] => 0
          | x' :: g0' => gene_weight p lo hi x x' * genome_weight p g low up g0'
          end).
  rewrite (Ex_random_test N _ _ p
             (Ex N (s_bind (s_randint lo hi) K) (is_ok g')) (Ex N (K x) (is_ok g')) Hp).
  2: { intros u. destruct (Qltb u p); reflexivity. }
  rewrite Ex_randint. unfold K at 2. rewrite Ex_cons_ret.
  destruct g' as [|y g0'].
  - destruct (decide (lo <= hi)%Z); [|simpl; ring].
    rewrite (Qsum_ext _ (fun _ => 0)).
    + rewrite Qsum_const. unfold Qdiv. ring.
    + intros x' _. unfold K. by rewrite Ex_cons_ret.
  - rewrite IH. unfold gene_weight.
    destruct (decide (lo <= hi)%Z) as [Hle|Hgt].
    + rewrite (Qsum_ext _ (fun x' => ind01 (y = x') * genome_weight p g low up g0')).
      2: { intros x' _. unfold K. rewrite Ex_cons_ret, IH. reflexivity. }
      rewrite Qsum_ind01 by apply NoDup_seqZ.
      rewrite (ind01_iff (y ∈ seqZ lo (hi - lo + 1)) (lo <= y <= hi)%Z).
      2: { rewrite elem_of_seqZ. lia. }
      unfold Qdiv. ring.
    + rewrite (ind01_false (lo <= y <= hi)%Z) by lia. simpl. unfold Qdiv. ring.
Qed.

Lemma mutUniformInt_law N tb g g' :
  on_grid N (indpb tb) ->
  Ex N (mutUniformInt_sampler g (low tb) (up tb) (indpb tb)) (is_ok g')
  == mutate_weight tb g g'.
Proof.
  intros Hp. unfold mutUniformInt_sampler, mutate_weight.
  destruct (decide _); [reflexivity|].
  destruct (decide _); [reflexivity|].
  by apply mutUniformInt_loop_law.
Qed.

Lemma varAnd_mutate_law N tb mutpb l l' :
  on_grid N mutpb -> on_grid N (indpb tb) ->
  Ex N (varAnd_mutate_sampler tb mutpb l) (is_ok l') == mutation_weight tb mutpb l l'.
Proof.
  intros Hm Hp. revert l'. induction l as [|a l IH]; intros l'.
  { destruct l'; reflexivity. }
  cbn [varAnd_mutate_sampler].
  set (MU := mutUniformInt_sampler (genome a) (low tb) (up tb) (indpb tb)).
  set (K := fun a' : Individual =>
              s_bind (varAnd_mutate_sampler tb mutpb l) (fun r => s_ret (a' :: r))).
  change (Ex N (Random (fun u =>
                  s_bind (if Qltb u mutpb then s_bind MU (fun g => s_ret (mkInd g None))
                          else s_ret a) K)) (is_ok l')
          == mutation_weight tb mutpb (a :: l) l').
  assert (HK : forall a0,
             Ex N (K a0) (is_ok l') ==
             match l' with
             | [] => 0
             | a' :: l0' => ind01 (a' = a0) * mutation_weight tb mutpb l l0'
             end).
  { intros a0. unfold K. rewrite Ex_cons_ret. destruct l' as [|a' l0']; [reflexivity|].
    by rewrite IH. }
  rewrite (Ex_random_test N _ _ mutpb
             (Ex N (s_bind (s_bind MU (fun g => s_ret (mkInd g None))) K) (is_ok l'))
             (Ex N (K a) (is_ok l')) Hm).
  2: { intros u. destruct (Qltb u mutpb); reflexivity. }
  rewrite !Ex_bind. rewrite HK.
  destruct l' as [|a' l0'].
  - simpl. rewrite Ex_zero; [ring|].
    intros [g|e]; [|reflexivity]. simpl. by rewrite HK.
  - cbn [mutation_weight]. unfold individual_weight.
    rewrite (Ex_ext N MU _
               (fun r => (ind01 (fitness a' = None) * mutation_weight tb mutpb l l0')
                         * is_ok (genome a') r)).
    2: { intros [g|e]; simpl; [|ring]. rewrite HK.
         rewrite (ind01_iff (a' = mkInd g None) (fitness a' = None /\ genome a' = g)).
         - rewrite ind01_and. ring.
         - destruct a' as [g0 f0]. simpl. split; [by intros [= -> ->]|by intros [-> ->]]. }
    rewrite Ex_scale. unfold MU. rewrite mutUniformInt_law by done. ring.
Qed.

Lemma varAnd_mate_law N cxpb l l' :
  on_grid N cxpb ->
  Ex N (varAnd_mate_sampler cxpb l) (is_ok l') == crossover_weight N cxpb l l'.
Proof.
  intros Hc. revert l'.
  induction l as [l IH] using (induction_ltof1 _ length). unfold ltof in IH.
  intros l'. destruct l as [|a [|b l]]; [reflexivity..|].
  cbn [varAnd_mate_sampler crossover_weight].
  set (CX := cxTwoPoint_sampler (genome a) (genome b)).
  set (K := fun ab : Individual * Individual =>
              s_bind (varAnd_mate_sampler cxpb l) (fun r => s_ret (ab.1 :: ab.2 :: r))).
  change (Ex N (Random (fun u =>
                  s_bind (if Qltb u cxpb
                          then s_bind CX (fun g => s_ret (mkInd g.1 None, mkInd g.2 None))
                          else s_ret (a, b)) K)) (is_ok l')
          == match l' with
             | a' :: b' :: l0' => pair_weight N cxpb a b a' b' * crossover_weight N cxpb l l0'
             | _ => 0
             end).
  assert (HK : forall ab,
             Ex N (K ab) (is_ok l') ==
             match l' with
             | a' :: b' :: l0' =>
                 ind01 (a' = ab.1 /\ b' = ab.2) * crossover_weight N cxpb l l0'
             | _ => 0
             end).
  { intros ab. unfold K. rewrite Ex_ret_map.
    destruct l' as [|a' [|b' l0']].
    - apply Ex_zero. intros [r0|e]; [|reflexivity]. by rewrite ind01_false.
    - apply Ex_zero. intros [r0|e]; [|reflexivity]. by rewrite ind01_false.
    - rewrite <- (IH l) by (simpl; lia). rewrite <- Ex_scale. apply Ex_ext.
      intros [r0|e]; simpl; [|ring]. rewrite <- ind01_and.
      rewrite (ind01_iff (a' :: b' :: l0' = ab.1 :: ab.2 :: r0)
                 ((a' = ab.1 /\ b' = ab.2) /\ l0' = r0)).
      + reflexivity.
      + split; [by intros [= -> -> ->]|by intros [[-> ->] ->]]. }
  rewrite (Ex_random_test N _ _ cxpb
             (Ex N (s_bind (s_bind CX (fun g => s_ret (mkInd g.1 None, mkInd g.2 None))) K)
                 (is_ok l'))
             (Ex N (K (a, b)) (is_ok l')) Hc).
  2: { intros u. destruct (Qltb u cxpb); reflexivity. }
  rewrite !Ex_bind. rewrite HK.
  destruct l' as [|a' [|b' l0']].
  - rewrite Ex_zero; [ring|]. intros [g|e]; [|reflexivity]. simpl. by rewrite HK.
  - rewrite Ex_zero; [ring|]. intros [g|e]; [|reflexivity]. simpl. by rewrite HK.
  - unfold pair_weight. fold CX.
    rewrite (Ex_ext N CX _
               (fun r => (ind01 (fitness a' = None /\ fitness b' = None)
                          * crossover_weight N cxpb l l0')
                         * is_ok (genome a', genome b') r)).
    2: { intros [g|e]; simpl; [|ring]. rewrite HK. simpl.
         rewrite (ind01_iff (a' = mkInd g.1 None /\ b' = mkInd g.2 None)
                    ((fitness a' = None /\ fitness b' = None)
                     /\ (genome a', genome b') = g)).
         - rewrite ind01_and. ring.
         - destruct a' as [g1 f1], b' as [g2 f2], g as [h1 h2]. simpl.
           split; [by intros [[= -> ->] [= -> ->]]|by intros [[-> ->] [= -> ->]]]. }
    rewrite Ex_scale. simpl. ring.
Qed.

End Laws.

(** ** Variation *)


(** The mutation of the program differs from the per-gene mutation of the
    specification: on the tape [[600; 100; 6]] the individual is not
    selected for mutation and keeps its genes and its fitness, where the
    per-gene mutation draws its second gene again; and with fair coins
    the gene of a one-gene individual changes in one case of four, where
    the per-gene mutation with [mutpb = 1/2] changes it in two. *)
Lemma mutation_is_not_per_gene :
  let population := [mkInd [4; 3] (Some (7 # 1))] in
  let w := example_world [600; 100; 6] in
  (varAnd_mutate (R := TapeRNG) example_toolbox (1 # 2) population w).1
    = Ok [mkInd [4; 3] (Some (7 # 1))] /\
  (spec_mutation (R := TapeRNG) example_toolbox (1 # 2) population w).1 = Ok [[4; 2]] /\
  length (filter (fun t => code_changes_gene t = true) coin_tapes) = 1%nat /\
  length (filter (fun t => spec_changes_gene t = true) coin_tapes) = 2%nat.
Proof. vm_compute. done. Qed.

Section VariationClaims.

Context {R : RNG}.

(** C2, amended.  Variation is two-point crossover on the consecutive
    pairs followed by mutation, and it only draws from the random stream:
    for every generator it returns what the tree of its draws gives on
    the stream, and on genomes that fit the toolbox it returns normally.
    For draws that are uniform and independent, a pair is crossed with
    probability [cxpb], an individual is mutated with probability [mutpb]
    (one test per pair, one per individual), and inside a mutated
    individual each gene is drawn again with probability [indpb]
    (registered as 0.5), uniformly among the values within the bounds of
    its own dimension; pairs, individuals and genes are treated
    independently of one another, so that the probabilities of their
    outcomes multiply.  A crossed or mutated individual has no fitness. *)
Theorem varAnd_variation N n tb cxpb mutpb population :
  on_grid N cxpb -> on_grid N mutpb -> on_grid N (indpb tb) ->
  fit_toolbox n tb -> genomes n population ->
  follows (varAnd population tb cxpb mutpb) (varAnd_sampler population tb cxpb mutpb) /\
  (forall w, exists offspring s l,
     varAnd population tb cxpb mutpb w = (Ok offspring, with_rng w s) /\
     crossed population l /\ mutated tb l offspring) /\
  (forall f,
     Ex N (varAnd_sampler population tb cxpb mutpb) f ==
     Ex N (varAnd_mate_sampler cxpb population)
        (fun r => match r with
                  | Ok l => Ex N (varAnd_mutate_sampler tb mutpb l) f
                  | Raise e => f (Raise e)
                  end))%Q /\
  (forall l',
     Ex N (varAnd_mate_sampler cxpb population) (is_ok l')
     == crossover_weight N cxpb population l')%Q /\
  (forall l l',
     Ex N (varAnd_mutate_sampler tb mutpb l) (is_ok l')
     == mutation_weight tb mutpb l l')%Q.
Proof.
  intros Hc Hm Hp Htb Hg. split_and!.
  - apply varAnd_follows.
  - intros w.
    destruct (varAnd_draws n tb cxpb mutpb population w Htb Hg)
      as (offspring & w' & Hrun & [s ->] & (l & Hcr & Hmu) & _).
    exists offspring, s, l. done.
  - intros f. apply Ex_bind.
  - intros l'. by apply varAnd_mate_law.
  - intros l l'. by apply varAnd_mutate_law.
Qed.

End VariationClaims.

Lemma grid_half : on_grid 2 (1 # 2).
Proof. exists 1. split; [lia|reflexivity]. Qed.

Lemma varAnd_variation_witness :
  on_grid 2 (1 # 2) /\ on_grid 2 (indpb example_toolbox) /\
  fit_toolbox 2 example_toolbox /\ genomes 2 example_population /\
  follows (R := TapeRNG) (varAnd example_population example_toolbox (1 # 2) (1 # 2))
    (varAnd_sampler example_population example_toolbox (1 # 2) (1 # 2)) /\
  (forall w : @World TapeRNG, exists offspring s l,
     varAnd example_population example_toolbox (1 # 2) (1 # 2) w
       = (Ok offspring, with_rng w s) /\
     crossed example_population l /\ mutated example_toolbox l offspring) /\
  (forall f,
     Ex 2 (varAnd_sampler example_population example_toolbox (1 # 2) (1 # 2)) f ==
     Ex 2 (varAnd_mate_sampler (1 # 2) example_population)
        (fun r => match r with
                  | Ok l => Ex 2 (varAnd_mutate_sampler example_toolbox (1 # 2) l) f
                  | Raise e => f (Raise e)
                  end))%Q /\
  (forall l',
     Ex 2 (varAnd_mate_sampler (1 # 2) example_population) (is_ok l')
     == crossover_weight 2 (1 # 2) example_population l')%Q /\
  (forall l l',
     Ex 2 (varAnd_mutate_sampler example_toolbox (1 # 2) l) (is_ok l')
     == mutation_weight example_toolbox (1 # 2) l l')%Q.
Proof.
  assert (H1 : fit_toolbox 2 example_toolbox).
  { split; simpl; [lia|lia|repeat constructor; lia|lia]. }
  assert (H2 : genomes 2 example_population) by repeat constructor.
  split; [exact grid_half|]. split; [exact grid_half|].
  split; [exact H1|]. split; [exact H2|].
  exact (varAnd_variation (R := TapeRNG) 2 2 example_toolbox (1 # 2) (1 # 2)
           example_population grid_half grid_half grid_half H1 H2).
Defined.

(** With [mutpb = indpb = 1/2] and ten values for its gene, an individual
    of one gene is left as it is with probability [1/2], and comes out
    with a given other value for its gene with probability
    [1/2 * 1/2 * 1/10]. *)
Example mutation_probabilities :
  Qeq (Ex 2 (varAnd_mutate_sampler one_gene_toolbox (1 # 2) [mkInd [5] (Some (5 # 1))])
          (is_ok [mkInd [5] (Some (5 # 1))])) (1 # 2) /\
  Qeq (Ex 2 (varAnd_mutate_sampler one_gene_toolbox (1 # 2) [mkInd [5] (Some (5 # 1))])
          (is_ok [mkInd [7] None])) (1 # 40).
Proof.
  rewrite !(varAnd_mutate_law 2 one_gene_toolbox (1 # 2)) by exact grid_half.
  split; vm_compute; reflexivity.
Qed.

(** ** One generation *)

Section GenerationFacts.

Context {R : RNG}.
Variable evaluate_clf : list Z -> Q.
Variable correct : Hyperparam -> Z -> Q.

Lemma individual2dict_loop_ok ks g acc :
  (length ks <= length g)%nat -> exists d, individual2dict_loop correct ks g acc = Ok d.
Proof.
  revert g acc. induction ks as [|[k hp] ks IH]; intros g acc Hlen; simpl.
  - eauto.
  - destruct g as [|x g]; simpl in *; [lia|]. apply IH. lia.
Qed.

Lemma individual2dict_ok o g :
  (length (hyperparams o) <= length g)%nat -> exists d, individual2dict correct o g = Ok d.
Proof.
  intros Hlen. unfold individual2dict.
  destruct (individual2dict_loop_ok (hyperparams o) g ∅ Hlen) as [d ->]. eauto.
Qed.

Lemma quiet_nil : quiet [].
Proof. done. Qed.

Lemma quiet_app evs evs' : quiet evs -> quiet evs' -> quiet (evs ++ evs').
Proof.
  intros (H1 & H2 & H3) (H1' & H2' & H3').
  unfold quiet, evaluations, dumps, generations_started in *.
  rewrite !omap_app, H1, H2, H3, H1', H2', H3'. done.
Qed.

Lemma evaluate_loop_returns n tb g path total c population w lg :
  optimization_logger (self w) = Some lg ->
  (length (hyperparams (self w)) <= n)%nat ->
  genomes n population ->
  returns (evaluate_loop evaluate_clf correct tb g path total c population) w
    (fun r w' => exists evs,
       w' = with_trace w evs /\ r = evaluated evaluate_clf population /\
       evaluations evs = (if pool_map tb then [] else genome <$> invalid_ind population) /\
       dumps evs = [] /\ generations_started evs = []).
Proof.
  intros Hlg Hk Hg. revert c w Hlg Hk.
  induction Hg as [|ind rest Hind Hg IH]; intros c w Hlg Hk; simpl.
  - apply returns_ret. exists []. rewrite with_trace_nil. by destruct (pool_map tb).
  - unfold invalid_ind. rewrite filter_cons.
    destruct (valid ind) eqn:Hv.
    + rewrite decide_False by done.
      apply returns_bind. eapply returns_weaken; [by apply IH|].
      intros r w' (evs & -> & -> & He & Hd & Hs). apply returns_ret.
      exists evs. split_and!; try done.
    + rewrite decide_True by done.
      destruct (individual2dict_ok (self w) (genome ind)) as [d Hd]; [lia|].
      apply returns_bind.
      eapply returns_weaken with
        (P := fun _ w' => w' = with_trace w (if pool_map tb then [] else [EEvaluate (genome ind)])).
      { destruct (pool_map tb).
        - apply returns_ret. by rewrite with_trace_nil.
        - by apply returns_emit. }
      intros _ w1 ->.
      apply returns_bind. eapply returns_log; [exact Hlg|].
      apply returns_bind, returns_get_self.
      apply returns_bind. eapply returns_lift; [exact Hd|].
      apply returns_bind, returns_emit.
      apply returns_bind. eapply returns_weaken; [by apply IH|].
      intros r w' (evs & -> & -> & He & Hdu & Hs). apply returns_ret.
      rewrite !with_trace_trace. eexists. split; [reflexivity|].
      split; [done|].
      unfold evaluations, dumps, generations_started in *.
      rewrite !omap_app, He, Hdu, Hs. simpl.
      destruct (pool_map tb); simpl; done.
Qed.

Lemma pool_evaluate_returns tb l w :
  returns (pool_evaluate tb l) w
    (fun _ w' => exists evs,
       w' = with_trace w evs /\
       evaluations evs = (if pool_map tb then genome <$> l else []) /\
       dumps evs = [] /\ generations_started evs = []).
Proof.
  unfold pool_evaluate. destruct (pool_map tb).
  2: { apply returns_ret. exists []. by rewrite with_trace_nil. }
  revert w. induction l as [|ind l IH]; intros w; simpl.
  - apply returns_ret. exists []. by rewrite with_trace_nil.
  - apply returns_bind, returns_emit.
    eapply returns_weaken; [apply IH|].
    intros [] w' (evs & -> & He & Hd & Hs).
    rewrite with_trace_trace. eexists. split; [reflexivity|].
    unfold evaluations, dumps, generations_started in *.
    rewrite !omap_app, He, Hd, Hs. done.
Qed.

Lemma log_tops_returns i l w lg :
  optimization_logger (self w) = Some lg ->
  returns (log_tops i l) w (fun _ w' => exists evs, w' = with_trace w evs /\ quiet evs).
Proof.
  intros Hlg. revert i w Hlg. induction l as [|ind l IH]; intros i w Hlg; simpl.
  - apply returns_ret. exists []. by rewrite with_trace_nil.
  - unfold log_top.
    apply returns_bind.
    apply returns_bind. eapply returns_log; [exact Hlg|].
    apply returns_bind. eapply returns_log; [exact Hlg|].
    apply returns_bind. eapply returns_log; [exact Hlg|].
    eapply returns_log; [exact Hlg|].
    eapply returns_weaken; [by apply IH|].
    intros [] w' (evs & -> & Hq).
    rewrite !with_trace_trace. eexists. split; [reflexivity|].
    apply quiet_app; [|done]. done.
Qed.

Lemma evaluated_valid population :
  Forall (fun ind => valid ind = true) (evaluated evaluate_clf population).
Proof.
  apply Forall_fmap, Forall_forall. intros ind _. simpl.
  destruct (valid ind) eqn:E; [done|]. reflexivity.
Qed.

Lemma evaluated_genomes n population :
  genomes n population -> genomes n (evaluated evaluate_clf population).
Proof.
  intros Hg. apply Forall_fmap. eapply Forall_impl; [exact Hg|].
  intros ind Hl. simpl. by destruct (valid ind).
Qed.

Lemma stats_compile_ok population :
  population <> [] -> Forall (fun ind => valid ind = true) population ->
  exists s, stats_compile population = Ok s.
Proof.
  intros Hne Hv. unfold stats_compile.
  assert (exists vs, fitness_values population = Some vs /\ length vs = length population)
    as (vs & -> & Hl).
  { clear Hne. induction Hv as [|ind l Hind Hv IH]; simpl; [eauto|].
    destruct IH as (vs & -> & Hl). unfold valid in Hind.
    apply bool_decide_eq_true in Hind as [v ->]. exists (v :: vs). simpl. auto. }
  destruct vs as [|v vs]; [|eauto].
  destruct population; simpl in *; done.
Qed.

Lemma write_population_file_returns w rp :
  results_path (self w) = Some rp -> rp ∈ dirs w ->
  Forall (Forall (fun ind => valid ind = true)) (populations (self w)) ->
  Exists (fun p => p <> []) (populations (self w)) ->
  returns write_population_file w
    (fun _ w' => exists evs, w' = with_trace w evs /\ quiet evs).
Proof.
  intros Hrp Hdir Hv Hne. unfold write_population_file.
  apply returns_bind, returns_get_self. rewrite Hrp. simpl.
  apply returns_bind. eapply returns_lift; [reflexivity|].
  unfold population_2_df.
  replace (forallb (forallb valid) (populations (self w))) with true.
  2: { symmetry. apply forallb_forall. intros p Hp. apply forallb_forall. intros ind Hi.
       rewrite Forall_forall in Hv. apply list_elem_of_In in Hp, Hi.
       specialize (Hv p Hp). rewrite Forall_forall in Hv. by apply Hv. }
  apply returns_bind. eapply returns_lift; [reflexivity|].
  replace (forallb _ (populations (self w))) with false.
  2: { symmetry. apply not_true_iff_false. intros Hall.
       rewrite forallb_forall in Hall. apply Exists_exists in Hne as (p & Hp & Hpne).
       apply list_elem_of_In in Hp. specialize (Hall p Hp).
       by apply bool_decide_eq_true in Hall. }
  apply returns_bind, returns_in_folder; [done|].
  apply returns_emit. eexists. split; [reflexivity|]. done.
Qed.

Lemma write_logbook_file_returns w rp :
  results_path (self w) = Some rp -> rp ∈ dirs w ->
  returns write_logbook_file w
    (fun _ w' => exists evs, w' = with_trace w evs /\ quiet evs).
Proof.
  intros Hrp Hdir. unfold write_logbook_file.
  apply returns_bind, returns_get_self. rewrite Hrp. simpl.
  apply returns_bind. eapply returns_lift; [reflexivity|].
  apply returns_bind, returns_in_folder; [done|].
  apply returns_emit. eexists. split; [reflexivity|]. done.
Qed.

End GenerationFacts.


Section GenerationSpec.

Context {R : RNG}.
Variable evaluate_clf : list Z -> Q.
Variable correct : Hyperparam -> Z -> Q.

Lemma returns_dump cp path w (Q : unit -> World -> Prop) :
  Q tt (dumped w path cp) -> returns (dump cp path) w Q.
Proof. intros H. exists tt, (dumped w path cp). done. Qed.

Lemma returns_getstate w (Q : rstate -> World -> Prop) :
  Q (rng w) w -> returns getstate w Q.
Proof. intros H. exists (rng w), w. done. Qed.

Lemma returns_same {A} (m : M A) (a : A) w (Q : A -> World -> Prop) :
  m w = (Ok a, w) -> Q a w -> returns m w Q.
Proof. intros Hm H. exists a, w. done. Qed.

Lemma same_setup_refl o : same_setup o o.
Proof. repeat split. Qed.

(** A turn of the loop returns normally; [offspring] is what [varAnd]
    makes of the population on the random stream of the world. *)
Lemma generation_returns_of n tb cxpb mutpb cpp stats verbose flag population lb h g w :
  fit_toolbox n tb -> ready n (self w) -> folders_exist w ->
  genomes n population -> population <> [] ->
  hof_inv h -> (0 < maxsize h)%nat ->
  (flag = true -> exists p, cpp = Some p /\ p ∈ dirs w) ->
  returns (generation evaluate_clf correct tb cxpb mutpb cpp stats verbose flag
             (population, lb, Some h) g) w
    (fun r w' =>
       (exists offspring s,
          varAnd population tb cxpb mutpb w = (Ok offspring, with_rng w s) /\
          generation_outcome_of evaluate_clf tb cpp flag population lb h g w
            offspring r w') /\
       ready n (self w') /\ folders_exist w' /\ genomes n r.1.1 /\
       exists h', r.2 = Some h' /\ hof_inv h' /\ maxsize h' = maxsize h).
Proof.
  intros Htb [[lg Hlg] [pp Hpp] [rp Hrp] Hk Hpops] Hfold Hg Hne Hinv Hmax Hcp.
  assert (Hppd : pp ∈ dirs w) by (apply Hfold; by left).
  assert (Hrpd : rp ∈ dirs w) by (apply Hfold; by right).
  unfold generation.
  apply returns_bind, returns_get_self. rewrite Hpp. simpl.
  apply returns_bind. eapply returns_lift; [reflexivity|].
  apply returns_bind, returns_in_folder; [done|].
  apply returns_bind, returns_emit.
  apply returns_bind. eapply returns_log; [exact Hlg|].
  apply returns_bind.
  match goal with |- returns _ ?w0 _ =>
    destruct (varAnd_draws n tb cxpb mutpb population w0 Htb Hg)
      as (offspring & wv & Hrun & [s1 ->] & Hstruct & Hgo & Hvar & Hlen)
  end.
  assert (Hpin : varAnd population tb cxpb mutpb w = (Ok offspring, with_rng w s1)).
  { eapply follows_frame; [apply varAnd_follows| |exact Hrun]. reflexivity. }
  eexists offspring, _. split; [exact Hrun|].
  apply returns_bind. eapply returns_weaken; [apply pool_evaluate_returns|].
  intros [] w2 (evs2 & -> & He2 & Hd2 & Hs2).
  apply returns_bind.
  eapply returns_weaken; [by eapply (evaluate_loop_returns _ _ n)|].
  intros pop3 w3 (evs3 & -> & -> & He3 & Hd3 & Hs3).
  destruct (hof_update_ok h (evaluated evaluate_clf offspring) Hinv Hmax)
    as (h' & Hu & Hinv' & Hm' & _).
  apply returns_bind. eapply returns_lift; [exact Hu|].
  assert (Hne3 : evaluated evaluate_clf offspring <> []).
  { intros E. apply (f_equal length) in E. unfold evaluated in E.
    rewrite length_fmap, Hlen in E. destruct population; simpl in *; done. }
  destruct (stats_compile_ok (evaluated evaluate_clf offspring) Hne3
              (evaluated_valid _ _)) as [st Hst].
  apply returns_bind.
  eapply (returns_same _ (if stats then Some st else None)).
  { destruct stats; [|done]. unfold bind, lift, ret. by rewrite Hst. }
  set (rec := {| gen := g; nevals := _; stats_of := _ |}).
  apply returns_bind, returns_get_self.
  apply returns_bind, returns_put_self.
  apply returns_bind.
  match goal with |- returns _ ?w0 _ =>
    eapply returns_weaken with
      (P := fun _ w' => exists evs, w' = with_trace w0 evs /\ quiet evs)
  end.
  { destruct verbose.
    - eapply returns_log; [exact Hlg|]. eexists. split; [reflexivity|by repeat split].
    - apply returns_ret. exists []. split; [by rewrite with_trace_nil|apply quiet_nil]. }
  intros [] w4 (evs4 & -> & Hq4).
  apply returns_bind. eapply draws_returns.
  { apply selTournament_draws; [exact Hne3|by destruct Htb]. }
  intros sel s2 [Hsl Hsin].
  apply returns_bind. eapply returns_weaken; [by eapply log_tops_returns|].
  intros [] w5 (evs5 & -> & Hq5).
  apply returns_bind, returns_get_self.
  apply returns_bind, returns_put_self.
  assert (Hselv : Forall (fun ind => valid ind = true) sel).
  { apply Forall_forall. intros ind Hi. rewrite Forall_forall in Hsin.
    pose proof (evaluated_valid evaluate_clf offspring) as Hv.
    rewrite Forall_forall in Hv. by apply Hv, Hsin. }
  assert (Hselg : genomes n sel).
  { apply Forall_forall. intros ind Hi. rewrite Forall_forall in Hsin.
    pose proof (evaluated_genomes evaluate_clf n offspring Hgo) as Hv.
    unfold genomes in Hv. rewrite Forall_forall in Hv. by apply Hv, Hsin. }
  assert (Hselne : sel <> []).
  { intros ->. simpl in Hsl. unfold evaluated in Hsl. rewrite length_fmap, Hlen in Hsl.
    destruct population; simpl in *; done. }
  set (lb' := logbook_record lb rec) in *.
  apply returns_bind.
  match goal with |- returns _ ?w0 _ =>
    eapply returns_weaken with
      (P := fun _ w' => exists evs pk,
              w' = {| self := self w0; rng := rng w0; dirs := dirs w0;
                      pickles := pk; trace := trace w0 ++ evs |} /\
              evaluations evs = [] /\ generations_started evs = [] /\
              dumps evs = generation_dumps cpp flag
                            {| cp_population := sel; cp_generation := g;
                               cp_halloffame := h'; cp_logbook := lb';
                               cp_rndstate := rng w0 |})
  end.
  { destruct flag.
    - destruct (Hcp eq_refl) as (p & -> & Hpd).
      apply returns_bind, returns_getstate.
      apply returns_bind. eapply returns_lift; [reflexivity|].
      apply returns_bind, returns_in_folder; [done|].
      apply returns_dump. eexists [EDump _ _], _. split; [reflexivity|]. done.
    - apply returns_ret. exists [], (pickles w). simpl. rewrite app_nil_r. done. }
  intros [] w6 (evs6 & pk & -> & He6 & Hs6 & Hd6).
  destruct Hq4 as (He4 & Hd4 & Hs4). destruct Hq5 as (He5 & Hd5 & Hs5).
  apply returns_bind.
  eapply returns_weaken; [eapply write_population_file_returns; simpl|].
  { exact Hrp. }
  { exact Hrpd. }
  { apply Forall_app. split; [done|]. by repeat constructor. }
  { apply Exists_app. right. by constructor. }
  intros [] w7 (evs7 & -> & (He7 & Hd7 & Hs7)).
  apply returns_bind.
  eapply returns_weaken; [eapply write_logbook_file_returns; simpl; [exact Hrp|exact Hrpd]|].
  intros [] w8 (evs8 & -> & (He8 & Hd8 & Hs8)).
  apply returns_ret. split_and!.
  - exists offspring, s1. split; [exact Hpin|]. exists sel, rec, h'. eexists.
    do 6 (split; [done|]).
    split; [simpl; unfold evaluated in Hsl; by rewrite length_fmap, Hlen in Hsl|].
    split; [done|].
    split; [simpl; rewrite <- !app_assoc; reflexivity|].
    split.
    { unfold evaluations in *. rewrite !omap_app.
      rewrite He2, He3, He4, He5, He6, He7, He8. simpl.
      unfold invalid_ind. destruct (pool_map tb); simpl; by rewrite ?app_nil_r. }
    split.
    { unfold generations_started in *. rewrite !omap_app.
      rewrite Hs2, Hs3, Hs4, Hs5, Hs6, Hs7, Hs8. done. }
    split.
    { unfold dumps in *. rewrite !omap_app.
      rewrite Hd2, Hd3, Hd4, Hd5, Hd6, Hd7, Hd8. simpl. by rewrite app_nil_r. }
    split; [done|]. split; [done|]. split; [|done].
    by repeat split.
  - simpl. split; simpl; eauto.
    apply Forall_app. split; [done|]. by repeat constructor.
  - exact Hfold.
  - done.
  - eauto.
Qed.

Lemma generation_returns n tb cxpb mutpb cpp stats verbose flag population lb h g w :
  fit_toolbox n tb -> ready n (self w) -> folders_exist w ->
  genomes n population -> population <> [] ->
  hof_inv h -> (0 < maxsize h)%nat ->
  (flag = true -> exists p, cpp = Some p /\ p ∈ dirs w) ->
  returns (generation evaluate_clf correct tb cxpb mutpb cpp stats verbose flag
             (population, lb, Some h) g) w
    (fun r w' =>
       generation_outcome evaluate_clf tb cpp flag population lb h g w r w' /\
       ready n (self w') /\ folders_exist w' /\ genomes n r.1.1 /\
       exists h', r.2 = Some h' /\ hof_inv h' /\ maxsize h' = maxsize h).
Proof.
  intros Htb Hr Hfold Hg Hne Hinv Hmax Hcp.
  eapply returns_weaken; [by apply (generation_returns_of n)|].
  intros r w' ((offspring & s & _ & Hout) & Hrest).
  split; [by exists offspring|exact Hrest].
Qed.

End GenerationSpec.

(** ** The loop *)


Section LoopSpec.

Context {R : RNG}.
Variable evaluate_clf : list Z -> Q.
Variable correct : Hyperparam -> Z -> Q.

Lemma for_each_app {A S} (f : S -> A -> M S) l1 l2 s w :
  for_each f (l1 ++ l2) s w =
    match for_each f l1 s w with
    | (Ok s1, w1) => for_each f l2 s1 w1
    | (Raise e, w1) => (Raise e, w1)
    end.
Proof.
  revert s w. induction l1 as [|x l1 IH]; intros s w; [done|].
  simpl. unfold bind. destruct (f s x w) as [[s0|e] w0]; [apply IH|done].
Qed.

(** The loop returns normally, and what it needs to run holds again
    when it ends. *)
Lemma for_each_generation_returns_inv n tb cxpb mutpb cpp stats verbose flag gens
    population lb h w :
  fit_toolbox n tb -> ready n (self w) -> folders_exist w ->
  genomes n population -> population <> [] ->
  hof_inv h -> (0 < maxsize h)%nat ->
  (flag = true -> exists p, cpp = Some p /\ p ∈ dirs w) ->
  returns (for_each (generation evaluate_clf correct tb cxpb mutpb cpp stats verbose flag)
             gens (population, lb, Some h)) w
    (fun r w' =>
       run_outcome evaluate_clf tb cpp flag gens population lb h w r w' /\
       ready n (self w') /\ folders_exist w' /\ genomes n r.1.1 /\ r.1.1 <> [] /\
       dirs w' = dirs w /\
       exists h', r.2 = Some h' /\ hof_inv h' /\ maxsize h' = maxsize h).
Proof.
  intros Htb Hr Hf Hg Hne Hinv Hmax Hcp.
  revert population lb h w Hr Hf Hg Hne Hinv Hmax Hcp.
  induction gens as [|g gens IH];
    intros population lb h w Hr Hf Hg Hne Hinv Hmax Hcp; simpl.
  - apply returns_ret. split_and!; try done. eauto.
  - apply returns_bind.
    eapply returns_weaken; [by apply (generation_returns _ _ n)|].
    intros [[pop1 lb1] hof1] w1 (Hout & Hr1 & Hf1 & Hg1 & h1 & Hh1 & Hinv1 & Hm1).
    simpl in *. subst hof1.
    assert (Hne1 : pop1 <> []).
    { destruct Hout as (off & sel & rec & h' & evs & _ & _ & E & _ & _ & _ & Hl & _).
      simplify_eq. intros ->. destruct population; simpl in *; done. }
    assert (Hd1 : dirs w1 = dirs w).
    { by destruct Hout as (off & sel & rec & h' & evs & _ & _ & _ & _ & _ & _ & _ & _
                            & _ & _ & _ & _ & _ & _ & _ & Hd). }
    eapply returns_weaken; [apply IH; try done; [lia|by rewrite Hd1]|].
    intros r w' (Hrun & Hr' & Hf' & Hg' & Hne' & Hd' & h2 & Hh2 & Hinv2 & Hm2).
    split_and!; try done.
    + exists pop1, lb1, h1, w1. done.
    + congruence.
    + exists h2. split_and!; [done|done|lia].
Qed.

Lemma for_each_generation_returns n tb cxpb mutpb cpp stats verbose flag gens
    population lb h w :
  fit_toolbox n tb -> ready n (self w) -> folders_exist w ->
  genomes n population -> population <> [] ->
  hof_inv h -> (0 < maxsize h)%nat ->
  (flag = true -> exists p, cpp = Some p /\ p ∈ dirs w) ->
  returns (for_each (generation evaluate_clf correct tb cxpb mutpb cpp stats verbose flag)
             gens (population, lb, Some h)) w
    (run_outcome evaluate_clf tb cpp flag gens population lb h w).
Proof.
  intros Htb Hr Hf Hg Hne Hinv Hmax Hcp.
  eapply returns_weaken; [by apply (for_each_generation_returns_inv n)|].
  by intros r w' [Hrun _].
Qed.

(** Past its test of the checkpoint folder, [custom_ea_simple] is its
    loop. *)
Lemma custom_ea_simple_loop population tb lb cxpb mutpb start_gen ngen cpp stats hof
    verbose flag w :
  (flag = true -> exists p, cpp = Some p /\ p ∈ dirs w) ->
  custom_ea_simple evaluate_clf correct population tb lb cxpb mutpb start_gen ngen
    cpp stats hof verbose flag w
  = for_each (generation evaluate_clf correct tb cxpb mutpb cpp stats verbose flag)
      (seqZ start_gen (ngen + 1 - start_gen)) (population, lb, hof) w.
Proof.
  intros Hcp. unfold custom_ea_simple, bind.
  destruct flag; [|done]. destruct (Hcp eq_refl) as (p & -> & Hp).
  unfold not_a_folder, bind, isdir, ret. by rewrite bool_decide_eq_true_2.
Qed.

Lemma custom_ea_simple_returns n population tb lb cxpb mutpb start_gen ngen cpp
    stats h verbose flag w :
  fit_toolbox n tb -> ready n (self w) -> folders_exist w ->
  genomes n population -> population <> [] ->
  hof_inv h -> (0 < maxsize h)%nat ->
  (flag = true -> exists p, cpp = Some p /\ p ∈ dirs w) ->
  returns (custom_ea_simple evaluate_clf correct population tb lb cxpb mutpb
             start_gen ngen cpp stats (Some h) verbose flag) w
    (run_outcome evaluate_clf tb cpp flag (seqZ start_gen (ngen + 1 - start_gen))
       population lb h w).
Proof.
  intros Htb Hr Hf Hg Hne Hinv Hmax Hcp. unfold custom_ea_simple.
  apply returns_bind. eapply (returns_same _ false).
  { destruct flag; [|done]. destruct (Hcp eq_refl) as (p & -> & Hp).
    unfold not_a_folder, bind, isdir, ret. by rewrite bool_decide_eq_true_2. }
  by apply for_each_generation_returns with (n := n).
Qed.

End LoopSpec.

(** ** Consequences for a run *)

Section RunFacts.

Context {R : RNG}.
Variable evaluate_clf : list Z -> Q.
Variable correct : Hyperparam -> Z -> Q.

Lemma same_setup_trans o1 o2 o3 : same_setup o1 o2 -> same_setup o2 o3 -> same_setup o1 o3.
Proof.
  unfold same_setup. intros H12 H23.
  destruct H12 as (?&?&?&?&?&?&?&?&?&?), H23 as (?&?&?&?&?&?&?&?&?&?).
  split_and!; congruence.
Qed.

(** The shape of the trace of a run: the generations started, the
    records added to the logbook, the checkpoints written and the values
    returned. *)
Lemma run_outcome_facts tb cpp flag gens population lb h w r w' :
  run_outcome evaluate_clf tb cpp flag gens population lb h w r w' ->
  exists fpop flb fh evs new,
    r = (fpop, flb, Some fh) /\
    trace w' = trace w ++ evs /\
    generations_started evs = gens /\
    (header flb = header lb /\ chapters flb = chapters lb ++ new /\ gen <$> new = gens) /\
    length (evaluations evs) = sum_list (nevals <$> new) /\
    same_setup (self w) (self w') /\ dirs w' = dirs w /\
    (flag = false -> dumps evs = []) /\
    (forall p, flag = true -> cpp = Some p ->
       Forall2 (fun g d => d.1 = cp_file p g /\ cp_generation d.2 = g) gens (dumps evs)) /\
    (gens <> [] ->
       logbook (self w') = Some flb /\ last (populations (self w')) = Some fpop) /\
    (forall p g, flag = true -> cpp = Some p -> last gens = Some g ->
       last (dumps evs) =
         Some (cp_file p g,
               {| cp_population := fpop; cp_generation := g; cp_halloffame := fh;
                  cp_logbook := flb; cp_rndstate := rng w' |})).
Proof.
  revert population lb h w. induction gens as [|g gens IH]; intros population lb h w; simpl.
  - intros [-> ->]. exists population, lb, h, [], []. rewrite !app_nil_r.
    split_and!; try done.
  - intros (pop1 & lb1 & h1 & w1 & Hgen & Hrun).
    destruct (IH _ _ _ _ Hrun)
      as (fpop & flb & fh & evs & new & -> & Ht & Hs & (Hh & Hc & Hn) & He & Hss & Hd
          & Hnd & Hdu & Hlast & Hlastd).
    destruct Hgen as (off & sel & rec & h' & evs1 & _ & _ & E & Hg & Hnev & _ & _ & _
                      & Ht1 & He1 & Hs1 & Hdu1 & Hp1 & Hl1 & Hss1 & Hd1).
    injection E as -> -> ->.
    exists fpop, flb, fh, (evs1 ++ evs), (rec :: new). split_and!; try done.
    + rewrite Ht, Ht1. by rewrite app_assoc.
    + unfold generations_started in *. rewrite omap_app, Hs1, Hs. done.
    + rewrite Hc. simpl. by rewrite <- app_assoc.
    + by rewrite fmap_cons, Hg, Hn.
    + unfold evaluations in *. rewrite omap_app, length_app, He1, length_fmap, He.
      simpl. by rewrite Hnev.
    + by eapply same_setup_trans.
    + congruence.
    + intros ->. unfold dumps in *. rewrite omap_app, Hdu1, Hnd; done.
    + intros p -> ->. unfold dumps in *. rewrite omap_app, Hdu1. simpl.
      constructor; [done|]. by apply Hdu.
    + intros _. destruct gens as [|g' gens].
      * simpl in Hrun. destruct Hrun as [E ->]. injection E as -> -> ->.
        rewrite Hl1, Hp1, last_snoc. done.
      * by apply Hlast.
    + intros p g0 -> -> Hg0. unfold dumps in *. rewrite omap_app, Hdu1. simpl.
      destruct gens as [|g' gens].
      * simpl in Hrun, Hg0. destruct Hrun as [E ->]. injection E as -> -> ->.
        injection Hg0 as <-.
        pose proof (Hdu p eq_refl eq_refl) as Hnd'.
        apply Forall2_nil_inv_l in Hnd'. rewrite Hnd'. done.
      * specialize (Hlastd p g0 eq_refl eq_refl Hg0).
        rewrite last_cons. by rewrite Hlastd.
Qed.

End RunFacts.

(** ** The claims about the loop *)


Lemma example_loop_ready flag :
  loop_ready (R := TapeRNG) 2 example_toolbox example_population (hof_new 10)
    (Some "out/run/checkpoints") flag (example_world example_tape).
Proof.
  split.
  - split; simpl; [lia|lia|repeat constructor; lia|lia].
  - split; simpl; eauto.
  - repeat constructor.
  - done.
  - apply hof_new_inv.
  - simpl. lia.
  - intros d [Hd|Hd]; simpl in Hd; injection Hd as <-; simpl; set_solver.
  - intros _. eexists. split; [reflexivity|]. simpl. set_solver.
Qed.

Section LoopClaims.

Context {R : RNG}.
Variable evaluate_clf : list Z -> Q.
Variable correct : Hyperparam -> Z -> Q.

Lemma last_seqZ start len : 0 < len -> last (seqZ start len) = Some (start + len - 1).
Proof.
  intros Hlen. rewrite last_lookup, length_seqZ.
  rewrite lookup_seqZ_lt by lia. f_equal. lia.
Qed.

Lemma run_returns n population tb lb cxpb mutpb start_gen ngen cpp stats h verbose flag w :
  loop_ready n tb population h cpp flag w ->
  exists r w',
    custom_ea_simple evaluate_clf correct population tb lb cxpb mutpb
      start_gen ngen cpp stats (Some h) verbose flag w = (Ok r, w') /\
    run_outcome evaluate_clf tb cpp flag (seqZ start_gen (ngen + 1 - start_gen))
      population lb h w r w'.
Proof.
  intros [Htb Hr Hg Hne Hinv Hmax Hf Hcp].
  by apply (custom_ea_simple_returns evaluate_clf correct n).
Qed.

(** C7.  Set up as [optimize_clf] sets it up, the loop returns normally
    after having run the generations [start_gen], ..., [ngen], in this
    order, that is [ngen + 1] of them from [start_gen = 0]; it has added
    one record per generation to the logbook, and what it returns is the
    state after the last generation: the logbook is [self.logbook], the
    population is the last one recorded, and the last checkpoint holds
    the three values returned. *)
Theorem custom_ea_simple_generations n population tb lb cxpb mutpb start_gen ngen
    cpp stats h verbose flag w :
  loop_ready n tb population h cpp flag w ->
  exists fpop flb fh w' evs new,
    custom_ea_simple evaluate_clf correct population tb lb cxpb mutpb
      start_gen ngen cpp stats (Some h) verbose flag w
      = (Ok (fpop, flb, Some fh), w') /\
    trace w' = trace w ++ evs /\
    generations_started evs = seqZ start_gen (ngen + 1 - start_gen) /\
    (start_gen = 0 -> length (generations_started evs) = Z.to_nat (ngen + 1)) /\
    chapters flb = chapters lb ++ new /\
    gen <$> new = seqZ start_gen (ngen + 1 - start_gen) /\
    (start_gen <= ngen ->
       logbook (self w') = Some flb /\
       last (populations (self w')) = Some fpop /\
       forall p, flag = true -> cpp = Some p ->
         last (dumps evs) =
           Some (cp_file p ngen,
                 {| cp_population := fpop; cp_generation := ngen; cp_halloffame := fh;
                    cp_logbook := flb; cp_rndstate := rng w' |})).
Proof.
  intros Hready.
  destruct (run_returns n population tb lb cxpb mutpb start_gen ngen cpp stats h
              verbose flag w Hready) as (r & w' & Hrun & Hout).
  destruct (run_outcome_facts _ _ _ _ _ _ _ _ _ _ _ Hout)
    as (fpop & flb & fh & evs & new & -> & Ht & Hs & (Hh & Hc & Hn) & He & Hss & Hd
        & Hnd & Hdu & Hlast & Hlastd).
  exists fpop, flb, fh, w', evs, new. split_and!; try done.
  - intros ->. rewrite Hs, length_seqZ. f_equal. lia.
  - intros Hle.
    assert (Hl : last (seqZ start_gen (ngen + 1 - start_gen)) = Some ngen).
    { rewrite last_seqZ by lia. f_equal. lia. }
    destruct Hlast as [Hlb Hp].
    { intros E. rewrite E in Hl. done. }
    split_and!; [done|done|]. intros p Hf Hcpp. by apply Hlastd.
Qed.

End LoopClaims.

Lemma custom_ea_simple_generations_witness :
  loop_ready (R := TapeRNG) 2 example_toolbox example_population (hof_new 10)
    (Some "out/run/checkpoints") true (example_world example_tape) /\
  exists fpop flb fh w' evs new,
    custom_ea_simple (R := TapeRNG) example_evaluate example_correct example_population
      example_toolbox logbook_new (1 # 2) (1 # 2) 0 1 (Some "out/run/checkpoints")
      true (Some (hof_new 10)) true true (example_world example_tape)
      = (Ok (fpop, flb, Some fh), w') /\
    trace w' = trace (example_world example_tape) ++ evs /\
    generations_started evs = seqZ 0 (1 + 1 - 0) /\
    (0 = 0 -> length (generations_started evs) = Z.to_nat (1 + 1)) /\
    chapters flb = chapters logbook_new ++ new /\
    gen <$> new = seqZ 0 (1 + 1 - 0) /\
    (0 <= 1 ->
       logbook (self w') = Some flb /\
       last (populations (self w')) = Some fpop /\
       forall p, true = true -> Some "out/run/checkpoints" = Some p ->
         last (dumps evs) =
           Some (cp_file p 1,
                 {| cp_population := fpop; cp_generation := 1; cp_halloffame := fh;
                    cp_logbook := flb; cp_rndstate := rng w' |})).
Proof.
  split; [apply example_loop_ready|].
  apply (custom_ea_simple_generations example_evaluate example_correct 2).
  apply example_loop_ready.
Defined.

(** *** Checkpoint files *)

Lemma string_length_app s t : String.length (s +:+ t) = (String.length s + String.length t)%nat.
Proof. induction s as [|c s IH]; simpl; [done|]. by rewrite IH. Qed.

Lemma string_app_inj_r s1 s2 t : s1 +:+ t = s2 +:+ t -> s1 = s2.
Proof.
  revert s2. induction s1 as [|c s1 IH]; intros s2 H.
  - destruct s2 as [|c' s2]; [done|].
    apply (f_equal String.length) in H. rewrite !string_length_app in H. simpl in H. lia.
  - destruct s2 as [|c' s2].
    + apply (f_equal String.length) in H. rewrite !string_length_app in H. simpl in H. lia.
    + simpl in H. injection H as -> H. f_equal. by apply IH.
Qed.

Lemma cp_file_inj p : Inj (=) (=) (cp_file p).
Proof.
  intros g g' H. unfold cp_file, join in H. simpl in H.
  destruct (bool_decide (p = "") || ends_with_sep p).
  - apply String.app_inj in H. simpl in H. injection H as H.
    change ("" +:+ ?x) with x in H.
    apply string_app_inj_r in H. by apply pretty_Z_inj in H.
  - apply String.app_inj in H. simpl in H. injection H as H.
    change ("" +:+ ?x) with x in H.
    apply string_app_inj_r in H. by apply pretty_Z_inj in H.
Qed.

Section CheckpointClaims.

Context {R : RNG}.
Variable evaluate_clf : list Z -> Q.
Variable correct : Hyperparam -> Z -> Q.

(** C8, amended.  With [checkpoint_flag] set, the run writes exactly one
    checkpoint for each generation [g] it completes, in the file
    [cp_gen_<g>.pkl] of [checkpoint_path].  The record written for [g]
    holds what the loop has at the end of that generation, which is what
    it returns when it is asked to stop at [g]: the population selected
    (the last one recorded by the optimizer), [g] itself, the hall of
    fame, the logbook (the optimizer's), and the state of the random
    stream at that moment.  The files of different generations have
    different names, so no file is written twice.  Without the flag no
    checkpoint is written. *)
Theorem checkpoint_per_generation n population tb lb cxpb mutpb start_gen ngen
    cpp stats h verbose flag w :
  loop_ready n tb population h cpp flag w ->
  exists r w' evs,
    custom_ea_simple evaluate_clf correct population tb lb cxpb mutpb
      start_gen ngen cpp stats (Some h) verbose flag w = (Ok r, w') /\
    trace w' = trace w ++ evs /\
    generations_started evs = seqZ start_gen (ngen + 1 - start_gen) /\
    (flag = false -> dumps evs = []) /\
    (forall p, flag = true -> cpp = Some p ->
       Forall2 (fun g d =>
                  exists fpop flb fh wg,
                    custom_ea_simple evaluate_clf correct population tb lb cxpb mutpb
                      start_gen g cpp stats (Some h) verbose flag w
                      = (Ok (fpop, flb, Some fh), wg) /\
                    last (populations (self wg)) = Some fpop /\
                    logbook (self wg) = Some flb /\
                    d = (cp_file p g,
                         {| cp_population := fpop; cp_generation := g;
                            cp_halloffame := fh; cp_logbook := flb;
                            cp_rndstate := rng wg |}))
               (seqZ start_gen (ngen + 1 - start_gen)) (dumps evs) /\
       NoDup (fst <$> dumps evs)).
Proof.
  intros Hready.
  destruct (run_returns evaluate_clf correct n population tb lb cxpb mutpb start_gen
              ngen cpp stats h verbose flag w Hready) as (r & w' & Hrun & Hout).
  destruct (run_outcome_facts _ _ _ _ _ _ _ _ _ _ _ Hout)
    as (fpop & flb & fh & evs & new & -> & Ht & Hs & (Hh & Hc & Hn) & He & Hss & Hd
        & Hnd & Hdu & Hlast & Hlastd).
  eexists _, w', evs. split_and!; try done.
  intros p Hf Hcpp. specialize (Hdu p Hf Hcpp).
  assert (Hpaths : fst <$> dumps evs = cp_file p <$> seqZ start_gen (ngen + 1 - start_gen)).
  { clear -Hdu. induction Hdu as [|g d gs ds [Hd _] _ IH]; [done|].
    rewrite !fmap_cons, IH, Hd. done. }
  split; [|rewrite Hpaths; apply NoDup_fmap_2; [apply cp_file_inj|apply NoDup_seqZ]].
  apply Forall2_same_length_lookup_2; [by eapply Forall2_length|].
  intros i g d Hg Hdi.
  apply lookup_seqZ in Hg as [-> Hi].
  destruct Hready as [Htb Hr Hgen Hne Hinv Hmax Hfold Hcp].
  set (l1 := seqZ start_gen (Z.of_nat i + 1)).
  set (l2 := seqZ (start_gen + (Z.of_nat i + 1)) (ngen + 1 - start_gen - (Z.of_nat i + 1))).
  assert (Hsplit : seqZ start_gen (ngen + 1 - start_gen) = l1 ++ l2).
  { unfold l1, l2. rewrite <- seqZ_app by lia. f_equal. lia. }
  destruct (for_each_generation_returns_inv evaluate_clf correct n tb cxpb mutpb cpp
              stats verbose flag l1 population lb h w)
    as (r1 & w1 & Hrun1 & Hout1 & Hr1 & Hfold1 & Hgen1 & Hne1 & Hd1 & h1 & Hh1 & Hinv1 & Hm1);
    try done.
  destruct (run_outcome_facts _ _ _ _ _ _ _ _ _ _ _ Hout1)
    as (fpop1 & flb1 & fh1 & evs1 & new1 & -> & Ht1 & Hs1 & _ & _ & _ & _
        & _ & Hdu1 & Hlast1 & Hlastd1).
  simpl in Hgen1, Hne1, Hh1. injection Hh1 as <-.
  destruct (for_each_generation_returns_inv evaluate_clf correct n tb cxpb mutpb cpp
              stats verbose flag l2 fpop1 flb1 fh1 w1)
    as (r2 & w2 & Hrun2 & Hout2 & _); try done; [lia|by rewrite Hd1|].
  destruct (run_outcome_facts _ _ _ _ _ _ _ _ _ _ _ Hout2)
    as (fpop2 & flb2 & fh2 & evs2 & new2 & -> & Ht2 & _).
  rewrite custom_ea_simple_loop in Hrun by done.
  rewrite Hsplit, for_each_app in Hrun. rewrite Hrun1, Hrun2 in Hrun.
  injection Hrun as _ _ _ <-.
  assert (Hevs : evs = evs1 ++ evs2).
  { rewrite Ht2, Ht1, <- app_assoc in Ht. by apply app_inv_head in Ht. }
  assert (Hlen1 : length (dumps evs1) = S i).
  { rewrite <- (Forall2_length _ _ _ (Hdu1 p Hf Hcpp)). unfold l1.
    rewrite length_seqZ. lia. }
  assert (Hg1 : last l1 = Some (start_gen + Z.of_nat i)).
  { unfold l1. rewrite last_seqZ by lia. f_equal. lia. }
  specialize (Hlastd1 p _ Hf Hcpp Hg1).
  rewrite last_lookup, Hlen1 in Hlastd1. simpl in Hlastd1.
  unfold dumps in Hdi. rewrite Hevs, omap_app in Hdi. fold (dumps evs1) in Hdi.
  rewrite lookup_app_l in Hdi by (rewrite Hlen1; lia).
  rewrite Hlastd1 in Hdi. injection Hdi as <-.
  destruct Hlast1 as [Hlb1 Hp1].
  { intros E. rewrite E in Hg1. done. }
  exists fpop1, flb1, fh1, w1. split_and!; try done.
  rewrite custom_ea_simple_loop by done.
  replace (start_gen + Z.of_nat i + 1 - start_gen) with (Z.of_nat i + 1) by lia.
  exact Hrun1.
Qed.

End CheckpointClaims.

Lemma checkpoint_per_generation_witness :
  loop_ready (R := TapeRNG) 2 example_toolbox example_population (hof_new 10)
    (Some "out/run/checkpoints") true (example_world example_tape) /\
  exists r w' evs,
    custom_ea_simple (R := TapeRNG) example_evaluate example_correct example_population
      example_toolbox logbook_new (1 # 2) (1 # 2) 0 1 (Some "out/run/checkpoints")
      true (Some (hof_new 10)) true true (example_world example_tape) = (Ok r, w') /\
    trace w' = trace (example_world example_tape) ++ evs /\
    generations_started evs = seqZ 0 (1 + 1 - 0) /\
    (true = false -> dumps evs = []) /\
    (forall p, true = true -> Some "out/run/checkpoints" = Some p ->
       Forall2 (fun g d =>
                  exists fpop flb fh wg,
                    custom_ea_simple (R := TapeRNG) example_evaluate example_correct
                      example_population example_toolbox logbook_new (1 # 2) (1 # 2)
                      0 g (Some "out/run/checkpoints") true (Some (hof_new 10)) true true
                      (example_world example_tape)
                      = (Ok (fpop, flb, Some fh), wg) /\
                    last (populations (self wg)) = Some fpop /\
                    logbook (self wg) = Some flb /\
                    d = (cp_file p g,
                         {| cp_population := fpop; cp_generation := g;
                            cp_halloffame := fh; cp_logbook := flb;
                            cp_rndstate := rng wg |}))
               (seqZ 0 (1 + 1 - 0)) (dumps evs) /\
       NoDup (fst <$> dumps evs)).
Proof.
  split; [apply example_loop_ready|].
  apply (checkpoint_per_generation example_evaluate example_correct 2).
  apply example_loop_ready.
Defined.

(** With [checkpoint_flag=False] a generation completes and no checkpoint
    is written. *)
Lemma no_checkpoint_without_flag :
  let r := custom_ea_simple (R := TapeRNG) example_evaluate example_correct
             example_population example_toolbox logbook_new (1 # 2) (1 # 2) 0 0
             (Some "out/run/checkpoints") true (Some (hof_new 10)) true false
             (example_world example_tape) in
  (exists locals, r.1 = Ok locals) /\
  generations_started (trace r.2) = [0] /\
  dumps (trace r.2) = [].
Proof.
  vm_compute. split; [|done]. eexists. reflexivity.
Qed.

(** *** Evaluation *)

Section EvaluationClaims.

Context {R : RNG}.
Variable evaluate_clf : list Z -> Q.
Variable correct : Hyperparam -> Z -> Q.

(** C3.  In a generation, [toolbox.evaluate] is called exactly on the
    individuals that come out of [varAnd] without a valid fitness, once
    each and in their order, and [nevals] is their number.  Here
    [offspring] is what [varAnd] returns for the population on the random
    stream of the world: each of its individuals is its parent, left as
    it was, or has no fitness.  An individual of [offspring] with a valid
    fitness is therefore a parent that variation left alone; it is not
    among the individuals evaluated and it keeps its fitness.  The hall
    of fame is updated with the offspring once evaluated, and the
    individuals selected are among them. *)
Theorem generation_evaluates_invalid n tb cxpb mutpb cpp stats verbose flag
    population lb h g w :
  loop_ready n tb population h cpp flag w ->
  exists offspring s sel rec fh w' evs,
    varAnd population tb cxpb mutpb w = (Ok offspring, with_rng w s) /\
    generation evaluate_clf correct tb cxpb mutpb cpp stats verbose flag
      (population, lb, Some h) g w = (Ok (sel, logbook_record lb rec, Some fh), w') /\
    (exists l, crossed population l /\ mutated tb l offspring) /\
    trace w' = trace w ++ evs /\
    evaluations evs = genome <$> invalid_ind offspring /\
    gen rec = g /\
    nevals rec = length (invalid_ind offspring) /\
    nevals rec = length (evaluations evs) /\
    (forall i a, population !! i = Some a ->
       offspring !! i = Some a \/
       exists a', offspring !! i = Some a' /\ fitness a' = None) /\
    (forall i a, offspring !! i = Some a -> valid a = true ->
       population !! i = Some a /\
       evaluated evaluate_clf offspring !! i = Some a /\
       a ∉ invalid_ind offspring) /\
    hof_update h (evaluated evaluate_clf offspring) = Ok fh /\
    Forall (fun ind => ind ∈ evaluated evaluate_clf offspring) sel.
Proof.
  intros [Htb Hr Hg Hne Hinv Hmax Hf Hcp].
  destruct (generation_returns_of evaluate_clf correct n tb cxpb mutpb cpp stats verbose
              flag population lb h g w)
    as (r & w' & Hrun & ((off & s & Hpin & Hout) & _)); try done.
  destruct Hout as (sel & rec & h' & evs & Hstruct & Hvar & -> & Hgen & Hnev & Hu
                    & Hl & Hsel & Ht & He & Hs & Hdu & Hp & Hlb & Hss & Hd).
  exists off, s, sel, rec, h', w', evs. split_and!; try done.
  - by rewrite He, length_fmap.
  - intros i a Hi.
    destruct (Forall2_lookup_l _ _ _ _ _ Hvar Hi) as (a' & Hi' & [->|Hnone]); eauto.
  - intros i a Hi Hv.
    destruct (Forall2_lookup_r _ _ _ _ _ Hvar Hi) as (a0 & Hi0 & [->|Hnone]).
    + split_and!; [done| |].
      * unfold evaluated. rewrite list_lookup_fmap, Hi. simpl. by rewrite Hv.
      * unfold invalid_ind. intros Hin. apply list_elem_of_filter in Hin as [Hnv _].
        congruence.
    + unfold valid in Hv. rewrite Hnone in Hv. done.
Qed.

End EvaluationClaims.

Lemma example_mixed_loop_ready :
  loop_ready (R := TapeRNG) 2 example_toolbox example_mixed_population (hof_new 10)
    (Some "out/run/checkpoints") true (example_world example_quiet_tape).
Proof.
  split.
  - split; simpl; [lia|lia|repeat constructor; lia|lia].
  - split; simpl; eauto.
  - repeat constructor.
  - done.
  - apply hof_new_inv.
  - simpl. lia.
  - intros d [Hd|Hd]; simpl in Hd; injection Hd as <-; simpl; set_solver.
  - intros _. eexists. split; [reflexivity|]. simpl. set_solver.
Qed.

Lemma generation_evaluates_invalid_witness :
  loop_ready (R := TapeRNG) 2 example_toolbox example_mixed_population (hof_new 10)
    (Some "out/run/checkpoints") true (example_world example_quiet_tape) /\
  exists offspring s sel rec fh w' evs,
    varAnd (R := TapeRNG) example_mixed_population example_toolbox (1 # 2) (1 # 2)
      (example_world example_quiet_tape)
      = (Ok offspring, with_rng (example_world example_quiet_tape) s) /\
    generation (R := TapeRNG) example_evaluate example_correct example_toolbox
      (1 # 2) (1 # 2) (Some "out/run/checkpoints") true true true
      (example_mixed_population, logbook_new, Some (hof_new 10)) 0
      (example_world example_quiet_tape)
      = (Ok (sel, logbook_record logbook_new rec, Some fh), w') /\
    (exists l, crossed example_mixed_population l /\ mutated example_toolbox l offspring) /\
    trace w' = trace (example_world example_quiet_tape) ++ evs /\
    evaluations evs = genome <$> invalid_ind offspring /\
    gen rec = 0 /\
    nevals rec = length (invalid_ind offspring) /\
    nevals rec = length (evaluations evs) /\
    (forall i a, example_mixed_population !! i = Some a ->
       offspring !! i = Some a \/
       exists a', offspring !! i = Some a' /\ fitness a' = None) /\
    (forall i a, offspring !! i = Some a -> valid a = true ->
       example_mixed_population !! i = Some a /\
       evaluated example_evaluate offspring !! i = Some a /\
       a ∉ invalid_ind offspring) /\
    hof_update (hof_new 10) (evaluated example_evaluate offspring) = Ok fh /\
    Forall (fun ind => ind ∈ evaluated example_evaluate offspring) sel.
Proof.
  split; [apply example_mixed_loop_ready|].
  apply (generation_evaluates_invalid example_evaluate example_correct 2).
  apply example_mixed_loop_ready.
Defined.

(** On that population and stream no pair is crossed and no individual
    mutated: the first individual keeps its fitness and is not evaluated,
    the second one is evaluated, and [nevals] is 1. *)
Example generation_spares_valid :
  let w := example_world example_quiet_tape in
  let r := generation (R := TapeRNG) example_evaluate example_correct example_toolbox
             (1 # 2) (1 # 2) (Some "out/run/checkpoints") true true true
             (example_mixed_population, logbook_new, Some (hof_new 10)) 0 w in
  (varAnd (R := TapeRNG) example_mixed_population example_toolbox (1 # 2) (1 # 2) w).1
    = Ok example_mixed_population /\
  evaluations (trace r.2) = [[3; 3]] /\
  (nevals <$> chapters (default logbook_new (logbook (self r.2)))) = [1%nat] /\
  (exists sel lb fh, r.1 = Ok (sel, lb, Some fh) /\
     items fh = [mkInd [4; 3] (Some (7 # 1)); mkInd [3; 3] (Some (6 # 1))]).
Proof.
  vm_compute. split_and!; try done. eexists _, _, _. split; reflexivity.
Qed.

(** *** The checkpoint folder *)

Section FailFast.

Context {R : RNG}.
Variable evaluate_clf : list Z -> Q.
Variable correct : Hyperparam -> Z -> Q.

(** C5.  With [checkpoint_flag] set and a [checkpoint_path] that is
    [None] or not an existing directory, [custom_ea_simple] raises
    [NotADirectoryError] after logging the error and nothing else: no
    generation is started, nothing is evaluated, no file is touched and
    the random stream has not moved. *)
Theorem custom_ea_simple_not_a_directory population tb lb cxpb mutpb start_gen ngen
    cpp stats hof verbose w lg :
  optimization_logger (self w) = Some lg ->
  (cpp = None \/ exists p, cpp = Some p /\ p ∉ dirs w) ->
  exists w',
    custom_ea_simple evaluate_clf correct population tb lb cxpb mutpb start_gen ngen
      cpp stats hof verbose true w = (Raise NotADirectoryError, w') /\
    w' = with_trace w [ELog lg ERROR (MsgNotADirectory cpp)] /\
    generations_started (trace w') = generations_started (trace w) /\
    evaluations (trace w') = evaluations (trace w) /\
    file_events (trace w') = file_events (trace w) /\
    rng w' = rng w /\ pickles w' = pickles w /\ dirs w' = dirs w /\ self w' = self w.
Proof.
  intros Hlg Hbad. eexists. split; [|split; [reflexivity|]].
  - cbv [custom_ea_simple bind not_a_folder isdir ret log get_self raise].
    destruct Hbad as [->|(p & -> & Hp)].
    + rewrite Hlg. reflexivity.
    + rewrite bool_decide_eq_false_2 by done. simpl. rewrite Hlg. reflexivity.
  - unfold generations_started, evaluations, file_events. simpl.
    rewrite !omap_app, filter_app. simpl. rewrite !app_nil_r. done.
Qed.

(** On an optimizer whose logger was never created, the line that logs
    the error raises first. *)
Lemma custom_ea_simple_without_logger population tb lb cxpb mutpb start_gen ngen
    stats hof verbose w :
  optimization_logger (self w) = None ->
  custom_ea_simple evaluate_clf correct population tb lb cxpb mutpb start_gen ngen
    None stats hof verbose true w = (Raise AttributeError, w).
Proof.
  intros Hlg. cbv [custom_ea_simple bind not_a_folder ret log get_self raise].
  rewrite Hlg. reflexivity.
Qed.

End FailFast.

Lemma custom_ea_simple_not_a_directory_witness :
  optimization_logger (self (example_world example_tape)) = Some "out/run/opt.log" /\
  (Some "elsewhere" = None \/
   exists p, Some "elsewhere" = Some p /\ p ∉ dirs (example_world example_tape)) /\
  exists w',
    custom_ea_simple (R := TapeRNG) example_evaluate example_correct example_population
      example_toolbox logbook_new (1 # 2) (1 # 2) 0 3 (Some "elsewhere") true
      (Some (hof_new 10)) true true (example_world example_tape)
      = (Raise NotADirectoryError, w') /\
    w' = with_trace (example_world example_tape)
           [ELog "out/run/opt.log" ERROR (MsgNotADirectory (Some "elsewhere"))] /\
    generations_started (trace w') = generations_started (trace (example_world example_tape)) /\
    evaluations (trace w') = evaluations (trace (example_world example_tape)) /\
    file_events (trace w') = file_events (trace (example_world example_tape)) /\
    rng w' = rng (example_world example_tape) /\
    pickles w' = pickles (example_world example_tape) /\
    dirs w' = dirs (example_world example_tape) /\
    self w' = self (example_world example_tape).
Proof.
  assert (H1 : optimization_logger (self (example_world example_tape))
               = Some "out/run/opt.log") by reflexivity.
  assert (H2 : Some "elsewhere" = None \/
               exists p, Some "elsewhere" = Some p /\ p ∉ dirs (example_world example_tape)).
  { right. eexists. split; [reflexivity|]. simpl. set_solver. }
  split; [exact H1|]. split; [exact H2|].
  exact (custom_ea_simple_not_a_directory example_evaluate example_correct
           example_population example_toolbox logbook_new (1 # 2) (1 # 2) 0 3
           (Some "elsewhere") true (Some (hof_new 10)) true
           (example_world example_tape) "out/run/opt.log" H1 H2).
Defined.

(** ** The entry point *)


Section EntryPoint.

Context {R : RNG}.
Variable evaluate_clf : list Z -> Q.
Variable correct : Hyperparam -> Z -> Q.

Lemma bind_Ok {A B} (m : M A) (f : A -> M B) w a w1 :
  m w = (Ok a, w1) -> bind m f w = f a w1.
Proof. intros H. unfold bind. by rewrite H. Qed.

Lemma bind_Raise {A B} (m : M A) (f : A -> M B) w e w1 :
  m w = (Raise e, w1) -> bind m f w = (Raise e, w1).
Proof. intros H. unfold bind. by rewrite H. Qed.

Lemma for_each_cons_Raise {A S} (f : S -> A -> M S) x l s w e w1 :
  f s x w = (Raise e, w1) -> for_each f (x :: l) s w = (Raise e, w1).
Proof. intros H. simpl. by apply bind_Raise. Qed.

(** The first statement of a generation needs [self.progress_path]. *)
Lemma generation_without_progress_path tb cxpb mutpb cpp stats verbose flag locals g w :
  progress_path (self w) = None ->
  generation evaluate_clf correct tb cxpb mutpb cpp stats verbose flag locals g w
  = (Raise TypeError, w).
Proof.
  intros Hp. destruct locals as [[population lb] hof].
  cbv [generation bind get_self lift path_join]. rewrite Hp. reflexivity.
Qed.

(** C10.  The resume branch of [optimize_clf] sets [checkpoint_path],
    [results_path] and [graphics_path] from the folder of the checkpoint
    file and leaves [progress_path] as it was; it is [None] after
    construction, and a generation started with [progress_path] at
    [None] raises [TypeError] at its first statement, which builds the
    path of the progress file. *)
Theorem resume_leaves_progress_path checkpoint cp w :
  pickles w !! checkpoint = Some cp ->
  (exists w',
     resume checkpoint w
       = (Ok (cp_population cp, cp_generation cp + 1, cp_halloffame cp), w') /\
     checkpoint_path (self w') = Some (dirname checkpoint) /\
     results_path (self w') = Some (join (dirname checkpoint) "results") /\
     graphics_path (self w') = Some (join (dirname checkpoint) "graphics") /\
     progress_path (self w') = progress_path (self w)) /\
  (forall hps fixed dir seed parallel ds ps,
     progress_path (self (construct hps fixed dir seed parallel ds ps)) = None) /\
  (forall tb cxpb mutpb cpp stats verbose flag locals g w0,
     progress_path (self w0) = None ->
     generation evaluate_clf correct tb cxpb mutpb cpp stats verbose flag locals g w0
     = (Raise TypeError, w0)).
Proof.
  intros Hcp. split_and!.
  - eexists. split.
    + cbv [resume bind get_self put_self load log setstate ret emit]. simpl.
      rewrite Hcp. reflexivity.
    + done.
  - done.
  - intros. by apply generation_without_progress_path.
Qed.

(** C6.  On a new optimizer in parallel mode, a failing
    [import multiprocessing] does not degrade to sequential evaluation:
    the handler calls [warning] on the logger, which is still [None], and
    the run aborts with [AttributeError] before anything is done; a pool
    that cannot be created for another reason aborts the run with that
    error, which the handler does not catch. *)
Theorem import_error_aborts hps fixed dir seed ds ps population generations
    checkpoint exe_folder name :
  let w := construct hps fixed dir seed true ds ps in
  optimize_clf evaluate_clf correct population generations checkpoint exe_folder
    (Raise ImportError) name w = (Raise AttributeError, w) /\
  optimize_clf evaluate_clf correct population generations checkpoint exe_folder
    (Raise OSError) name w = (Raise OSError, w).
Proof. split; reflexivity. Qed.

(** Once a logger exists (a second run of the same optimizer), the
    [ImportError] is logged and [map] stays the builtin. *)
Lemma register_map_import_error w lg :
  use_parallel (self w) = true -> optimization_logger (self w) = Some lg ->
  register_map (Raise ImportError) w
  = (Ok false, with_trace w [ELog lg WARNING MsgMultiprocessing]).
Proof.
  intros Hp Hlg. cbv [register_map bind get_self log ret]. rewrite Hp, Hlg. reflexivity.
Qed.

Lemma draws_get_self w (P : Optimizer -> Prop) : P (self w) -> draws get_self w P.
Proof.
  intros H. apply returns_get_self. split; [|done]. exists (rng w). by rewrite with_rng_same.
Qed.

Lemma init_individual_loop_draws hps w :
  Forall (fun kv => min_value kv.2 <= max_value kv.2) hps ->
  draws (init_individual_loop hps) w (fun g => length g = length hps).
Proof.
  intros Hb. revert w. induction Hb as [|[k hp] hps Hle Hb IH]; intros w; simpl.
  - by apply draws_ret.
  - eapply draws_bind; [apply draws_randint with (P := fun _ => True); done|].
    intros x s _. eapply draws_bind; [apply IH|].
    intros g s' Hg. simpl in Hg. apply draws_ret. simpl. lia.
Qed.

Lemma initRepeat_draws n w :
  Forall (fun kv => min_value kv.2 <= max_value kv.2) (hyperparams (self w)) ->
  draws (initRepeat n) w
    (fun pop => length pop = n /\ genomes (length (hyperparams (self w))) pop).
Proof.
  intros Hb. revert w Hb. induction n as [|n IH]; intros w Hb; simpl.
  - apply draws_ret. split; [done|constructor].
  - unfold init_individual.
    eapply draws_bind.
    { eapply draws_bind; [apply draws_get_self with (P := fun o => o = self w); done|].
      intros o s ->.
      eapply draws_bind; [by apply init_individual_loop_draws|].
      intros g s' Hg.
      apply (draws_ret _ _ (fun ind => length (genome ind)
                                       = length (hyperparams (self w)))).
      exact Hg. }
    intros ind s Hind. eapply draws_bind; [by apply IH|].
    intros pop s' [Hl Hg]. simpl in Hind. apply draws_ret. split; [simpl; lia|]. by constructor.
Qed.

(** C1.  A run resumed from a checkpoint on a new optimizer restores the
    random stream and the logbook of the checkpoint, and then aborts with
    [TypeError] at the first statement of generation
    [saved_generation + 1]: [progress_path] is still [None].  No
    generation is run, nothing is evaluated and nothing is written. *)
Theorem resume_on_new_optimizer_raises hps fixed dir seed ds ps population generations
    checkpoint cp exe_folder host_pool name :
  Forall (fun kv => min_value kv.2 <= max_value kv.2) hps ->
  checkpoint <> "" ->
  ps !! checkpoint = Some cp ->
  dirname checkpoint ∈ ds ->
  cp_generation cp < generations ->
  exists w',
    optimize_clf evaluate_clf correct population generations (Some checkpoint)
      exe_folder host_pool name (construct hps fixed dir seed false ds ps)
    = (Raise TypeError, w') /\
    rng w' = cp_rndstate cp /\
    logbook (self w') = Some (cp_logbook cp) /\
    progress_path (self w') = None /\
    generations_started (trace w') = [] /\
    evaluations (trace w') = [] /\
    file_events (trace w') = [].
Proof.
  intros Hb Hne Hcp Hdir Hgen.
  set (w := construct hps fixed dir seed false ds ps).
  destruct (initRepeat_draws (Z.to_nat population) w Hb) as (pop & w1 & Hinit & [s ->] & _).
  unfold optimize_clf.
  erewrite bind_Ok by reflexivity.
  erewrite bind_Ok by exact Hinit.
  erewrite bind_Ok by reflexivity.
  erewrite bind_Ok by reflexivity.
  unfold truthy. rewrite bool_decide_eq_false_2 by done.
  erewrite bind_Ok.
  2: { cbv [resume bind get_self put_self load log setstate ret emit]. simpl.
       rewrite Hcp. reflexivity. }
  cbv beta iota.
  erewrite bind_Ok by reflexivity.
  eexists. split.
  - apply bind_Raise. unfold custom_ea_simple.
    erewrite bind_Ok.
    2: { cbv [bind not_a_folder isdir ret]. simpl.
         rewrite bool_decide_eq_true_2 by done. reflexivity. }
    cbv beta iota.
    rewrite seqZ_cons by lia.
    apply for_each_cons_Raise. by apply generation_without_progress_path.
  - simpl. done.
Qed.

End EntryPoint.

Lemma resume_leaves_progress_path_witness :
  let w := construct (R := TapeRNG) example_hyperparams ∅ "out" 0 false
             example_dirs example_pickles in
  pickles w !! example_checkpoint_file = Some example_checkpoint /\
  exists w',
    resume example_checkpoint_file w
      = (Ok (cp_population example_checkpoint, cp_generation example_checkpoint + 1,
             cp_halloffame example_checkpoint), w') /\
    checkpoint_path (self w') = Some (dirname example_checkpoint_file) /\
    results_path (self w') = Some (join (dirname example_checkpoint_file) "results") /\
    graphics_path (self w') = Some (join (dirname example_checkpoint_file) "graphics") /\
    progress_path (self w') = progress_path (self w).
Proof.
  intros w.
  assert (H : pickles w !! example_checkpoint_file = Some example_checkpoint).
  { apply lookup_singleton_eq. }
  split; [exact H|].
  exact (proj1 (resume_leaves_progress_path (R := TapeRNG) example_evaluate
                  example_correct example_checkpoint_file example_checkpoint w H)).
Defined.

Lemma resume_on_new_optimizer_raises_witness :
  Forall (fun kv : string * Hyperparam => min_value kv.2 <= max_value kv.2)
    example_hyperparams /\
  example_checkpoint_file <> "" /\
  example_pickles !! example_checkpoint_file = Some example_checkpoint /\
  dirname example_checkpoint_file ∈ example_dirs /\
  cp_generation example_checkpoint < 3 /\
  exists w',
    optimize_clf (R := TapeRNG) example_evaluate example_correct 2 3
      (Some example_checkpoint_file) None (Ok tt) "20240101_000000_TreeOptimizer"
      (construct example_hyperparams ∅ "out" 0 false example_dirs example_pickles)
    = (Raise TypeError, w') /\
    rng w' = cp_rndstate example_checkpoint /\
    logbook (self w') = Some (cp_logbook example_checkpoint) /\
    progress_path (self w') = None /\
    generations_started (trace w') = [] /\
    evaluations (trace w') = [] /\
    file_events (trace w') = [].
Proof.
  assert (H1 : Forall (fun kv : string * Hyperparam => min_value kv.2 <= max_value kv.2)
                 example_hyperparams) by (repeat constructor; simpl; lia).
  assert (H2 : example_checkpoint_file <> "") by discriminate.
  assert (H3 : example_pickles !! example_checkpoint_file = Some example_checkpoint)
    by apply lookup_singleton_eq.
  assert (H4 : dirname example_checkpoint_file ∈ example_dirs).
  { change (dirname example_checkpoint_file) with "out/run/checkpoints".
    unfold example_dirs. set_solver. }
  assert (H5 : cp_generation example_checkpoint < 3) by (simpl; lia).
  split_and!; [exact H1|exact H2|exact H3|exact H4|exact H5|].
  exact (resume_on_new_optimizer_raises (R := TapeRNG) example_evaluate example_correct
           example_hyperparams ∅ "out" 0 example_dirs example_pickles 2 3
           example_checkpoint_file example_checkpoint None (Ok tt)
           "20240101_000000_TreeOptimizer" H1 H2 H3 H4 H5).
Defined.

(** ** A checkpoint resumed on the optimizer that wrote it

    [progress_path] is set by the first run, so the first resumed
    generation runs and writes its checkpoint; the export that ends it
    raises [OSError], because [results_path] is now the folder [results]
    inside the folder of the checkpoints, which no run creates.  The
    uninterrupted run with the same draws returns normally. *)

Example resume_on_same_optimizer_raises :
  let run generations checkpoint w :=
    optimize_clf (R := TapeRNG) example_evaluate example_correct 2 generations
      checkpoint (Some "run") (Ok tt) "20240101_000000_TreeOptimizer" w in
  let first := run 0 None example_new_world in
  let resumed := run 1 (Some example_checkpoint_file) first.2 in
  let uninterrupted := run 1 None example_new_world in
  (exists r, first.1 = Ok r) /\
  progress_path (self first.2) = Some "out/run/progress" /\
  resumed.1 = Raise OSError /\
  generations_started (trace resumed.2) = [0; 1] /\
  fst <$> dumps (trace resumed.2)
    = ["out/run/checkpoints/cp_gen_0.pkl"; "out/run/checkpoints/cp_gen_1.pkl"] /\
  results_path (self resumed.2) = Some "out/run/checkpoints/results" /\
  (exists r, uninterrupted.1 = Ok r) /\
  generations_started (trace uninterrupted.2) = [0; 1].
Proof.
  vm_compute. split_and!; try done; eexists; reflexivity.
Qed.

(** * Further properties of the code *)

(** ** The class hierarchy *)






(** ** The initial population *)

Section InitialPopulation.

Context {R : RNG}.
Variable evaluate_clf : list Z -> Q.
Variable correct : Hyperparam -> Z -> Q.






End InitialPopulation.



(** ** Crossover of short genomes *)

Section ShortGenomes.

Context {R : RNG}.


End ShortGenomes.


(** ** Decoding an individual *)

Section Decoding.

Variable correct : Hyperparam -> Z -> Q.




End Decoding.


(** ** Paths *)


















Section ResumeFolder.

Context {R : RNG}.


End ResumeFolder.


(** ** A checkpoint that cannot be loaded *)

Section MissingCheckpoint.

Context {R : RNG}.
Variable evaluate_clf : list Z -> Q.
Variable correct : Hyperparam -> Z -> Q.


End MissingCheckpoint.


(** ** The exported tables *)

Section Exports.

Context {R : RNG}.


End Exports.


(** ** What a run keeps *)


Section RunInvariants.

Context {R : RNG}.
Variable evaluate_clf : list Z -> Q.
Variable correct : Hyperparam -> Z -> Q.







End RunInvariants.

